(** * AUR tooling: dependency resolver and security scanner

    A shallow embedding of the two pieces of the repository that carry
    algorithmic content:

    - [scripts/aur_security_scanner.py]: [RiskLevel], [SecurityFinding],
      [PKGBUILDAnalyzer._analyze_url],
      [PKGBUILDAnalyzer._check_integrity_verification],
      [AURSecurityScanner._validate_package_name], [_safe_extract_tar],
      [_download_and_extract_package], [scan_package] and
      [_assess_overall_security];
    - [scripts/pkger.py]: [PackageTool._resolve_aur_dependencies] with its
      nested [visit].

    Python [str] values are modelled as Rocq strings, one [ascii] per code
    point, so the model covers text whose code points are below 256.  The
    regular expressions of the source are written in a small regex syntax
    and run by a backtracking matcher with Python's greedy preference. *)

From Stdlib Require Import Ascii String List Bool Arith Lia.
From stdpp Require Import base decidable option list relations gmap strings
  pretty.

Local Open Scope string_scope.
Local Open Scope nat_scope.
Local Open Scope list_scope.

#[local] Set Warnings "-clear-no-such-hyp".

(* ===================================================================== *)
(** * Characters and strings *)
(* ===================================================================== *)

Definition code (c : ascii) : nat := nat_of_ascii c.

Definition between (lo hi : nat) (c : ascii) : bool :=
  (lo <=? code c) && (code c <=? hi).

Definition is_lower (c : ascii) : bool := between 97 122 c.   (* a-z *)
Definition is_upper (c : ascii) : bool := between 65 90 c.    (* A-Z *)
Definition is_digit (c : ascii) : bool := between 48 57 c.    (* 0-9 *)
Definition is_chr (x : ascii) (c : ascii) : bool := code c =? code x.

Definition chars (s : string) : list ascii := list_ascii_of_string s.
Definition text (l : list ascii) : string := string_of_list_ascii l.

(** [re]'s [\w] on a [str] pattern: [str.isalnum()] or an underscore.  Below
    256 the alphanumeric code points are the ASCII letters and digits, the
    Latin-1 letters (U+00AA, U+00B5, U+00BA, U+00C0-U+00D6, U+00D8-U+00F6,
    U+00F8-U+00FF) and the Latin-1 numerics (U+00B2, U+00B3, U+00B9,
    U+00BC-U+00BE). *)
Definition is_word (c : ascii) : bool :=
  is_lower c || is_upper c || is_digit c || is_chr "_" c
  || (code c =? 170) || (code c =? 181) || (code c =? 186)
  || between 192 214 c || between 216 246 c || between 248 255 c
  || (code c =? 178) || (code c =? 179) || (code c =? 185)
  || between 188 190 c.

(** [re]'s [\s] on a [str] pattern: [str.isspace()].  Below 256 these are
    U+0009-U+000D, U+001C-U+0020, U+0085 and U+00A0. *)
Definition is_space (c : ascii) : bool :=
  between 9 13 c || between 28 32 c || (code c =? 133) || (code c =? 160).

(** [str.lower()] on one code point below 256. *)
Definition lower_char (c : ascii) : ascii :=
  if is_upper c || between 192 214 c || between 216 222 c
  then ascii_of_nat (code c + 32) else c.

Definition lower (s : string) : string := text (map lower_char (chars s)).

Definition startswith (s p : string) : bool := String.prefix p s.

Fixpoint list_prefix (p s : list ascii) : bool :=
  match p, s with
  | [], _ => true
  | a :: p', b :: s' => (code a =? code b) && list_prefix p' s'
  | _ :: _, [] => false
  end.

Definition endswith (s suffix : string) : bool :=
  list_prefix (rev (chars suffix)) (rev (chars s)).

(** [sep.join(parts)]. *)
Fixpoint join (sep : string) (parts : list string) : string :=
  match parts with
  | [] => EmptyString
  | [p] => p
  | p :: rest => p +:+ sep +:+ join sep rest
  end.

(** [s.split(sep)] for a one-character separator: the pieces between the
    separators, empty pieces included. *)
Fixpoint split_chars (sep : ascii) (cur : list ascii) (s : list ascii)
  : list string :=
  match s with
  | [] => [text (rev cur)]
  | c :: s' =>
      if code c =? code sep then text (rev cur) :: split_chars sep [] s'
      else split_chars sep (c :: cur) s'
  end.

Definition split (sep : ascii) (s : string) : list string :=
  split_chars sep [] (chars s).

(* ===================================================================== *)
(** * Regular expressions *)
(* ===================================================================== *)

Module Re.

(** The fragment of Python's [re] syntax that the modelled patterns use. *)
Inductive regex : Type :=
| Chr (c : ascii)              (* a literal character *)
| Cls (p : ascii -> bool)      (* a character class *)
| Cat (r1 r2 : regex)          (* r1 r2 *)
| Star (r : regex)             (* r*, greedy *)
| Bol                          (* ^ *)
| Eol.                         (* $ *)

Definition Plus (r : regex) : regex := Cat r (Star r).

(** A literal string, [r] following it. *)
Fixpoint Lit (s : list ascii) (r : regex) : regex :=
  match s with
  | [] => r
  | c :: s' => Cat (Chr c) (Lit s' r)
  end.

(** A continuation receives the character just before the current position
    ([None] at the start of the subject) and the rest of the subject. *)
Definition cont : Type := option ascii -> list ascii -> option (list ascii).

Definition newline : ascii := ascii_of_nat 10.

(** [^]: at the start of the subject; with MULTILINE also after a newline. *)
Definition at_bol (multiline : bool) (prev : option ascii) : bool :=
  match prev with
  | None => true
  | Some c => multiline && is_chr newline c
  end.

(** [$]: at the end of the subject or just before a newline that ends it;
    with MULTILINE before any newline. *)
Definition at_eol (multiline : bool) (s : list ascii) : bool :=
  match s with
  | [] => true
  | c :: s' =>
      is_chr newline c && (multiline || match s' with [] => true | _ => false end)
  end.

(** Backtracking matcher: the alternatives are tried in Python's order (a
    starred item takes as many repetitions as it can before fewer are
    tried), and the first complete match wins. *)
Fixpoint run (multiline : bool) (r : regex) (prev : option ascii)
    (s : list ascii) (k : cont) : option (list ascii) :=
  match r with
  | Chr c =>
      match s with
      | x :: s' => if code x =? code c then k (Some x) s' else None
      | [] => None
      end
  | Cls p =>
      match s with
      | x :: s' => if p x then k (Some x) s' else None
      | [] => None
      end
  | Cat r1 r2 =>
      run multiline r1 prev s (fun prev' s' => run multiline r2 prev' s' k)
  | Star r1 =>
      (fix loop (n : nat) (prev : option ascii) (s : list ascii) :=
         match n with
         | O => k prev s
         | S n' =>
             match run multiline r1 prev s
                     (fun prev' s' =>
                        if length s' <? length s then loop n' prev' s'
                        else None) with
             | Some rest => Some rest
             | None => k prev s
             end
         end) (length s) prev s
  | Bol => if at_bol multiline prev then k prev s else None
  | Eol => if at_eol multiline s then k prev s else None
  end.

Definition accept : cont := fun _ rest => Some rest.

(** [re.match(r, s)]: the pattern is tried at position 0 only; the result
    is [match.group(0)]. *)
Definition re_match (multiline : bool) (r : regex) (s : string)
  : option string :=
  match run multiline r None (chars s) accept with
  | Some rest => Some (text (take (length (chars s) - length rest) (chars s)))
  | None => None
  end.

(** [re.search(r, s)] as a truth value: the pattern is tried at every
    position from left to right. *)
Fixpoint search_from (multiline : bool) (r : regex) (prev : option ascii)
    (s : list ascii) : bool :=
  match run multiline r prev s accept with
  | Some _ => true
  | None =>
      match s with
      | [] => false
      | c :: s' => search_from multiline r (Some c) s'
      end
  end.

Definition re_search (multiline : bool) (r : regex) (s : string) : bool :=
  search_from multiline r None (chars s).

End Re.

(* ===================================================================== *)
(** * Findings and the verdict (aur_security_scanner.py) *)
(* ===================================================================== *)

Inductive RiskLevel : Type := LOW | MEDIUM | HIGH | CRITICAL.

Definition RiskLevel_eqb (a b : RiskLevel) : bool :=
  match a, b with
  | LOW, LOW | MEDIUM, MEDIUM | HIGH, HIGH | CRITICAL, CRITICAL => true
  | _, _ => false
  end.

(** [RiskLevel.__lt__] compares the positions in this order. *)
Definition risk_order (r : RiskLevel) : nat :=
  match r with LOW => 0 | MEDIUM => 1 | HIGH => 2 | CRITICAL => 3 end.

Record SecurityFinding : Type := mkFinding {
  risk_level : RiskLevel;
  category : string;
  description : string;
  location : option string;
  recommendation : option string;
  matched_content : option string
}.

(** [sum(1 for f in findings if f.risk_level == level)]. *)
Fixpoint count_level (level : RiskLevel) (findings : list SecurityFinding)
  : nat :=
  match findings with
  | [] => 0
  | f :: rest =>
      (if RiskLevel_eqb (risk_level f) level then 1 else 0)
      + count_level level rest
  end.

(** [AURSecurityScanner._assess_overall_security], on [self.findings]. *)
Definition _assess_overall_security (findings : list SecurityFinding)
  : bool :=
  let critical_count := count_level CRITICAL findings in
  let high_count := count_level HIGH findings in
  let medium_count := count_level MEDIUM findings in
  if 0 <? critical_count then false
  else if 2 <? high_count then false
  else if 5 <? medium_count then false
  else true.

(** The verdict rule in the words of the specification: any CRITICAL
    finding, else more than 2 HIGH, else more than 5 MEDIUM makes the
    package unsafe. *)
Definition has_level (level : RiskLevel) (fs : list SecurityFinding) : Prop :=
  Exists (fun f => risk_level f = level) fs.

Definition findings_of (level : RiskLevel) (fs : list SecurityFinding)
  : list SecurityFinding :=
  List.filter (fun f => RiskLevel_eqb (risk_level f) level) fs.

Inductive verdict_rule (fs : list SecurityFinding) : bool -> Prop :=
| unsafe_critical :
    has_level CRITICAL fs -> verdict_rule fs false
| unsafe_high :
    ~ has_level CRITICAL fs -> 2 < length (findings_of HIGH fs) ->
    verdict_rule fs false
| unsafe_medium :
    ~ has_level CRITICAL fs -> length (findings_of HIGH fs) <= 2 ->
    5 < length (findings_of MEDIUM fs) -> verdict_rule fs false
| safe_otherwise :
    ~ has_level CRITICAL fs -> length (findings_of HIGH fs) <= 2 ->
    length (findings_of MEDIUM fs) <= 5 -> verdict_rule fs true.

(* ===================================================================== *)
(** * Paths (pathlib.PurePosixPath) and the scratch disk *)
(* ===================================================================== *)

(** An absolute POSIX path: its components and whether it keeps the
    two-slash root that POSIX treats specially. *)
Record Path : Type := mkPath {
  dslash : bool;
  parts : list string
}.

(** [str(path)]. *)
Definition path_str (p : Path) : string :=
  (if dslash p then "//" else "/") +:+ join "/" (parts p).

(** The components of a path string: empty components and "." are dropped
    when a path is parsed, ".." is kept. *)
Definition components (s : string) : list string :=
  List.filter (fun c => negb (String.eqb c EmptyString || String.eqb c "."))
              (split "/" s).

Definition is_absolute (s : string) : bool := startswith s "/".

(** Exactly two leading slashes. *)
Definition two_slashes (s : string) : bool :=
  startswith s "//" && negb (startswith s "///").

(** [base / name]: an absolute [name] replaces [base]. *)
Definition path_join (base : Path) (name : string) : Path :=
  if is_absolute name then mkPath (two_slashes name) (components name)
  else mkPath (dslash base) (parts base ++ components name).

(** ".." removes the component before it and is dropped at the root. *)
Fixpoint collapse (acc : list string) (cs : list string) : list string :=
  match cs with
  | [] => rev acc
  | c :: cs' =>
      if String.eqb c ".." then collapse (List.tl acc) cs'
      else collapse (c :: acc) cs'
  end.

(** [path.resolve()] on a tree without symbolic links. *)
Definition resolve (p : Path) : Path :=
  mkPath (dslash p) (collapse [] (parts p)).

(** What the scratch disk holds under a path string. *)
Inductive Entry : Type :=
| Dir
| File (content : string)   (* a file and what it holds *)
| Blob.                     (* a file whose bytes are not valid UTF-8 *)

Definition path_exists (disk : gmap string Entry) (p : Path) : bool :=
  bool_decide (is_Some (disk !! path_str (resolve p))).

(* ===================================================================== *)
(** * Exceptions, events and the host *)
(* ===================================================================== *)

Inductive exn : Type :=
| AURSecurityError (msg : string)
| TarError (msg : string)        (* tarfile.TarError and its subclasses *)
| Exception (msg : string).      (* any other Exception *)

(** [str(e)]. *)
Definition exn_str (e : exn) : string :=
  match e with
  | AURSecurityError m | TarError m | Exception m => m
  end.

Record TarInfo : Type := mkTarInfo {
  name : string;
  size : Z
}.

Record ParseResult : Type := mkParseResult {
  scheme : string;
  netloc : string
}.

Inductive log_level : Type := DEBUG | INFO | WARNING | ERROR.

(** What a run does to the outside world, in order. *)
Inductive event : Type :=
| EvLog (level : log_level) (msg : string)
| EvMkdtemp (dir : Path)
| EvFetch (url : string)
| EvWrite (file : Path)
| EvExtractAll (dest : Path)
| EvAnalyze (pkgbuild : Path)
| EvMetadata (package_name : string)
| EvFiles (package_dir : Path)
| EvRmtree (dir : Path).

(** The collaborators that are not part of the two embedded classes: the
    standard library ([tempfile], [urllib], [tarfile]), the network, and the
    checks of the scanner that are not embedded here. *)
Record Host : Type := mkHost {
  (** [tempfile.mkdtemp(prefix=...)]. *)
  mkdtemp : string -> Path;
  (** [NetworkManager.fetch_url(url, binary=True)]: the bytes, or the
      message of the [AURSecurityError] it raises. *)
  fetch_url : string -> string + string;
  (** [tarfile.open(path, 'r:gz')] and [tar.getmembers()] on a file's
      content. *)
  tar_open : string -> exn + list TarInfo;
  (** [tar.extractall(path=dest, filter='data')]: the entries it writes,
      and the exception it stops with, if any. *)
  tar_extractall :
    list TarInfo -> Path -> list (string * Entry) * option exn;
  (** [urllib.parse.urlparse(url)]; [None] when it raises. *)
  urlparse : string -> option ParseResult;
  (** [set(all_urls)] of [_check_source_urls], in iteration order. *)
  source_urls : string -> list string;
  (** The findings of [_check_required_fields], of
      [_check_suspicious_patterns], and of [_check_functions] followed by
      [_check_variables], on a manifest text. *)
  required_fields_findings : string -> list SecurityFinding;
  suspicious_patterns_findings : string -> string -> list SecurityFinding;
  functions_variables_findings : string -> list SecurityFinding;
  (** The findings [_check_package_metadata] appends. *)
  metadata_findings : string -> list SecurityFinding;
  (** The findings [_analyze_additional_files] appends, and the exception
      it stops with, if any. *)
  files_findings :
    gmap string Entry -> Path -> list SecurityFinding * option exn
}.

(* ===================================================================== *)
(** * PKGBUILDAnalyzer *)
(* ===================================================================== *)

Definition TRUSTED_DOMAINS : list string :=
  [ "github.com"; "gitlab.com"; "bitbucket.org"; "sourceforge.net";
    "archive.org"; "gnu.org"; "kernel.org"; "python.org"; "mozilla.org";
    "freedesktop.org"; "gnome.org"; "kde.org"; "apache.org"; "debian.org";
    "ubuntu.com"; "fedoraproject.org"; "archlinux.org"; "gentoo.org" ].

Definition suspicious_tlds : list string :=
  [ ".tk"; ".ml"; ".ga"; ".cf"; ".cc" ].

(** [x in collection] on strings. *)
Definition str_in (x : string) (l : list string) : bool :=
  existsb (String.eqb x) l.

(** [PKGBUILDAnalyzer._analyze_url]: the findings list after the call. *)
Definition _analyze_url (h : Host) (url : string)
    (findings : list SecurityFinding) : list SecurityFinding :=
  match urlparse h url with
  | None =>
      findings ++
      [ mkFinding MEDIUM "URL Parse Error"
          ("Could not parse URL: " +:+ url)
          None (Some "Verify URL format and accessibility") None ]
  | Some parsed =>
      let domain := lower (netloc parsed) in
      let domain := List.hd EmptyString (split ":" domain) in
      let findings :=
        if String.eqb (scheme parsed) "http" then
          findings ++
          [ mkFinding MEDIUM "Insecure Protocol"
              ("Unencrypted HTTP download: " +:+ domain)
              None (Some "Use HTTPS sources when available") (Some url) ]
        else findings in
      if negb (str_in domain TRUSTED_DOMAINS) then
        let '(risk, desc) :=
          if existsb (fun tld => endswith domain tld) suspicious_tlds
          then (HIGH, "Download from suspicious domain: " +:+ domain)
          else (LOW, "Download from non-standard domain: " +:+ domain) in
        findings ++
        [ mkFinding risk "Unknown Source Domain" desc
            None (Some "Verify domain reputation and authenticity")
            (Some url) ]
      else findings
  end.

(** [PKGBUILDAnalyzer._check_source_urls], after the URLs are collected. *)
Definition _check_source_urls (h : Host) (content : string)
    (findings : list SecurityFinding) : list SecurityFinding :=
  fold_left (fun fs url => _analyze_url h url fs) (source_urls h content)
            findings.

(** The pattern [rf'^\s*{field}\s*='], searched with [re.MULTILINE]. *)
Definition field_re (field : string) : Re.regex :=
  Re.Cat Re.Bol
    (Re.Cat (Re.Star (Re.Cls is_space))
       (Re.Lit (chars field)
          (Re.Cat (Re.Star (Re.Cls is_space)) (Re.Chr "=")))).

Definition has_field (field content : string) : bool :=
  Re.re_search true (field_re field) content.

Definition checksum_fields : list string :=
  [ "md5sums"; "sha1sums"; "sha256sums"; "sha512sums" ].

(** [PKGBUILDAnalyzer._check_integrity_verification]: the findings list
    after the call. *)
Definition _check_integrity_verification (content : string)
    (findings : list SecurityFinding) : list SecurityFinding :=
  let found_checksums :=
    List.filter (fun field => has_field field content) checksum_fields in
  match found_checksums with
  | [] =>
      findings ++
      [ mkFinding HIGH "No Integrity Verification"
          "Package does not verify download integrity with checksums"
          None (Some "Add SHA256 or SHA512 checksums to PKGBUILD") None ]
  | _ :: _ =>
      let weak_hashes :=
        List.filter (fun h => str_in h ["md5sums"; "sha1sums"])
                    found_checksums in
      match weak_hashes with
      | [] => findings
      | _ :: _ =>
          findings ++
          [ mkFinding MEDIUM "Weak Hash Algorithm"
              ("Using weak hash algorithms: " +:+ join ", " weak_hashes)
              None (Some "Use SHA256 or SHA512 for better security") None ]
      end
  end.

(** [PKGBUILDAnalyzer.analyze] on a manifest whose text could be read; the
    list starts empty and the checks run in the source's order. *)
Definition analyze_content (h : Host) (content : string) (location : string)
  : list SecurityFinding :=
  let fs := required_fields_findings h content in
  let fs := fs ++ suspicious_patterns_findings h content location in
  let fs := _check_source_urls h content fs in
  let fs := _check_integrity_verification content fs in
  fs ++ functions_variables_findings h content.

(** [PKGBUILDAnalyzer.analyze]: reading a directory or a missing path raises
    inside the [try], which the last handler turns into one HIGH finding. *)
Definition analyze (h : Host) (disk : gmap string Entry) (pkgbuild_path : Path)
  : list SecurityFinding :=
  match disk !! path_str (resolve pkgbuild_path) with
  | Some (File content) => analyze_content h content (path_str pkgbuild_path)
  | Some Blob =>
      [ mkFinding MEDIUM "Encoding Issue"
          "PKGBUILD contains non-UTF8 characters"
          (Some (path_str pkgbuild_path))
          (Some "Verify file integrity and encoding") None ]
  | Some Dir =>
      [ mkFinding HIGH "Analysis Error"
          ("Failed to analyze PKGBUILD: [Errno 21] Is a directory: '"
             +:+ path_str pkgbuild_path +:+ "'")
          (Some (path_str pkgbuild_path)) None None ]
  | None =>
      [ mkFinding HIGH "Analysis Error"
          ("Failed to analyze PKGBUILD: [Errno 2] No such file or directory: '"
             +:+ path_str pkgbuild_path +:+ "'")
          (Some (path_str pkgbuild_path)) None None ]
  end.

(* ===================================================================== *)
(** * AURSecurityScanner: state and effects *)
(* ===================================================================== *)

(** The scanner object ([self.findings], [self.temp_dir]) together with the
    disk it works on and the trace of what it has done. *)
Record World : Type := mkWorld {
  findings : list SecurityFinding;
  temp_dir : option Path;
  disk : gmap string Entry;
  trace : list event
}.

(** A computation either returns or raises, and leaves a world behind. *)
Definition M (A : Type) : Type := World -> (exn + A) * World.

Definition ret {A} (a : A) : M A := fun w => (inr a, w).
Definition raise {A} (e : exn) : M A := fun w => (inl e, w).

Definition bind {A B} (m : M A) (f : A -> M B) : M B :=
  fun w =>
    match m w with
    | (inr a, w') => f a w'
    | (inl e, w') => (inl e, w')
    end.

(** [try: m  except ...: handler(e)]; a handler may re-raise. *)
Definition try_except {A} (m : M A) (handler : exn -> M A) : M A :=
  fun w =>
    match m w with
    | (inr a, w') => (inr a, w')
    | (inl e, w') => handler e w'
    end.

(** [try: m  finally: cleanup]. *)
Definition try_finally {A} (m : M A) (cleanup : M unit) : M A :=
  fun w =>
    match m w with
    | (r, w') =>
        match cleanup w' with
        | (inr _, w'') => (r, w'')
        | (inl e, w'') => (inl e, w'')
        end
    end.

Notation "x <- m ;; k" := (bind m (fun x => k))
  (at level 100, m at next level, right associativity).
Notation "m ;;; k" := (bind m (fun _ => k))
  (at level 100, right associativity).

Definition get_findings : M (list SecurityFinding) :=
  fun w => (inr (findings w), w).
Definition get_disk : M (gmap string Entry) := fun w => (inr (disk w), w).
Definition get_temp_dir : M (option Path) := fun w => (inr (temp_dir w), w).

Definition set_findings (fs : list SecurityFinding) : M unit :=
  fun w => (inr tt, mkWorld fs (temp_dir w) (disk w) (trace w)).
Definition set_temp_dir (d : Path) : M unit :=
  fun w => (inr tt, mkWorld (findings w) (Some d) (disk w) (trace w)).
Definition set_disk (d : gmap string Entry) : M unit :=
  fun w => (inr tt, mkWorld (findings w) (temp_dir w) d (trace w)).

(** [self.findings.append(f)] and [self.findings.extend(fs)]. *)
Definition extend (fs : list SecurityFinding) : M unit :=
  fun w =>
    (inr tt, mkWorld (findings w ++ fs) (temp_dir w) (disk w) (trace w)).
Definition append (f : SecurityFinding) : M unit := extend [f].

Definition emit (e : event) : M unit :=
  fun w =>
    (inr tt, mkWorld (findings w) (temp_dir w) (disk w) (trace w ++ [e])).
Definition log (level : log_level) (msg : string) : M unit :=
  emit (EvLog level msg).

(** [shutil.rmtree(dir, ignore_errors=True)]: the directory and everything
    under it go. *)
Definition under (dir : Path) (p : string) : bool :=
  String.eqb p (path_str (resolve dir))
  || startswith p (path_str (resolve dir) +:+ "/").

Definition rmtree (dir : Path) : M unit :=
  emit (EvRmtree dir) ;;;
  d <- get_disk ;;
  set_disk (filter (fun kv => under dir (fst kv) = false) d).

(** [AURSecurityScanner._temp_directory]: the context manager around the
    body of a scan. *)
Definition _temp_directory {A} (h : Host) (prefix : string)
    (body : Path -> M A) : M A :=
  let temp_dir := mkdtemp h prefix in
  try_finally
    (emit (EvMkdtemp temp_dir) ;;;
     d <- get_disk ;;
     set_disk (<[path_str (resolve temp_dir) := Dir]> d) ;;;
     body temp_dir)
    (d <- get_disk ;;
     if path_exists d temp_dir then rmtree temp_dir else ret tt).

(* ===================================================================== *)
(** * AURSecurityScanner: validation, download and extraction *)
(* ===================================================================== *)

(** The class [[a-zA-Z0-9._+-]]. *)
Definition name_char (c : ascii) : bool :=
  is_lower c || is_upper c || is_digit c
  || is_chr "." c || is_chr "_" c || is_chr "+" c || is_chr "-" c.

(** The pattern [r'^[a-zA-Z0-9._+-]+$']. *)
Definition package_name_re : Re.regex :=
  Re.Cat Re.Bol (Re.Cat (Re.Plus (Re.Cls name_char)) Re.Eol).

(** [AURSecurityScanner._validate_package_name]. *)
Definition _validate_package_name (package_name : string) : bool :=
  match Re.re_match false package_name_re package_name with
  | None => false
  | Some _ =>
      if 255 <? String.length package_name then false else true
  end.

(** The size above which a member is reported, [100 * 1024 * 1024]. *)
Definition large_member : Z := (100 * 1024 * 1024)%Z.

(** The text of the warning for a large member. *)
Definition large_member_warning (member : TarInfo) : string :=
  "Large file in archive: " +:+ name member
    +:+ " (" +:+ pretty (size member) +:+ " bytes)".

(** The error for a member whose path fails the check. *)
Definition path_traversal (member : TarInfo) : exn :=
  AURSecurityError ("Attempted path traversal: " +:+ name member).

(** The test [str(member_path).startswith(str(extract_to.resolve()))]. *)
Definition passes_check (extract_to : Path) (member : TarInfo) : bool :=
  let member_path := resolve (path_join extract_to (name member)) in
  startswith (path_str member_path) (path_str (resolve extract_to)).

(** The loop of [_safe_extract_tar] over [tar.getmembers()]. *)
Fixpoint check_members (extract_to : Path) (members : list TarInfo)
  : M unit :=
  match members with
  | [] => ret tt
  | member :: rest =>
      if negb (passes_check extract_to member)
      then raise (path_traversal member)
      else
        (if (large_member <? size member)%Z
         then log WARNING (large_member_warning member)
         else ret tt) ;;;
        check_members extract_to rest
  end.

(** [open(path, 'rb')] as [tarfile.open] does it. *)
Definition read_archive (h : Host) (archive_path : Path)
  : M (list TarInfo) :=
  d <- get_disk ;;
  match d !! path_str (resolve archive_path) with
  | Some (File content) =>
      match tar_open h content with
      | inr members => ret members
      | inl e => raise e
      end
  | Some Blob => raise (TarError "not a gzip file")
  | Some Dir =>
      raise (Exception ("[Errno 21] Is a directory: '"
                          +:+ path_str archive_path +:+ "'"))
  | None =>
      raise (Exception ("[Errno 2] No such file or directory: '"
                          +:+ path_str archive_path +:+ "'"))
  end.

(** [tar.extractall(path=extract_to, filter='data')]. *)
Definition extractall (h : Host) (members : list TarInfo) (extract_to : Path)
  : M unit :=
  emit (EvExtractAll extract_to) ;;;
  d <- get_disk ;;
  let '(written, failure) := tar_extractall h members extract_to in
  set_disk (fold_left (fun d kv => <[fst kv := snd kv]> d) written d) ;;;
  match failure with
  | Some e => raise e
  | None => ret tt
  end.

(** The handler [except tarfile.TarError as e] of [_safe_extract_tar];
    other exceptions pass through. *)
Definition on_tar_error (e : exn) : M unit :=
  match e with
  | TarError msg => raise (AURSecurityError ("Invalid tar archive: " +:+ msg))
  | _ => raise e
  end.

(** [AURSecurityScanner._safe_extract_tar]. *)
Definition _safe_extract_tar (h : Host) (archive_path extract_to : Path)
  : M unit :=
  try_except
    (members <- read_archive h archive_path ;;
     check_members extract_to members ;;;
     extractall h members extract_to)
    on_tar_error.

(** [AURSecurityScanner._download_and_extract_package]; [self.temp_dir] is
    set by the caller. *)
Definition _download_and_extract_package (h : Host) (package_name : string)
  : M (option Path) :=
  try_except
    (let url := "https://aur.archlinux.org/cgit/aur.git/snapshot/"
                  +:+ package_name +:+ ".tar.gz" in
     log DEBUG ("Downloading from: " +:+ url) ;;;
     emit (EvFetch url) ;;;
     match fetch_url h url with
     | inl msg => raise (AURSecurityError msg)
     | inr archive_data =>
         td <- get_temp_dir ;;
         match td with
         | None =>
             raise (Exception
               "unsupported operand type(s) for /: 'NoneType' and 'str'")
         | Some temp_dir =>
             let archive_path :=
               path_join temp_dir (package_name +:+ ".tar.gz") in
             emit (EvWrite archive_path) ;;;
             d <- get_disk ;;
             set_disk (<[path_str (resolve archive_path)
                          := File archive_data]> d) ;;;
             let package_dir := path_join temp_dir package_name in
             _safe_extract_tar h archive_path temp_dir ;;;
             d <- get_disk ;;
             if negb (path_exists d package_dir) then
               raise (AURSecurityError
                        ("Package directory " +:+ package_name
                           +:+ " not found after extraction"))
             else ret (Some package_dir)
         end
     end)
    (fun e =>
       match e with
       | AURSecurityError _ => raise e
       | _ =>
           raise (AURSecurityError
                    ("Failed to download/extract package: " +:+ exn_str e))
       end).

(* ===================================================================== *)
(** * AURSecurityScanner.scan_package *)
(* ===================================================================== *)

Definition invalid_name_finding (package_name : string) : SecurityFinding :=
  mkFinding CRITICAL "Invalid Package Name"
    ("Package name '" +:+ package_name +:+ "' contains invalid characters")
    None
    (Some "Use only alphanumeric characters, hyphens, and underscores")
    None.

Definition missing_pkgbuild_finding : SecurityFinding :=
  mkFinding CRITICAL "Missing PKGBUILD"
    "PKGBUILD file not found in package"
    None (Some "Package structure is invalid - do not install") None.

(** [_check_package_metadata] and [_analyze_additional_files], through the
    host. *)
Definition _check_package_metadata (h : Host) (package_name : string)
  : M unit :=
  emit (EvMetadata package_name) ;;;
  extend (metadata_findings h package_name).

Definition _analyze_additional_files (h : Host) (package_dir : Path)
  : M unit :=
  emit (EvFiles package_dir) ;;;
  d <- get_disk ;;
  let '(fs, failure) := files_findings h d package_dir in
  extend fs ;;;
  match failure with
  | Some e => raise e
  | None => ret tt
  end.

(** [str(b)] for a [bool]. *)
Definition bool_str (b : bool) : string := if b then "True" else "False".

(** The body of the [with self._temp_directory(...)] block. *)
Definition scan_in (h : Host) (package_name : string) (temp_dir : Path)
  : M (bool * list SecurityFinding) :=
  set_temp_dir temp_dir ;;;
  (* Step 1: download and extract *)
  package_dir <- _download_and_extract_package h package_name ;;
  match package_dir with
  | None => fs <- get_findings ;; ret (false, fs)
  | Some package_dir =>
      (* Step 2: the manifest *)
      let pkgbuild_path := path_join package_dir "PKGBUILD" in
      d <- get_disk ;;
      if negb (path_exists d pkgbuild_path) then
        append missing_pkgbuild_finding ;;;
        fs <- get_findings ;;
        ret (false, fs)
      else
        emit (EvAnalyze pkgbuild_path) ;;;
        extend (analyze h d pkgbuild_path) ;;;
        (* Step 3: metadata *)
        _check_package_metadata h package_name ;;;
        (* Step 4: the other files *)
        _analyze_additional_files h package_dir ;;;
        (* Step 5: the verdict *)
        fs <- get_findings ;;
        let is_safe := _assess_overall_security fs in
        log INFO ("Scan completed for " +:+ package_name +:+ ". Safe: "
                    +:+ bool_str is_safe +:+ ", Findings: "
                    +:+ pretty (length fs)) ;;;
        ret (is_safe, fs)
  end.

(** [AURSecurityScanner.scan_package]. *)
Definition scan_package (h : Host) (package_name : string)
  : M (bool * list SecurityFinding) :=
  if negb (_validate_package_name package_name) then
    ret (false, [invalid_name_finding package_name])
  else
    set_findings [] ;;;
    log INFO ("Starting security scan for AUR package: " +:+ package_name) ;;;
    try_except
      (_temp_directory h ("aur-scan-" +:+ package_name +:+ "-")
         (scan_in h package_name))
      (fun e =>
         match e with
         | AURSecurityError msg =>
             log ERROR ("AUR Security Error: " +:+ msg) ;;;
             append (mkFinding CRITICAL "Security Scanner Error" msg
                       None (Some "Cannot safely analyze package") None) ;;;
             fs <- get_findings ;;
             ret (false, fs)
         | _ =>
             log ERROR ("Unexpected error scanning " +:+ package_name
                          +:+ ": " +:+ exn_str e) ;;;
             append (mkFinding CRITICAL "Unexpected Error"
                       ("Scanner encountered unexpected error: "
                          +:+ exn_str e)
                       None (Some "Review package manually or report issue")
                       None) ;;;
             fs <- get_findings ;;
             ret (false, fs)
         end).

(* ===================================================================== *)
(** * PackageTool._resolve_aur_dependencies (pkger.py) *)
(* ===================================================================== *)

(** The two lists [visit] reads from a registry record,
    [info.get("depends", [])] and [info.get("makedepends", [])]. *)
Record AurInfo : Type := mkAurInfo {
  depends : list string;
  makedepends : list string
}.

(** The parts of [self] the resolver uses.  [aur] is what
    [self._get_aur_info([pkg]).get(pkg)] answers during one run: the
    registry's record for [pkg], from the cache or the network, and nothing
    when the registry has none or the request fails.  A run asks at most
    once for a name, since [visited] guards the request. *)
Record PackageTool : Type := mkPackageTool {
  syncdbs : list (gset string);   (* the names each sync database holds *)
  localdb : gset string;          (* the names installed *)
  aur : gmap string AurInfo
}.

(** [PackageTool._is_in_repos]. *)
Definition _is_in_repos (self : PackageTool) (package_name : string) : bool :=
  existsb (fun db => bool_decide (package_name ∈ db)) (syncdbs self).

(** The class [[\w.-]] and the pattern [dep_pattern = r"[\w.-]+"]. *)
Definition dep_char (c : ascii) : bool :=
  is_word c || is_chr "." c || is_chr "-" c.

Definition dep_pattern : Re.regex := Re.Plus (Re.Cls dep_char).

(** [[match.group(0) for d in deps if (match := dep_pattern.match(d))]]. *)
Definition dep_names (info : AurInfo) : list string :=
  omap (Re.re_match false dep_pattern) (depends info ++ makedepends info).

(** The two [RuntimeError]s of [visit]. *)
Inductive resolve_error : Type :=
| CircularDependency (pkg : string)
| UnresolvedDependency (pkg : string).

Definition error_message (e : resolve_error) : string :=
  match e with
  | CircularDependency pkg => "Circular dependency detected: " +:+ pkg
  | UnresolvedDependency pkg =>
      "Could not resolve AUR dependency '" +:+ pkg +:+ "'"
  end.

Inductive outcome (A : Type) : Type :=
| Done (a : A)
| Raised (e : resolve_error)
| OutOfFuel.

Arguments Done {A} a.
Arguments Raised {A} e.
Arguments OutOfFuel {A}.

(** The two locals [order] and [visited] that [visit] closes over. *)
Record visit_state : Type := mkVisit {
  order : list string;
  visited : gset string
}.

(** [for x in xs: body(x)], stopping at the first exception. *)
Fixpoint for_each {A S} (body : A -> S -> outcome S) (xs : list A) (st : S)
  : outcome S :=
  match xs with
  | [] => Done st
  | x :: xs' =>
      match body x st with
      | Done st' => for_each body xs' st'
      | other => other
      end
  end.

(** The nested function [visit]; [fuel] bounds the depth of the recursion. *)
Fixpoint visit (self : PackageTool) (fuel : nat) (pkg : string)
    (st : visit_state) : outcome visit_state :=
  match fuel with
  | O => OutOfFuel
  | S fuel' =>
      if bool_decide (pkg ∈ localdb self) || bool_decide (pkg ∈ order st)
      then Done st
      else if bool_decide (pkg ∈ visited st)
      then Raised (CircularDependency pkg)
      else
        let st := mkVisit (order st) ({[pkg]} ∪ visited st) in
        match aur self !! pkg with
        | None => Raised (UnresolvedDependency pkg)
        | Some info =>
            match for_each
                    (fun dep st =>
                       if negb (_is_in_repos self dep)
                       then visit self fuel' dep st
                       else Done st)
                    (dep_names info) st with
            | Done st => Done (mkVisit (order st ++ [pkg]) (visited st))
            | other => other
            end
        end
  end.

(** [PackageTool._resolve_aur_dependencies]. *)
Definition _resolve_aur_dependencies (self : PackageTool) (fuel : nat)
    (aur_pkg_names : list string) : outcome (list string) :=
  match for_each (visit self fuel) aur_pkg_names (mkVisit [] ∅) with
  | Done st => Done (order st)
  | Raised e => Raised e
  | OutOfFuel => OutOfFuel
  end.

(** A recursion depth that is always enough: a nested call past the two
    guards marks a name of the registry that was not marked before. *)
Definition enough_fuel (self : PackageTool) : nat :=
  S (base.size (aur self)).

(* ===================================================================== *)
(** * Specification-side functions *)
(* ===================================================================== *)

(** What is left of [s] after its longest prefix inside the class [p]. *)
Fixpoint skip (p : ascii -> bool) (s : list ascii) : list ascii :=
  match s with
  | c :: s' => if p c then skip p s' else s
  | [] => []
  end.

(** The loop that [Re.run] unfolds for a starred item, with the matcher of
    the item as a parameter. *)
Section StarLoop.

Variable item : option ascii -> list ascii -> Re.cont -> option (list ascii).
Variable k : Re.cont.

Fixpoint star_loop (n : nat) (prev : option ascii) (s : list ascii)
  : option (list ascii) :=
  match n with
  | O => k prev s
  | S n' =>
      match item prev s
              (fun prev' s' =>
                 if length s' <? length s then star_loop n' prev' s'
                 else None) with
      | Some rest => Some rest
      | None => k prev s
      end
  end.

End StarLoop.

(** A greedy run over a class: the longest run first, then shorter ones. *)
Fixpoint greedy (p : ascii -> bool) (k : Re.cont) (prev : option ascii)
    (s : list ascii) : option (list ascii) :=
  match s with
  | c :: s' =>
      if p c then
        match greedy p k (Some c) s' with
        | Some rest => Some rest
        | None => k prev s
        end
      else k prev s
  | [] => k prev s
  end.

(** What is left of [s] after the literal [l] at its start. *)
Fixpoint strip (l s : list ascii) : option (list ascii) :=
  match l, s with
  | [], _ => Some s
  | a :: l', b :: s' => if code b =? code a then strip l' s' else None
  | _ :: _, [] => None
  end.

(** What follows the field name: white space and the equals sign. *)
Definition equals_next (s : list ascii) : option (list ascii) :=
  match skip is_space s with
  | c :: rest => if code c =? code "="%char then Some rest else None
  | [] => None
  end.

(** The field pattern at one position. *)
Definition field_at (field : string) (prev : option ascii) (s : list ascii)
  : option (list ascii) :=
  if Re.at_bol true prev then
    match strip (chars field) (skip is_space s) with
    | Some s' => equals_next s'
    | None => None
    end
  else None.

(** The character before a position that lies [a] after a position whose
    own predecessor is [prev]. *)
Definition prev_after (prev : option ascii) (a : list ascii) : option ascii :=
  match rev a with
  | c :: _ => Some c
  | [] => prev
  end.

(** A manifest text declares a field when some line holds, after optional
    white space, the field's name, optional white space and an equals
    sign.  (White space includes line feeds, as [\s] does.) *)
Definition declares_field (field content : string) : Prop :=
  exists pre ws1 ws2 post,
    chars content = pre ++ ws1 ++ chars field ++ ws2 ++ "="%char :: post
    /\ (pre = [] \/ exists pre', pre = pre' ++ [Re.newline])
    /\ Forall (fun c => is_space c = true) ws1
    /\ Forall (fun c => is_space c = true) ws2.

Definition no_integrity_finding : SecurityFinding :=
  mkFinding HIGH "No Integrity Verification"
    "Package does not verify download integrity with checksums"
    None (Some "Add SHA256 or SHA512 checksums to PKGBUILD") None.

Definition weak_hash_finding (weak_hashes : list string) : SecurityFinding :=
  mkFinding MEDIUM "Weak Hash Algorithm"
    ("Using weak hash algorithms: " +:+ join ", " weak_hashes)
    None (Some "Use SHA256 or SHA512 for better security") None.

(** The domain [_analyze_url] works with: the authority in lower case, up
    to the first colon. *)
Definition url_domain (parsed : ParseResult) : string :=
  List.hd EmptyString (split ":" (lower (netloc parsed))).

Definition insecure_protocol_finding (domain url : string)
  : SecurityFinding :=
  mkFinding MEDIUM "Insecure Protocol"
    ("Unencrypted HTTP download: " +:+ domain)
    None (Some "Use HTTPS sources when available") (Some url).

Definition unknown_domain_finding (suspicious : bool) (domain url : string)
  : SecurityFinding :=
  mkFinding (if suspicious then HIGH else LOW) "Unknown Source Domain"
    (if suspicious then "Download from suspicious domain: " +:+ domain
     else "Download from non-standard domain: " +:+ domain)
    None (Some "Verify domain reputation and authenticity") (Some url).

Definition trusted (domain : string) : bool := str_in domain TRUSTED_DOMAINS.

Definition suspicious_suffix (domain : string) : bool :=
  existsb (fun tld => endswith domain tld) suspicious_tlds.

(** The events of the three analysis steps of a scan. *)
Definition analysis_event (e : event) : bool :=
  match e with
  | EvAnalyze _ | EvMetadata _ | EvFiles _ => true
  | _ => false
  end.

(** A computation that leaves [self.findings] alone and performs no
    analysis step. *)
Definition keeps {A} (m : M A) : Prop :=
  forall w r w', m w = (r, w') ->
    findings w' = findings w
    /\ exists evs, trace w' = trace w ++ evs
                   /\ Forall (fun e => analysis_event e = false) evs.

(** A path lies inside a directory when the directory's components are a
    prefix of its own. *)
Definition inside (root p : Path) : Prop :=
  dslash p = dslash root /\ exists rest, parts p = parts root ++ rest.

(** The world in which [scan_package] calls
    [_download_and_extract_package]: the findings are reset, the scan is
    announced, and the scratch directory exists and is recorded. *)
Definition download_world (h : Host) (package_name : string) (w : World)
  : World :=
  let scratch := mkdtemp h ("aur-scan-" +:+ package_name +:+ "-") in
  mkWorld []
          (Some scratch)
          (<[path_str (resolve scratch) := Dir]> (disk w))
          (trace w ++
           [ EvLog INFO
               ("Starting security scan for AUR package: " +:+ package_name);
             EvMkdtemp scratch ]).

(* ===================================================================== *)
(** * The graph the resolver walks *)
(* ===================================================================== *)

(** [self.localdb.get_pkg(pkg)] is truthy. *)
Definition installed (self : PackageTool) (pkg : string) : Prop :=
  pkg ∈ localdb self.

(** A declared dependency, after stripping: [d] is among the names that
    [visit] computes from the record of [p]. *)
Definition declares_dep (self : PackageTool) (p d : string) : Prop :=
  exists info, aur self !! p = Some info /\ d ∈ dep_names info.

(** The edges [visit] follows: out of a package that is not installed, to
    a declared dependency that no sync database holds. *)
Definition followed (self : PackageTool) (p d : string) : Prop :=
  ~ installed self p /\ declares_dep self p d /\ _is_in_repos self d = false.

(** What a request reaches along these edges. *)
Definition reachable (self : PackageTool) (names : list string) (x : string)
  : Prop :=
  exists n, n ∈ names /\ rtc (followed self) n x.

(** No cycle among the packages a request reaches. *)
Definition acyclic_from (self : PackageTool) (names : list string) : Prop :=
  forall x, reachable self names x -> ~ tc (followed self) x x.

(** The registry has a record for every package a request reaches that is
    not installed. *)
Definition all_known (self : PackageTool) (names : list string) : Prop :=
  forall x, reachable self names x -> ~ installed self x ->
            is_Some (aur self !! x).

(** In [order], every followed dependency of a package that is not
    installed stands before the package. *)
Definition deps_first (self : PackageTool) (order : list string) : Prop :=
  forall pre p post d,
    order = pre ++ p :: post -> followed self p d ->
    installed self d \/ d ∈ pre.

(** What holds of [order] and [visited] between two calls of [visit]. *)
Record visit_inv (self : PackageTool) (st : visit_state) : Prop := {
  inv_marked : forall x, x ∈ order st -> x ∈ visited st;
  inv_nodup : NoDup (order st);
  inv_missing : forall x, x ∈ order st -> ~ installed self x;
  inv_deps : deps_first self (order st)
}.

(** How a call of [visit] that returns changes the two locals: [order]
    grows at its end, [visited] grows, and the names marked but not yet
    listed (the calls in progress) are the same. *)
Record extends (st st' : visit_state) : Prop := {
  ext_order : exists added, order st' = order st ++ added;
  ext_visited : visited st ⊆ visited st';
  ext_stack : forall x,
    (x ∈ visited st' /\ x ∉ order st') <-> (x ∈ visited st /\ x ∉ order st)
}.

(** What an error of [visit pkg] reports: a package that [pkg] reaches,
    which lies on a cycle, or which is not installed and has no record. *)
Definition error_spec (self : PackageTool) (pkg : string)
    (e : resolve_error) : Prop :=
  match e with
  | CircularDependency x =>
      rtc (followed self) pkg x /\ tc (followed self) x x
  | UnresolvedDependency x =>
      rtc (followed self) pkg x /\ ~ installed self x
      /\ aur self !! x = None
  end.

(** The names of the registry that are not marked yet. *)
Definition unmarked (self : PackageTool) (st : visit_state) : nat :=
  base.size (dom (aur self) ∖ visited st).

(* ===================================================================== *)
(** * Sample hosts and inputs *)
(* ===================================================================== *)

(** A URL parser for the sample host: the scheme before "://" and the
    authority up to the next slash. *)
Definition sample_urlparse (url : string) : option ParseResult :=
  if startswith url "http://" then
    Some (mkParseResult "http"
            (List.hd EmptyString (split "/" (String.substring 7 (String.length url - 7) url))))
  else if startswith url "https://" then
    Some (mkParseResult "https"
            (List.hd EmptyString (split "/" (String.substring 8 (String.length url - 8) url))))
  else None.

Definition sample_root : Path := mkPath false ["tmp"; "aur-scan-pkg-k3"].

(** A host that serves one archive with the members [members], whose
    extraction writes [written]. *)
Definition sample_host (members : list TarInfo)
    (written : list (string * Entry)) : Host :=
  {| mkdtemp := fun _ => sample_root;
     fetch_url := fun _ => inr "archive";
     tar_open := fun _ => inr members;
     tar_extractall := fun _ _ => (written, None);
     urlparse := sample_urlparse;
     source_urls := fun _ => [];
     required_fields_findings := fun _ => [];
     suspicious_patterns_findings := fun _ _ => [];
     functions_variables_findings := fun _ => [];
     metadata_findings := fun _ => [];
     files_findings := fun _ _ => ([], None) |}.

Definition empty_world : World := mkWorld [] None ∅ [].

(** An archive without a manifest, holding one member of 200 MiB. *)
Definition big_members : list TarInfo :=
  [ mkTarInfo "pkg" 0; mkTarInfo "pkg/big.bin" (200 * 1024 * 1024) ].

Definition big_written : list (string * Entry) :=
  [ ("/tmp/aur-scan-pkg-k3/pkg", Dir);
    ("/tmp/aur-scan-pkg-k3/pkg/big.bin", Blob) ].

(** A member that resolves into a sibling of the scratch directory whose
    name continues the scratch directory's name. *)
Definition sibling_member : TarInfo :=
  mkTarInfo "../aur-scan-pkg-k3-evil/f" 1.

(** A world whose disk holds a downloaded archive in the sample scratch
    directory. *)
Definition sample_archive : Path :=
  path_join sample_root "pkg.tar.gz".

Definition archive_world : World :=
  mkWorld [] (Some sample_root)
    (<[path_str sample_archive := File "archive"]>
       (<[path_str sample_root := Dir]> ∅))
    [].

(** A finding of a given level. *)
Definition sample_finding (level : RiskLevel) : SecurityFinding :=
  mkFinding level "Sample" "sample finding" None None None.

(** "app" needs "libfoo", which a sync database holds and which also has
    a registry record; nothing is installed. *)
Definition tool_repo_dep : PackageTool :=
  mkPackageTool [ {["libfoo"]} ] ∅
    (<["app" := mkAurInfo ["libfoo>=1.0"] []]>
       (<["libfoo" := mkAurInfo [] []]> ∅)).

(** "a" needs "b" and "b" needs "a"; a sync database holds "b"; nothing is
    installed. *)
Definition tool_repo_cycle : PackageTool :=
  mkPackageTool [ {["b"]} ] ∅
    (<["a" := mkAurInfo ["b"] []]> (<["b" := mkAurInfo [] ["a"]]> ∅)).

(** "x" needs "ghost" and "a"; "a" and "b" need each other; the registry
    has no record for "ghost". *)
Definition tool_ghost : PackageTool :=
  mkPackageTool [] ∅
    (<["x" := mkAurInfo ["ghost"; "a"] []]>
       (<["a" := mkAurInfo ["b"] []]> (<["b" := mkAurInfo ["a"] []]> ∅))).

(** "x" needs "y", "y" needs "z", and "z" is installed. *)
Definition tool_chain : PackageTool :=
  mkPackageTool [] {["z"]}
    (<["x" := mkAurInfo ["y>=2"] []]> (<["y" := mkAurInfo [] ["z"]]> ∅)).

(** "a" needs "b" and "b" needs "a"; no sync database holds either. *)
Definition tool_cycle : PackageTool :=
  mkPackageTool [] ∅
    (<["a" := mkAurInfo ["b"] []]> (<["b" := mkAurInfo ["a"] []]> ∅)).

(** "app" needs "libc++>=1.0"; the registry has a record for "libc++". *)
Definition tool_plus : PackageTool :=
  mkPackageTool [] ∅
    (<["app" := mkAurInfo ["libc++>=1.0"] []]>
       (<["libc++" := mkAurInfo [] []]> ∅)).

(** "app" needs "ghost", for which the registry has no record. *)
Definition tool_unknown : PackageTool :=
  mkPackageTool [] ∅ (<["app" := mkAurInfo ["ghost"] []]> ∅).

(** A name of 256 letters. *)
Definition long_name : string := text (repeat "a"%char 256).

(* ===================================================================== *)
(** * Further definitions: the rest of the two files *)
(* ===================================================================== *)

From Stdlib Require Import Sorted.

(** The requested names that are not installed. *)
Definition not_installed_names (self : PackageTool) (names : list string)
  : list string :=
  List.filter (fun n => negb (bool_decide (n ∈ localdb self))) names.

(* ===================================================================== *)
(** * PackageTool._get_aur_info (pkger.py) *)
(* ===================================================================== *)

(** One entry of the "results" the registry answers with: [res["Name"]]
    and the record. *)
Record AurResult : Type := mkAurResult {
  res_name : string;
  res_info : AurInfo
}.

(** What a call leaves behind: the dict it returns, [self._aur_cache], the
    names it asked the registry for (if it asked), and whether the request
    failed. *)
Record aur_reply : Type := mkReply {
  answers : gmap string (option AurInfo);
  cache_after : gmap string AurInfo;
  requested : option (list string);
  network_error : bool
}.

(** [for res in results: self._aur_cache[res["Name"]] = res]. *)
Definition store_results (results : list AurResult)
    (cache : gmap string AurInfo) : gmap string AurInfo :=
  fold_left (fun c res => <[res_name res := res_info res]> c) results cache.

(** [PackageTool._get_aur_info].  [rpc] is the request to the registry:
    the "results" of the answer, or nothing when [requests] raises. *)
Definition _get_aur_info (rpc : list string -> option (list AurResult))
    (cache : gmap string AurInfo) (package_names : list string) : aur_reply :=
  let needed :=
    List.filter (fun name => bool_decide (cache !! name = None))
                package_names in
  let '(cache', asked, failed) :=
    match needed with
    | [] => (cache, None, false)
    | _ :: _ =>
        match rpc needed with
        | Some results => (store_results results cache, Some needed, false)
        | None => (cache, Some needed, true)
        end
    end in
  mkReply
    (list_to_map (map (fun name => (name, cache' !! name)) package_names))
    cache' asked failed.

(** A request function that answers from a registry: every result is a
    record of the registry, and every requested name the registry knows is
    among the results. *)
Definition serves (rpc : list string -> option (list AurResult))
    (registry : gmap string AurInfo) : Prop :=
  forall names results,
    rpc names = Some results ->
    (forall r, r ∈ results -> registry !! res_name r = Some (res_info r))
    /\ (forall n, n ∈ names -> is_Some (registry !! n) ->
          exists r, r ∈ results /\ res_name r = n).

(** A request function over a registry, for the sample statements. *)
Definition sample_rpc (registry : gmap string AurInfo) (names : list string)
  : option (list AurResult) :=
  Some (omap (fun n => mkAurResult n <$> registry !! n) names).

(* ===================================================================== *)
(** * PackageTool.run_install and run_remove (pkger.py) *)
(* ===================================================================== *)

(** [sorted(...)] on strings, which Python orders by code point. *)
Fixpoint insert_sorted (x : string) (l : list string) : list string :=
  match l with
  | [] => [x]
  | y :: l' => if String.leb x y then x :: l else y :: insert_sorted x l'
  end.

Definition sorted (l : list string) : list string :=
  fold_right insert_sorted [] l.

(** The order of [sorted] on strings. *)
Definition str_le (a b : string) : Prop := String.leb a b = true.

(** What the two commands print, without the colours and icons. *)
Inductive message : Type :=
| AlreadyInstalled (name : string)
| AllInstalled
| ResolveError (text : string)
| PackagesNotFound (names : list string)
| Plan (repo_pkgs full_aur_order : list string)
| DryRunInstall (repo aur : nat)
| DryRunComplete
| InstallingRepo
| PacmanFailed
| Halting (pkg_name : string)
| AllCompleted
| NotInstalled (name : string)
| NothingToRemove
| RemovalPlan (names : list string)
| DryRunRemove (cmd : list string)
| ExecutingRemoval
| Removed
| RemovalFailed.

(** What the two commands do, in order. *)
Inductive action : Type :=
| Say (m : message)
| Run (cmd : list string)        (* subprocess.run(cmd) *)
| Build (pkg_name : string).     (* self._audit_and_install_aur(info, ...) *)

(** How a command ends: it returns, it calls [sys.exit(code)], or an
    exception escapes it. *)
Inductive ending : Type :=
| Returned
| Exited (code : Z)
| Crashed.

(** The machine under [pkger]: [subprocess.run(cmd).returncode == 0] for a
    pacman command, and the result of [_audit_and_install_aur]. *)
Record Machine : Type := mkMachine {
  pacman_ok : list string -> bool;
  build_ok : string -> bool
}.

(** The loop of [run_install] over [full_aur_order]. *)
Fixpoint build_all (self : PackageTool) (m : Machine) (order : list string)
  : list action * ending :=
  match order with
  | [] => ([Say AllCompleted], Returned)
  | pkg_name :: rest =>
      match aur self !! pkg_name with
      | None => ([], Crashed)   (* pkg_data["Name"] on None *)
      | Some _ =>
          if build_ok m pkg_name then
            let '(actions, e) := build_all self m rest in
            (Build pkg_name :: actions, e)
          else ([Build pkg_name; Say (Halting pkg_name)], Exited 1)
      end
  end.

(** The names [run_install] processes, and how it splits them. *)
Definition to_process (self : PackageTool) (package_names : gset string)
  : list string :=
  not_installed_names self (elements package_names).

Definition repo_pkgs (self : PackageTool) (package_names : gset string)
  : list string :=
  sorted (List.filter (_is_in_repos self) (to_process self package_names)).

Definition aur_pkgs_initial (self : PackageTool) (package_names : gset string)
  : list string :=
  sorted (List.filter
            (fun p => negb (bool_decide (p ∈ repo_pkgs self package_names)))
            (to_process self package_names)).

(** The pacman command of [run_install]. *)
Definition install_cmd (noconfirm : bool) (repo : list string)
  : list string :=
  [ "sudo"; "pacman"; "-S"; "--needed";
    if noconfirm then "--noconfirm" else "--confirm" ] ++ repo.

(** [PackageTool.run_install].  The resolver runs with the recursion depth
    [enough_fuel]; running out of it stands for Python's [RecursionError],
    a [RuntimeError] like the two of [visit]. *)
Definition run_install (self : PackageTool) (m : Machine) (dry_run : bool)
    (package_names : gset string) (noconfirm : bool)
  : list action * ending :=
  let notices :=
    map (fun name => Say (AlreadyInstalled name))
        (List.filter (fun name => bool_decide (name ∈ localdb self))
                     (sorted (elements package_names))) in
  match to_process self package_names with
  | [] => (notices ++ [Say AllInstalled], Returned)
  | _ :: _ =>
      let repo := repo_pkgs self package_names in
      let initial := aur_pkgs_initial self package_names in
      match _resolve_aur_dependencies self (enough_fuel self) initial with
      | Raised e =>
          (notices ++ [Say (ResolveError (error_message e))], Exited 1)
      | OutOfFuel =>
          (notices ++ [Say (ResolveError "maximum recursion depth exceeded")],
           Exited 1)
      | Done full_aur_order =>
          match List.filter (fun p => bool_decide (aur self !! p = None))
                            initial with
          | _ :: _ as not_found =>
              (notices ++ [Say (PackagesNotFound not_found)], Exited 1)
          | [] =>
              let planned := notices ++ [Say (Plan repo full_aur_order)] in
              if dry_run then
                (planned ++
                 [Say (DryRunInstall (length repo) (length full_aur_order));
                  Say DryRunComplete], Returned)
              else
                let '(repo_actions, repo_fine) :=
                  match repo with
                  | [] => ([], true)
                  | _ :: _ =>
                      let cmd := install_cmd noconfirm repo in
                      if pacman_ok m cmd
                      then ([Say InstallingRepo; Run cmd], true)
                      else ([Say InstallingRepo; Run cmd; Say PacmanFailed],
                            false)
                  end in
                if repo_fine then
                  match full_aur_order with
                  | [] => (planned ++ repo_actions ++ [Say AllCompleted],
                           Returned)
                  | _ :: _ =>
                      let '(builds, e) := build_all self m full_aur_order in
                      (planned ++ repo_actions ++ builds, e)
                  end
                else (planned ++ repo_actions, Exited 1)
          end
      end
  end.

(** [cmd.insert(3, "--noconfirm")] on the removal command. *)
Definition remove_cmd (noconfirm : bool) (to_remove : list string)
  : list string :=
  [ "sudo"; "pacman"; "-Rsc" ]
  ++ (if noconfirm then ["--noconfirm"] else []) ++ sorted to_remove.

(** [PackageTool.run_remove]. *)
Definition run_remove (self : PackageTool) (m : Machine) (dry_run : bool)
    (package_names : gset string) (noconfirm : bool)
  : list action * ending :=
  let to_remove :=
    List.filter (fun name => bool_decide (name ∈ localdb self))
                (elements package_names) in
  let not_installed :=
    List.filter (fun name => negb (bool_decide (name ∈ to_remove)))
                (elements package_names) in
  let notices := map (fun name => Say (NotInstalled name))
                     (sorted not_installed) in
  match to_remove with
  | [] => (notices ++ [Say NothingToRemove], Returned)
  | _ :: _ =>
      let cmd := remove_cmd noconfirm to_remove in
      let planned := notices ++ [Say (RemovalPlan (sorted to_remove))] in
      if dry_run then
        (planned ++ [Say (DryRunRemove cmd); Say DryRunComplete], Returned)
      else
        (planned ++ [Say ExecutingRemoval; Run cmd;
                     Say (if pacman_ok m cmd then Removed else RemovalFailed)],
         Returned)
  end.

(** The packages a run builds, and the commands it runs, in order. *)
Definition built (actions : list action) : list string :=
  omap (fun a => match a with Build p => Some p | _ => None end) actions.

Definition commands (actions : list action) : list (list string) :=
  omap (fun a => match a with Run cmd => Some cmd | _ => None end) actions.

(** A machine on which everything succeeds. *)
Definition fine_machine : Machine :=
  mkMachine (fun _ => true) (fun _ => true).

(** The message of the not-found exit of [run_install]. *)
Definition says_not_found (a : action) : bool :=
  match a with
  | Say (PackagesNotFound _) => true
  | _ => false
  end.

(* ===================================================================== *)
(** * scan_package as a whole *)
(* ===================================================================== *)

(** The scratch directory of a scan. *)
Definition scratch_of (h : Host) (package_name : string) : Path :=
  mkdtemp h ("aur-scan-" +:+ package_name +:+ "-").

(** The snapshot URL of [_download_and_extract_package]. *)
Definition snapshot_url (package_name : string) : string :=
  "https://aur.archlinux.org/cgit/aur.git/snapshot/"
    +:+ package_name +:+ ".tar.gz".

(** The finding of the handler [except AURSecurityError]. *)
Definition scanner_error_finding (msg : string) : SecurityFinding :=
  mkFinding CRITICAL "Security Scanner Error" msg
    None (Some "Cannot safely analyze package") None.

(** The finding of the handler [except Exception]. *)
Definition unexpected_error_finding (msg : string) : SecurityFinding :=
  mkFinding CRITICAL "Unexpected Error"
    ("Scanner encountered unexpected error: " +:+ msg)
    None (Some "Review package manually or report issue") None.

Definition is_log (e : event) : bool :=
  match e with
  | EvLog _ _ => true
  | _ => false
  end.

(** Between two worlds, no entry of the disk is lost and the trace is
    extended. *)
Definition grows (w w' : World) : Prop :=
  (forall k, is_Some (disk w !! k) -> is_Some (disk w' !! k))
  /\ exists evs, trace w' = trace w ++ evs.

(** The disk is the same and the trace gains log lines only. *)
Definition only_logs (w w' : World) : Prop :=
  disk w' = disk w
  /\ exists logs, trace w' = trace w ++ logs
                  /\ Forall (fun e => is_log e = true) logs.

(** Every run of [m] relates the world before to the world after by [R]. *)
Definition respects {A} (R : World -> World -> Prop) (m : M A) : Prop :=
  forall w r w', m w = (r, w') -> R w w'.

(** The world in which [scan_package] enters the body of the [with] block:
    the findings are reset, the scan is announced and the scratch directory
    exists. *)
Definition scan_world (h : Host) (package_name : string) (w : World)
  : World :=
  mkWorld []
          (temp_dir w)
          (<[path_str (resolve (scratch_of h package_name)) := Dir]> (disk w))
          (trace w ++
           [ EvLog INFO
               ("Starting security scan for AUR package: " +:+ package_name);
             EvMkdtemp (scratch_of h package_name) ]).

(** The world [scan_package] leaves, from the world [wb] at the end of the
    body: the scratch directory is removed, and a handler may add a finding
    and a log line. *)
Definition after_scan (h : Host) (package_name : string) (wb : World)
    (fs : list SecurityFinding) (logs : list event) : World :=
  mkWorld (findings wb ++ fs)
          (temp_dir wb)
          (filter (fun kv => under (scratch_of h package_name) (fst kv) = false)
                  (disk wb))
          (trace wb ++ EvRmtree (scratch_of h package_name) :: logs).

(** The finding and the log line of the two handlers of [scan_package]. *)
Definition handled (package_name : string) (e : exn)
  : SecurityFinding * event :=
  match e with
  | AURSecurityError msg =>
      (scanner_error_finding msg,
       EvLog ERROR ("AUR Security Error: " +:+ msg))
  | _ =>
      (unexpected_error_finding (exn_str e),
       EvLog ERROR ("Unexpected error scanning " +:+ package_name
                      +:+ ": " +:+ exn_str e))
  end.

(** The event of [tar.extractall]. *)
Definition is_extract (e : event) : bool :=
  match e with
  | EvExtractAll _ => true
  | _ => false
  end.

(** The path of the manifest of a scan. *)
Definition pkgbuild_of (h : Host) (package_name : string) : Path :=
  path_join (path_join (scratch_of h package_name) package_name) "PKGBUILD".

(** The path of the downloaded archive of a scan. *)
Definition archive_of (h : Host) (package_name : string) : Path :=
  path_join (scratch_of h package_name) (package_name +:+ ".tar.gz").

(** An archive with a manifest, and what its extraction writes. *)
Definition good_members : list TarInfo :=
  [ mkTarInfo "pkg" 0; mkTarInfo "pkg/PKGBUILD" 11 ].

Definition good_written : list (string * Entry) :=
  [ ("/tmp/aur-scan-pkg-k3/pkg", Dir);
    ("/tmp/aur-scan-pkg-k3/pkg/PKGBUILD", File "pkgname=pkg") ].

(** An archive with a member that leaves the scratch directory. *)
Definition escaping_members : list TarInfo :=
  [ mkTarInfo "pkg" 0; mkTarInfo "../../etc/passwd" 1 ].

(** A host without network. *)
Definition offline_host : Host :=
  {| mkdtemp := fun _ => sample_root;
     fetch_url := fun _ => inl "Network error: timed out";
     tar_open := fun _ => inr [];
     tar_extractall := fun _ _ => ([], None);
     urlparse := sample_urlparse;
     source_urls := fun _ => [];
     required_fields_findings := fun _ => [];
     suspicious_patterns_findings := fun _ _ => [];
     functions_variables_findings := fun _ => [];
     metadata_findings := fun _ => [];
     files_findings := fun _ _ => ([], None) |}.

(** The findings of a scan of the sample archive with a manifest. *)
Definition good_findings : list SecurityFinding :=
  [ mkFinding HIGH "No Integrity Verification"
      "Package does not verify download integrity with checksums"
      None (Some "Add SHA256 or SHA512 checksums to PKGBUILD") None ].

(* ===================================================================== *)
(** * PKGBUILDAnalyzer._check_required_fields *)
(* ===================================================================== *)

(** [REQUIRED_FIELDS] and [RECOMMENDED_FIELDS], in the order of the
    dictionaries. *)
Definition REQUIRED_FIELDS : list (string * string) :=
  [ ("pkgname", "Package name identifier");
    ("pkgver", "Package version");
    ("pkgrel", "Package release number");
    ("arch", "Target architectures");
    ("license", "Software license") ].

Definition RECOMMENDED_FIELDS : list (string * string) :=
  [ ("pkgdesc", "Package description");
    ("url", "Upstream URL");
    ("depends", "Runtime dependencies");
    ("makedepends", "Build dependencies") ].

Definition missing_required_finding (field description : string)
  : SecurityFinding :=
  mkFinding HIGH "Missing Required Field"
    ("Required field '" +:+ field +:+ "' (" +:+ description
       +:+ ") is missing")
    None (Some "Add missing required fields to PKGBUILD") None.

Definition missing_recommended_finding (missing_recommended : list string)
  : SecurityFinding :=
  mkFinding LOW "Missing Recommended Fields"
    ("Recommended fields missing: "
       +:+ join ", " (firstn 3 missing_recommended))
    None
    (Some "Consider adding recommended fields for better package documentation")
    None.

(** [PKGBUILDAnalyzer._check_required_fields]: the findings list after the
    call.  The search is the one of [has_field], the pattern
    [rf'^\s*{field}\s*='] with [re.MULTILINE]. *)
Definition _check_required_fields (content : string)
    (findings : list SecurityFinding) : list SecurityFinding :=
  let findings :=
    fold_left
      (fun fs fd =>
         let '(field, description) := fd in
         if negb (has_field field content)
         then fs ++ [missing_required_finding field description]
         else fs)
      REQUIRED_FIELDS findings in
  let missing_recommended :=
    fold_left
      (fun acc fd =>
         let '(field, description) := fd in
         if negb (has_field field content)
         then acc ++ [field +:+ " (" +:+ description +:+ ")"]
         else acc)
      RECOMMENDED_FIELDS [] in
  match missing_recommended with
  | [] => findings
  | _ :: _ => findings ++ [missing_recommended_finding missing_recommended]
  end.

(** The fields of a table that a manifest does not declare. *)
Definition missing_fields (content : string) (table : list (string * string))
  : list (string * string) :=
  List.filter (fun fd => negb (has_field (fst fd) content)) table.

(** A manifest with two of the five required fields. *)
Definition sparse_manifest : string :=
  text (chars "pkgname=demo" ++ [Re.newline] ++ chars "  pkgver = 1.0").

(* ===================================================================== *)
(** * Reports: _get_risk_summary and print_report *)
(* ===================================================================== *)

(** [RiskLevel.value], and the members of the enumeration in the order of
    their definition. *)
Definition risk_value (level : RiskLevel) : string :=
  match level with
  | LOW => "LOW"
  | MEDIUM => "MEDIUM"
  | HIGH => "HIGH"
  | CRITICAL => "CRITICAL"
  end.

Definition all_levels : list RiskLevel := [LOW; MEDIUM; HIGH; CRITICAL].

(** [summary[key] += 1]; [None] stands for the [KeyError] of a key the
    dictionary does not have. *)
Definition increment (summary : gmap string nat) (key : string)
  : option (gmap string nat) :=
  match summary !! key with
  | Some n => Some (<[key := n + 1]> summary)
  | None => None
  end.

(** [ReportGenerator._get_risk_summary]. *)
Definition _get_risk_summary (findings : list SecurityFinding)
  : option (gmap string nat) :=
  fold_left
    (fun summary finding =>
       match summary with
       | Some s => increment s (risk_value (risk_level finding))
       | None => None
       end)
    findings
    (Some (list_to_map (map (fun level => (risk_value level, 0)) all_levels))).

(** What [print_report] prints, line by line: each constructor keeps the
    values a [print] call interpolates, not the decoration around them. *)
Inductive report_line : Type :=
| Rule                                     (* '=' * 70 *)
| Title (package_name : string)
| AppearsSafe
| HasConcerns
| SummaryLine (n : nat)                    (* "Summary: n findings" *)
| NoIssues
| LevelCount (level : RiskLevel) (count : nat) (plural : bool)
| DetailsHeader
| Dashes                                   (* '-' * 70 *)
| LevelHeader (level : RiskLevel)
| Item (i : nat) (category : string)
| Description (d : string)
| Location (l : string)
| Found (content : string)
| Recommendation (r : string)
| Advisory                                 (* the seven lines of advice *)
| Passed                                   (* the four lines after a pass *)
| Blank.

(** The dictionary [by_risk], from a level to the findings of this level;
    [None] for a key the dictionary does not have. *)
Definition risk_dict : Type := RiskLevel -> option (list SecurityFinding).

Definition dict_set (d : risk_dict) (key : RiskLevel)
    (v : list SecurityFinding) : risk_dict :=
  fun level => if RiskLevel_eqb level key then Some v else d level.

(** One round of the grouping loop of [print_report]. *)
Definition group_step (by_risk : risk_dict) (finding : SecurityFinding)
  : risk_dict :=
  let key := risk_level finding in
  let by_risk :=
    match by_risk key with
    | None => dict_set by_risk key []
    | Some _ => by_risk
    end in
  match by_risk key with
  | Some l => dict_set by_risk key (l ++ [finding])
  | None => by_risk
  end.

Definition group_by_risk (findings : list SecurityFinding) : risk_dict :=
  fold_left group_step findings (fun _ => None).

(** The truth value of an [Optional[str]]: [None] and the empty string are
    false. *)
Definition nonempty (s : option string) : option string :=
  match s with
  | Some EmptyString => None
  | other => other
  end.

(** The matched content as it is shown: cut to 97 characters and three dots
    when it has more than 100. *)
Definition shown_content (content : string) : string :=
  if 100 <? String.length content
  then String.substring 0 97 content +:+ "..."
  else content.

(** The lines of one finding in the detailed part. *)
Definition finding_lines (i : nat) (finding : SecurityFinding)
  : list report_line :=
  [ Item i (category finding); Description (description finding) ]
  ++ match nonempty (location finding) with
     | Some l => [Location l]
     | None => []
     end
  ++ match nonempty (matched_content finding) with
     | Some content => [Found (shown_content content)]
     | None => []
     end
  ++ match nonempty (recommendation finding) with
     | Some r => [Recommendation r]
     | None => []
     end.

(** [enumerate(l, 1)] mapped through [finding_lines]. *)
Fixpoint numbered_lines (i : nat) (l : list SecurityFinding)
  : list report_line :=
  match l with
  | [] => []
  | finding :: rest => finding_lines i finding ++ numbered_lines (S i) rest
  end.

(** The order in which [print_report] walks the levels. *)
Definition report_levels : list RiskLevel := [CRITICAL; HIGH; MEDIUM; LOW].

(** [AURSecurityScanner.print_report]. *)
Definition print_report (package_name : string) (is_safe : bool)
    (findings : list SecurityFinding) : list report_line :=
  [ Rule; Title package_name; Rule;
    if is_safe then AppearsSafe else HasConcerns;
    SummaryLine (length findings) ]
  ++ match findings with
     | [] => [NoIssues]
     | _ :: _ =>
         let by_risk := group_by_risk findings in
         flat_map
           (fun level =>
              match by_risk level with
              | Some l =>
                  [LevelCount level (length l) (negb (length l =? 1))]
              | None => []
              end)
           report_levels
         ++ [DetailsHeader; Dashes]
         ++ flat_map
              (fun level =>
                 match by_risk level with
                 | Some l => LevelHeader level :: numbered_lines 1 l
                 | None => []
                 end)
              report_levels
         ++ [Rule]
         ++ (if negb is_safe then [Advisory] else [Passed])
         ++ [Blank]
     end.

(** The numbered entries of a report, and the texts it shows as found. *)
Definition entries (lines : list report_line) : list (nat * string) :=
  omap (fun line => match line with
                    | Item i c => Some (i, c)
                    | _ => None
                    end) lines.

Definition found_texts (lines : list report_line) : list string :=
  omap (fun line => match line with
                    | Found s => Some s
                    | _ => None
                    end) lines.

(** [enumerate(l, 1)] on the categories of a list of findings. *)
Definition numbered (l : list SecurityFinding) : list (nat * string) :=
  combine (seq 1 (length l)) (map category l).

(** A finding whose matched content has 120 characters. *)
Definition long_match_finding : SecurityFinding :=
  mkFinding HIGH "Suspicious Pattern" "Dynamic shell command execution detected"
    (Some "PKGBUILD") None (Some (text (repeat "x"%char 120))).

(* ===================================================================== *)
(** * main (aur_security_scanner.py) *)
(* ===================================================================== *)

Module Cli.

(** The parsed command line. *)
Record Args : Type := mkArgs {
  packages : list string;
  json : bool;
  summary : bool;
  output : option string;
  timeout : Z;
  verbose : bool;
  quiet : bool;
  fail_fast : bool
}.

(** The dictionary [all_results], in insertion order: a package name maps
    to its verdict and findings. *)
Definition results : Type := list (string * (bool * list SecurityFinding)).

Fixpoint results_set (d : results) (key : string)
    (v : bool * list SecurityFinding) : results :=
  match d with
  | [] => [(key, v)]
  | (k, old) :: rest =>
      if String.eqb k key then (k, v) :: rest
      else (k, old) :: results_set rest key v
  end.

Fixpoint results_get (d : results) (key : string)
  : option (bool * list SecurityFinding) :=
  match d with
  | [] => None
  | (k, v) :: rest => if String.eqb k key then Some v else results_get rest key
  end.

(** The text [main] hands to a file or to the standard output. *)
Inductive output_content : Type :=
| JsonReport (all_results : results)
| SummaryReport (all_results : results)
| Reports (output_parts : list (list report_line)).

(** What [main] does besides scanning, in order. *)
Inductive main_event : Type :=
| SetLevel (level : log_level)
| StderrTimeout                      (* "Error: Timeout must be between ..." *)
| StderrTooMany                      (* "Error: Too many packages ..." *)
| StderrScanning (i n : nat) (package_name : string)
| StderrFailFast (package_name : string)
| StderrReportWritten (path : string)
| StderrWriteError
| WriteFile (path : string) (content : output_content)
| Stdout (content : output_content)
| StdoutScanSummary (safe_count total_count : nat)
| StdoutConcerns (unsafe_packages : list string).

(** The state of the scanning loop. *)
Record LoopState : Type := mkLoop {
  all_results : results;
  overall_safe : bool;
  out : list main_event;
  world : World
}.

Definition scanner_error (e : exn) : SecurityFinding :=
  mkFinding CRITICAL "Scanner Error"
    ("Failed to complete scan: " +:+ exn_str e) None None None.

(** The loop [for i, package_name in enumerate(args.packages, 1)]. *)
Fixpoint scan_loop (h : Host) (args : Args) (i : nat) (pkgs : list string)
    (st : LoopState) : LoopState :=
  match pkgs with
  | [] => st
  | package_name :: rest =>
      let out1 :=
        if quiet args then out st
        else out st ++ [StderrScanning i (length (packages args))
                          package_name] in
      match scan_package h package_name (world st) with
      | (inr (is_safe, findings), w') =>
          let results' :=
            results_set (all_results st) package_name (is_safe, findings) in
          let safe' := overall_safe st && is_safe in
          if fail_fast args && negb is_safe then
            (* break *)
            mkLoop results' safe'
              (if quiet args then out1
               else out1 ++ [StderrFailFast package_name])
              w'
          else scan_loop h args (S i) rest (mkLoop results' safe' out1 w')
      | (inl e, w') =>
          (* except Exception *)
          let w'' :=
            snd (log ERROR ("Failed to scan " +:+ package_name +:+ ": "
                              +:+ exn_str e) w') in
          scan_loop h args (S i) rest
            (mkLoop (results_set (all_results st) package_name
                       (false, [scanner_error e]))
                    false out1 w'')
      end
  end.

(** [ReportGenerator.generate_json_report]: [finding.to_dict()] is
    [asdict(finding)], which keeps the [RiskLevel] member as it is, and
    [json.dumps] has no encoding for it, so the call raises a [TypeError] as
    soon as one package has a finding. *)
Definition generate_json_report (all_results : results)
  : exn + output_content :=
  if existsb (fun entry => negb (0 =? length (snd (snd entry)))) all_results
  then inl (Exception "Object of type RiskLevel is not JSON serializable")
  else inr (JsonReport all_results).

(** The choice of [output_content]. *)
Definition content_of (args : Args) (all_results : results)
  : exn + output_content :=
  if json args then generate_json_report all_results
  else if summary args && (1 <? length (packages args))
  then inr (SummaryReport all_results)
  else
    inr (Reports
           (flat_map
              (fun entry =>
                 let '(package_name, (safe, findings)) := entry in
                 if negb (json args) && negb (summary args)
                 then [print_report package_name safe findings]
                 else [])
              all_results)).

(** How [main] ends: with [sys.exit(code)], or with an exception that
    leaves it. *)
Inductive ending : Type :=
| Exit (code : Z)
| Raises (e : exn).

(** [main] from the parsed arguments on: what it does, the world the
    scanner leaves, and how it ends.  [can_write path] tells whether the
    report file can be opened and written; when not, an [IOError] is
    raised. *)
Definition main (h : Host) (can_write : string -> bool) (args : Args)
    (w : World) : list main_event * World * ending :=
  let out0 :=
    if quiet args then [SetLevel ERROR]
    else if verbose args then [SetLevel DEBUG]
    else [] in
  if ((timeout args <? 1) || (300 <? timeout args))%Z then
    (out0 ++ [StderrTimeout], w, Exit 1)
  else if 50 <? length (packages args) then
    (out0 ++ [StderrTooMany], w, Exit 1)
  else
    let st :=
      scan_loop h args 1 (packages args)
        (mkLoop [] true out0 (mkWorld [] None (disk w) (trace w))) in
    match content_of args (all_results st) with
    | inl e => (out st, world st, Raises e)
    | inr content =>
        let written :=
          match nonempty (output args) with
          | Some path =>
              if can_write path then
                inr (WriteFile path content
                     :: (if quiet args then []
                         else [StderrReportWritten path]))
              else inl [StderrWriteError]
          | None =>
              inr (if json args || summary args then [Stdout content]
                   else [])
          end in
        match written with
        | inl events => (out st ++ events, world st, Exit 1)
        | inr events =>
            let final :=
              if (1 <? length (packages args)) && negb (json args)
                 && negb (summary args) && negb (quiet args)
              then
                StdoutScanSummary
                  (length (List.filter (fun entry => fst (snd entry))
                                       (all_results st)))
                  (length (all_results st))
                :: (if negb (overall_safe st)
                    then [StdoutConcerns
                            (map fst
                               (List.filter
                                  (fun entry => negb (fst (snd entry)))
                                  (all_results st)))]
                    else [])
              else [] in
            (out st ++ events ++ final, world st,
             Exit (if overall_safe st then 0 else 1))
        end
    end.

(** The events that put a report on the standard output or in a file. *)
Definition shows_report (e : main_event) : bool :=
  match e with
  | Stdout _ | WriteFile _ _ => true
  | _ => false
  end.

End Cli.

(** Arguments for two packages, the second of which has an invalid name,
    with [--fail-fast]. *)
Definition sample_args : Cli.Args :=
  Cli.mkArgs ["pkg"; "bad name"; "pkg"] false false None 30 false false true.

(** Arguments for one scan in the default mode, and for the same scan with
    [--json]. *)
Definition good_args : Cli.Args :=
  Cli.mkArgs ["pkg"] false false None 30 false false false.

Definition json_args : Cli.Args :=
  Cli.mkArgs ["pkg"] true false None 30 false false false.

(** The state in which [main] enters its loop. *)
Definition start_state (w : World) : Cli.LoopState :=
  Cli.mkLoop [] true [] (mkWorld [] None (disk w) (trace w)).

(** The findings that count for the verdict: all but the LOW ones. *)
Definition weighty (findings : list SecurityFinding) : list SecurityFinding :=
  List.filter (fun f => negb (RiskLevel_eqb (risk_level f) LOW)) findings.

(* ===================================================================== *)
(** * Facts about characters, strings and the matcher *)
(* ===================================================================== *)

Lemma text_chars (s : string) : text (chars s) = s.
Proof. apply string_of_list_ascii_of_string. Qed.

Lemma chars_text (l : list ascii) : chars (text l) = l.
Proof. apply list_ascii_of_string_of_list_ascii. Qed.

Lemma length_chars (s : string) : length (chars s) = String.length s.
Proof. induction s as [|c s IH]; simpl; [reflexivity | now rewrite IH]. Qed.

Lemma chars_append (a b : string) : chars (a +:+ b) = chars a ++ chars b.
Proof. induction a as [|c a IH]; simpl; [reflexivity | now rewrite IH]. Qed.

Lemma code_inj (a b : ascii) : code a = code b -> a = b.
Proof.
  unfold code. intros H.
  rewrite <- (ascii_nat_embedding a), <- (ascii_nat_embedding b).
  now rewrite H.
Qed.

Lemma is_chr_true (x c : ascii) : is_chr x c = true <-> c = x.
Proof.
  unfold is_chr. rewrite Nat.eqb_eq. split.
  - apply code_inj.
  - now intros ->.
Qed.

Lemma skip_suffix (p : ascii -> bool) (pre post : list ascii) (c : ascii) :
  p c = false -> exists m, skip p (pre ++ c :: post) = m ++ c :: post.
Proof.
  intros Hc. induction pre as [|a pre IH]; simpl.
  - rewrite Hc. now exists [].
  - destruct (p a).
    + exact IH.
    + now exists (a :: pre).
Qed.

Lemma skip_all (p : ascii -> bool) (s : list ascii) :
  Forall (fun c => p c = true) s -> skip p s = [].
Proof.
  induction 1 as [|c s Hc _ IH]; simpl; [reflexivity|].
  now rewrite Hc.
Qed.

Lemma skip_stop (p : ascii -> bool) (pre rest : list ascii) :
  Forall (fun c => p c = true) pre ->
  match rest with [] => True | c :: _ => p c = false end ->
  skip p (pre ++ rest) = rest.
Proof.
  intros Hpre Hrest. induction Hpre as [|c s Hc _ IH]; simpl.
  - destruct rest as [|c rest]; simpl; [reflexivity | now rewrite Hrest].
  - now rewrite Hc.
Qed.

(** The part that [skip] removes lies inside the class. *)
Lemma skip_split (p : ascii -> bool) (s : list ascii) :
  exists pre, s = pre ++ skip p s /\ Forall (fun c => p c = true) pre.
Proof.
  induction s as [|c s (pre & Heq & Hall)]; simpl.
  - now exists [].
  - destruct (p c) eqn:Hc.
    + exists (c :: pre). split; [simpl; congruence | now constructor].
    + now exists [].
Qed.

Lemma run_star (ml : bool) (r : Re.regex) (prev : option ascii)
    (s : list ascii) (k : Re.cont) :
  Re.run ml (Re.Star r) prev s k
  = star_loop (Re.run ml r) k (length s) prev s.
Proof. reflexivity. Qed.

Lemma star_loop_cls (p : ascii -> bool) (ml : bool) (k : Re.cont) :
  forall n prev s, length s <= n ->
    star_loop (Re.run ml (Re.Cls p)) k n prev s = greedy p k prev s.
Proof.
  induction n as [|n IH]; intros prev s Hn.
  - destruct s; [reflexivity | simpl in Hn; lia].
  - destruct s as [|c s]; [reflexivity|].
    cbn [star_loop Re.run greedy].
    destruct (p c); [|reflexivity].
    replace (length s <? length (c :: s)) with true
      by (symmetry; apply Nat.ltb_lt; simpl; lia).
    rewrite IH by (simpl in Hn; lia). reflexivity.
Qed.

(** A starred class is a greedy run. *)
Lemma run_star_cls (ml : bool) (p : ascii -> bool) (prev : option ascii)
    (s : list ascii) (k : Re.cont) :
  Re.run ml (Re.Star (Re.Cls p)) prev s k = greedy p k prev s.
Proof. rewrite run_star. now apply star_loop_cls. Qed.

(** When the continuation accepts whatever is left, the greedy run stops
    after the longest prefix inside the class. *)
Lemma greedy_accept (p : ascii -> bool) (prev : option ascii)
    (s : list ascii) :
  greedy p Re.accept prev s = Some (skip p s).
Proof.
  revert prev. induction s as [|c s IH]; intros prev; simpl; [reflexivity|].
  destruct (p c); [|reflexivity]. now rewrite IH.
Qed.

(** When the continuation looks at the rest only and refuses every rest
    that begins inside the class, no shorter run can succeed. *)
Lemma greedy_committed (p : ascii -> bool) (f : list ascii -> option (list ascii))
    (prev : option ascii) (s : list ascii) :
  (forall c s', p c = true -> f (c :: s') = None) ->
  greedy p (fun _ rest => f rest) prev s = f (skip p s).
Proof.
  intros Hf. revert prev. induction s as [|c s IH]; intros prev; simpl;
    [reflexivity|].
  destruct (p c) eqn:Hc; [|reflexivity].
  rewrite IH. destruct (f (skip p s)); [reflexivity|]. now apply Hf.
Qed.

(* ===================================================================== *)
(** * The verdict *)
(* ===================================================================== *)

Lemma RiskLevel_eqb_eq (a b : RiskLevel) : RiskLevel_eqb a b = true <-> a = b.
Proof. destruct a, b; simpl; split; congruence. Qed.

Lemma count_level_filter (level : RiskLevel) (fs : list SecurityFinding) :
  count_level level fs = length (findings_of level fs).
Proof.
  induction fs as [|f fs IH]; simpl; [reflexivity|].
  destruct (RiskLevel_eqb (risk_level f) level); simpl; lia.
Qed.

Lemma count_level_app (level : RiskLevel) (a b : list SecurityFinding) :
  count_level level (a ++ b) = count_level level a + count_level level b.
Proof. induction a as [|f a IH]; simpl; [reflexivity | lia]. Qed.

Lemma has_level_count (level : RiskLevel) (fs : list SecurityFinding) :
  has_level level fs <-> 0 < count_level level fs.
Proof.
  unfold has_level. induction fs as [|f fs IH]; simpl.
  - split; [intros H; inversion H | lia].
  - rewrite Exists_cons, IH.
    destruct (RiskLevel_eqb (risk_level f) level) eqn:E.
    + apply RiskLevel_eqb_eq in E. split; [lia | now left].
    + split; [|simpl; tauto].
      intros [H|H]; [|exact H].
      apply RiskLevel_eqb_eq in H. congruence.
Qed.

(** The code's three counters decide the rule of the specification. *)
Lemma assess_rule (fs : list SecurityFinding) (b : bool) :
  verdict_rule fs b <-> _assess_overall_security fs = b.
Proof.
  unfold _assess_overall_security.
  rewrite !count_level_filter.
  pose proof (has_level_count CRITICAL fs) as Hc.
  rewrite count_level_filter in Hc.
  destruct (0 <? length (findings_of CRITICAL fs)) eqn:E0.
  { apply Nat.ltb_lt in E0. split.
    - inversion 1; subst; tauto.
    - intros <-. apply unsafe_critical. tauto. }
  apply Nat.ltb_ge in E0.
  assert (Hn : ~ has_level CRITICAL fs) by (rewrite Hc; lia).
  destruct (2 <? length (findings_of HIGH fs)) eqn:E1.
  { apply Nat.ltb_lt in E1. split.
    - inversion 1; subst; try tauto; lia.
    - intros <-. now apply unsafe_high. }
  apply Nat.ltb_ge in E1.
  destruct (5 <? length (findings_of MEDIUM fs)) eqn:E2.
  { apply Nat.ltb_lt in E2. split.
    - inversion 1; subst; try tauto; lia.
    - intros <-. now apply unsafe_medium. }
  apply Nat.ltb_ge in E2. split.
  - inversion 1; subst; try tauto; lia.
  - intros <-. now apply safe_otherwise.
Qed.

Lemma assess_low_irrelevant (f : SecurityFinding)
    (pre post : list SecurityFinding) :
  risk_level f = LOW ->
  _assess_overall_security (pre ++ f :: post)
  = _assess_overall_security (pre ++ post).
Proof.
  intros Hf. unfold _assess_overall_security.
  rewrite !count_level_app. simpl. rewrite Hf. reflexivity.
Qed.

(** C1.  The verdict follows the fixed threshold rule: unsafe when there
    is a CRITICAL finding, otherwise unsafe when there are more than 2 HIGH
    findings, otherwise unsafe when there are more than 5 MEDIUM findings,
    otherwise safe.  With no CRITICAL finding, 3 HIGH findings give
    [false]; 2 HIGH findings give [true] (the MEDIUM findings staying
    within their own threshold); a LOW finding, wherever it sits in the
    list, changes nothing. *)
Theorem C1_verdict_threshold_rule (fs : list SecurityFinding) :
  (forall b, verdict_rule fs b <-> _assess_overall_security fs = b)
  /\ (~ has_level CRITICAL fs -> length (findings_of HIGH fs) = 3 ->
      _assess_overall_security fs = false)
  /\ (~ has_level CRITICAL fs -> length (findings_of HIGH fs) = 2 ->
      length (findings_of MEDIUM fs) <= 5 ->
      _assess_overall_security fs = true)
  /\ (forall f pre post, fs = pre ++ f :: post -> risk_level f = LOW ->
      _assess_overall_security fs = _assess_overall_security (pre ++ post)).
Proof.
  split; [intros b; apply assess_rule|].
  split; [|split].
  - intros Hc Hh. apply assess_rule. apply unsafe_high; [exact Hc | lia].
  - intros Hc Hh Hm. apply assess_rule. apply safe_otherwise; [exact Hc | lia | lia].
  - intros f pre post -> Hf. now apply assess_low_irrelevant.
Qed.

(* ===================================================================== *)
(** * Package names *)
(* ===================================================================== *)

Lemma name_char_not_newline (c : ascii) :
  name_char c = true -> is_chr Re.newline c = false.
Proof.
  intros Hc. destruct (is_chr Re.newline c) eqn:E; [|reflexivity].
  apply is_chr_true in E. subst c. vm_compute in Hc. discriminate.
Qed.

Lemma run_package_name_re (cs : list ascii) :
  Re.run false package_name_re None cs Re.accept
  = match cs with
    | c :: cs' =>
        if name_char c then
          if Re.at_eol false (skip name_char cs')
          then Some (skip name_char cs') else None
        else None
    | [] => None
    end.
Proof.
  destruct cs as [|c cs]; [reflexivity|].
  change (Re.run false package_name_re None (c :: cs) Re.accept)
    with (if name_char c
          then Re.run false (Re.Star (Re.Cls name_char)) (Some c) cs
                 (fun _ rest =>
                    (fun rest =>
                       if Re.at_eol false rest then Some rest else None) rest)
          else None).
  destruct (name_char c); [|reflexivity].
  rewrite run_star_cls, greedy_committed; [reflexivity|].
  intros a s' Ha. cbn [Re.at_eol].
  now rewrite (name_char_not_newline a Ha).
Qed.

Lemma validate_unfold (package_name : string) :
  _validate_package_name package_name
  = match chars package_name with
    | c :: cs' =>
        name_char c && Re.at_eol false (skip name_char cs')
        && (String.length package_name <=? 255)
    | [] => false
    end.
Proof.
  unfold _validate_package_name, Re.re_match.
  rewrite run_package_name_re.
  destruct (chars package_name) as [|c cs']; [reflexivity|].
  destruct (name_char c); [|reflexivity].
  destruct (Re.at_eol false (skip name_char cs')); [|reflexivity].
  cbn [andb]. rewrite Nat.ltb_antisym. now destruct (_ <=? _).
Qed.

(** A character outside the class, other than a line feed that ends the
    name, makes the validation fail. *)
Lemma validate_rejects (package_name : string) (pre post : list ascii)
    (c : ascii) :
  chars package_name = pre ++ c :: post ->
  name_char c = false ->
  post <> [] \/ c <> Re.newline ->
  _validate_package_name package_name = false.
Proof.
  intros Hcs Hc Hlast. rewrite validate_unfold, Hcs.
  destruct pre as [|a pre]; cbn [app].
  - now rewrite Hc.
  - destruct (name_char a); [|reflexivity]. cbn [andb].
    destruct (skip_suffix name_char pre post c Hc) as [m Hm]. rewrite Hm.
    replace (Re.at_eol false (m ++ c :: post)) with false; [reflexivity|].
    symmetry. destruct m as [|x m]; cbn [app Re.at_eol].
    + destruct (is_chr Re.newline c) eqn:E; [|reflexivity].
      apply is_chr_true in E. destruct post; [|reflexivity].
      destruct Hlast; congruence.
    + destruct (is_chr Re.newline x); [|reflexivity].
      cbn [andb orb]. now destruct m.
Qed.

(** A non-empty name inside the class passes exactly when it is not longer
    than 255 characters. *)
Lemma validate_accepts (package_name : string) :
  package_name <> EmptyString ->
  Forall (fun c => name_char c = true) (chars package_name) ->
  (_validate_package_name package_name = true
   <-> String.length package_name <= 255).
Proof.
  intros Hne Hall. rewrite validate_unfold.
  destruct (chars package_name) as [|c cs'] eqn:Hcs.
  - exfalso. apply Hne. rewrite <- (text_chars package_name), Hcs.
    reflexivity.
  - inversion Hall as [|? ? Hc Hrest]; subst.
    rewrite Hc, (skip_all _ _ Hrest). cbn [Re.at_eol andb].
    apply Nat.leb_le.
Qed.

(* ===================================================================== *)
(** * What extraction and download leave untouched *)
(* ===================================================================== *)

Lemma keeps_ret {A} (a : A) : keeps (ret a).
Proof.
  intros w r w' H. inversion H; subst. split; [reflexivity|].
  exists []. now rewrite app_nil_r.
Qed.

Lemma keeps_raise {A} (e : exn) : keeps (@raise A e).
Proof.
  intros w r w' H. inversion H; subst. split; [reflexivity|].
  exists []. now rewrite app_nil_r.
Qed.

Lemma keeps_bind {A B} (m : M A) (f : A -> M B) :
  keeps m -> (forall a, keeps (f a)) -> keeps (bind m f).
Proof.
  intros Hm Hf w r w' H. unfold bind in H.
  destruct (m w) as [[e|a] w1] eqn:Em.
  - inversion H; subst. exact (Hm _ _ _ Em).
  - destruct (Hm _ _ _ Em) as (Hfs & evs & Htr & Hq).
    destruct (Hf a _ _ _ H) as (Hfs' & evs' & Htr' & Hq').
    split; [congruence|].
    exists (evs ++ evs'). split.
    + rewrite Htr', Htr. now rewrite app_assoc.
    + apply Forall_app. now split.
Qed.

Lemma keeps_try_except {A} (m : M A) (handler : exn -> M A) :
  keeps m -> (forall e, keeps (handler e)) -> keeps (try_except m handler).
Proof.
  intros Hm Hh w r w' H. unfold try_except in H.
  destruct (m w) as [[e|a] w1] eqn:Em.
  - destruct (Hm _ _ _ Em) as (Hfs & evs & Htr & Hq).
    destruct (Hh e _ _ _ H) as (Hfs' & evs' & Htr' & Hq').
    split; [congruence|].
    exists (evs ++ evs'). split.
    + rewrite Htr', Htr. now rewrite app_assoc.
    + apply Forall_app. now split.
  - inversion H; subst. exact (Hm _ _ _ Em).
Qed.

Lemma keeps_emit (e : event) : analysis_event e = false -> keeps (emit e).
Proof.
  intros He w r w' H. inversion H; subst. cbn. split; [reflexivity|].
  exists [e]. split; [reflexivity | now constructor].
Qed.

Lemma keeps_log (level : log_level) (msg : string) : keeps (log level msg).
Proof. now apply keeps_emit. Qed.

Lemma keeps_get_disk : keeps get_disk.
Proof.
  intros w r w' H. inversion H; subst. split; [reflexivity|].
  exists []. now rewrite app_nil_r.
Qed.

Lemma keeps_get_temp_dir : keeps get_temp_dir.
Proof.
  intros w r w' H. inversion H; subst. split; [reflexivity|].
  exists []. now rewrite app_nil_r.
Qed.

Lemma keeps_set_disk (d : gmap string Entry) : keeps (set_disk d).
Proof.
  intros w r w' H. inversion H; subst. cbn. split; [reflexivity|].
  exists []. now rewrite app_nil_r.
Qed.

Lemma keeps_set_temp_dir (d : Path) : keeps (set_temp_dir d).
Proof.
  intros w r w' H. inversion H; subst. cbn. split; [reflexivity|].
  exists []. now rewrite app_nil_r.
Qed.

Create HintDb keeps.
#[local] Hint Resolve keeps_ret keeps_raise keeps_log keeps_get_disk
  keeps_get_temp_dir keeps_set_disk keeps_set_temp_dir : keeps.

Ltac keeps_step :=
  repeat first
    [ solve [auto with keeps]
    | apply keeps_emit; reflexivity
    | apply keeps_bind; [|intros ?] ].

Lemma keeps_check_members (extract_to : Path) (members : list TarInfo) :
  keeps (check_members extract_to members).
Proof.
  induction members as [|member rest IH]; cbn [check_members].
  - auto with keeps.
  - destruct (negb _); [auto with keeps|].
    apply keeps_bind; [|intros _; exact IH].
    destruct (_ <? _)%Z; auto with keeps.
Qed.

Lemma keeps_read_archive (h : Host) (archive_path : Path) :
  keeps (read_archive h archive_path).
Proof.
  unfold read_archive. apply keeps_bind; [auto with keeps|]. intros d.
  destruct (d !! _) as [[|content|]|]; auto with keeps.
  destruct (tar_open h content); auto with keeps.
Qed.

Lemma keeps_extractall (h : Host) (members : list TarInfo) (extract_to : Path) :
  keeps (extractall h members extract_to).
Proof.
  unfold extractall. keeps_step.
  destruct (tar_extractall h members extract_to) as [written [e|]];
    keeps_step.
Qed.

Lemma keeps_safe_extract_tar (h : Host) (archive_path extract_to : Path) :
  keeps (_safe_extract_tar h archive_path extract_to).
Proof.
  unfold _safe_extract_tar. apply keeps_try_except.
  - apply keeps_bind; [apply keeps_read_archive|]. intros members.
    apply keeps_bind; [apply keeps_check_members|]. intros _.
    apply keeps_extractall.
  - intros [msg|msg|msg]; cbn [on_tar_error]; auto with keeps.
Qed.

#[local] Hint Resolve keeps_check_members keeps_read_archive
  keeps_extractall keeps_safe_extract_tar : keeps.

Lemma keeps_download (h : Host) (package_name : string) :
  keeps (_download_and_extract_package h package_name).
Proof.
  unfold _download_and_extract_package. apply keeps_try_except.
  - keeps_step.
    destruct (fetch_url h _) as [msg|archive_data]; [auto with keeps|].
    apply keeps_bind; [auto with keeps|]. intros [temp_dir|];
      [|auto with keeps].
    keeps_step.
    destruct (negb _); auto with keeps.
  - intros [msg|msg|msg]; auto with keeps.
Qed.

(* ===================================================================== *)
(** * scan_package *)
(* ===================================================================== *)

Lemma scan_invalid (h : Host) (package_name : string) (w : World) :
  _validate_package_name package_name = false ->
  scan_package h package_name w
  = (inr (false, [invalid_name_finding package_name]), w).
Proof. intros Hv. unfold scan_package. now rewrite Hv. Qed.

(** C9 as stated fails: a non-empty name of 256 allowed characters does not
    pass the validation. *)
Lemma C9_long_name_rejected :
  long_name <> EmptyString
  /\ Forall (fun c => name_char c = true) (chars long_name)
  /\ _validate_package_name long_name = false.
Proof.
  split; [discriminate|]. split; [|vm_compute; reflexivity].
  unfold long_name. rewrite chars_text.
  generalize 256. intros n. induction n; simpl; constructor; auto.
Qed.

(** The [$] of the pattern also matches before a line feed that ends the
    name, so such a name passes the validation. *)
Example validate_final_newline :
  _validate_package_name (text (chars "yay" ++ [Re.newline])) = true.
Proof. vm_compute. reflexivity. Qed.

(** C9, as the code has it.  A name with a character outside
    [[a-zA-Z0-9._+-]], at any place but a line feed that ends the name, is
    rejected: [scan_package] returns [false] with the single
    invalid-package-name finding and leaves the world as it was, so nothing
    is fetched or analysed.  A non-empty name inside the class passes the
    validation exactly when it has at most 255 characters. *)
Theorem C9_invalid_name_rejected (h : Host) (w : World)
    (package_name : string) :
  (forall pre c post,
      chars package_name = pre ++ c :: post ->
      name_char c = false ->
      post <> [] \/ c <> Re.newline ->
      scan_package h package_name w
      = (inr (false, [invalid_name_finding package_name]), w))
  /\ (package_name <> EmptyString ->
      Forall (fun c => name_char c = true) (chars package_name) ->
      (_validate_package_name package_name = true
       <-> String.length package_name <= 255)).
Proof.
  split.
  - intros pre c post Hcs Hc Hlast. apply scan_invalid.
    now apply (validate_rejects package_name pre post c).
  - apply validate_accepts.
Qed.


(* ===================================================================== *)
(** * Extraction: the member check *)
(* ===================================================================== *)

(** The outcome of the check depends on the member names only, and the
    world changes by the warnings alone. *)
Lemma check_members_outcome (extract_to : Path) (members : list TarInfo)
    (w : World) :
  exists warnings,
    snd (check_members extract_to members w)
    = mkWorld (findings w) (temp_dir w) (disk w) (trace w ++ warnings)
    /\ Forall (fun e => exists member,
                 e = EvLog WARNING (large_member_warning member)) warnings
    /\ fst (check_members extract_to members w)
       = match List.find (fun m => negb (passes_check extract_to m)) members with
         | Some member => inl (path_traversal member)
         | None => inr tt
         end.
Proof.
  revert w. induction members as [|member rest IH]; intros w;
    cbn [check_members List.find].
  - exists []. destruct w. cbn. rewrite app_nil_r. repeat split. constructor.
  - destruct (negb (passes_check extract_to member)).
    + exists []. destruct w. cbn. rewrite app_nil_r. repeat split. constructor.
    + destruct (large_member <? size member)%Z.
      * cbv [bind log emit].
        destruct (IH (mkWorld (findings w) (temp_dir w) (disk w)
                        (trace w ++ [EvLog WARNING (large_member_warning member)])))
          as (ws & Hw & Hall & Hres).
        exists (EvLog WARNING (large_member_warning member) :: ws).
        repeat split.
        -- rewrite Hw. cbn. now rewrite <- app_assoc.
        -- constructor; [now exists member | exact Hall].
        -- exact Hres.
      * cbv [bind ret].
        destruct (IH w) as (ws & Hw & Hall & Hres).
        exists ws. repeat split; assumption.
Qed.

Lemma find_names (extract_to : Path) (members members' : list TarInfo) :
  map name members' = map name members ->
  match List.find (fun m => negb (passes_check extract_to m)) members',
        List.find (fun m => negb (passes_check extract_to m)) members with
  | Some m', Some m => name m' = name m
  | None, None => True
  | _, _ => False
  end.
Proof.
  revert members'. induction members as [|m rest IH];
    intros [|m' rest'] Hn; try discriminate; cbn [List.find]; [exact I|].
  injection Hn as Hm Hrest.
  unfold passes_check at 1 3. rewrite Hm.
  destruct (negb _); [exact Hm|]. now apply IH.
Qed.

(** Every large member that the loop reaches is reported in the log. *)
Lemma check_members_warns (extract_to : Path) (members : list TarInfo)
    (w : World) (member : TarInfo) :
  fst (check_members extract_to members w) = inr tt ->
  In member members ->
  (large_member < size member)%Z ->
  In (EvLog WARNING (large_member_warning member))
     (trace (snd (check_members extract_to members w))).
Proof.
  revert w. induction members as [|m rest IH]; intros w Hok Hin Hbig;
    [destruct Hin|].
  cbn [check_members] in *.
  destruct (negb (passes_check extract_to m)); [discriminate|].
  assert (Hmono : forall w0 e, In e (trace w0) ->
            In e (trace (snd (check_members extract_to rest w0)))).
  { intros w0 e He.
    destruct (check_members_outcome extract_to rest w0) as (ws & Hw & _).
    rewrite Hw. cbn. apply in_or_app. now left. }
  destruct Hin as [->|Hin].
  - apply Z.ltb_lt in Hbig. rewrite Hbig in *.
    cbv [bind log emit] in *.
    match goal with
    | |- context [check_members extract_to rest ?w0] =>
        destruct (check_members extract_to rest w0) as [[e|[]] w1] eqn:E;
        [discriminate|];
        pose proof (Hmono w0 (EvLog WARNING (large_member_warning member))) as Hm;
        rewrite E in Hm
    end.
    cbn in *. apply Hm. apply in_or_app. right. now left.
  - destruct (large_member <? size m)%Z; cbv [bind log emit ret] in *.
    + match goal with
      | |- context [check_members extract_to rest ?w0] =>
          specialize (IH w0);
          destruct (check_members extract_to rest w0) as [[e|[]] w1] eqn:E;
          [discriminate|]
      end.
      cbn in *. now apply IH.
    + specialize (IH w).
      destruct (check_members extract_to rest w) as [[e|[]] w1] eqn:E;
        [discriminate|].
      cbn in *. now apply IH.
Qed.


(** A member that fails the test stops [_safe_extract_tar] before
    [extractall]: the error names the first such member, the disk is as it
    was, and the trace gains warnings only. *)
Lemma safe_extract_rejects (h : Host) (archive_path extract_to : Path)
    (content : string) (members : list TarInfo) (member : TarInfo)
    (w : World) :
  disk w !! path_str (resolve archive_path) = Some (File content) ->
  tar_open h content = inr members ->
  List.find (fun m => negb (passes_check extract_to m)) members = Some member ->
  exists warnings,
    _safe_extract_tar h archive_path extract_to w
    = (inl (path_traversal member),
       mkWorld (findings w) (temp_dir w) (disk w) (trace w ++ warnings))
    /\ Forall (fun e => exists member,
                 e = EvLog WARNING (large_member_warning member)) warnings.
Proof.
  intros Hfile Hopen Hfind.
  destruct (check_members_outcome extract_to members w)
    as (ws & Hw & Hall & Hres).
  rewrite Hfind in Hres.
  exists ws. split; [|exact Hall].
  cbv beta iota delta [_safe_extract_tar try_except bind read_archive get_disk].
  rewrite Hfile, Hopen. cbv beta iota delta [ret].
  destruct (check_members extract_to members w) as [r w1].
  cbn in Hw, Hres. subst r w1. reflexivity.
Qed.

(** The path "../../etc/passwd" fails the test in the sample scratch
    directory, and a path under the directory passes it. *)
Lemma etc_passwd_rejected :
  passes_check sample_root (mkTarInfo "../../etc/passwd" 1) = false
  /\ passes_check sample_root (mkTarInfo "pkg/PKGBUILD" 1) = true.
Proof. split; vm_compute; reflexivity. Qed.

Lemma prefix_append (a b : string) : String.prefix a (a +:+ b) = true.
Proof.
  induction a as [|c a IH].
  - now destruct b.
  - change (String.prefix (String c a) (String c (a +:+ b)) = true).
    cbn [String.prefix]. destruct (ascii_dec c c); [exact IH | congruence].
Qed.

Lemma append_assoc (a b c : string) : (a +:+ b) +:+ c = a +:+ (b +:+ c).
Proof.
  induction a as [|x a IH]; [reflexivity|].
  change (String x ((a +:+ b) +:+ c) = String x (a +:+ (b +:+ c))).
  now rewrite IH.
Qed.

Lemma append_empty (a : string) : a +:+ EmptyString = a.
Proof.
  induction a as [|x a IH]; [reflexivity|].
  change (String x (a +:+ EmptyString) = String x a). now rewrite IH.
Qed.

Lemma join_app (sep : string) (a b : list string) :
  exists tail, join sep (a ++ b) = join sep a +:+ tail.
Proof.
  induction a as [|x a (tail & IH)]; cbn [app].
  - now exists (join sep b).
  - destruct a as [|y a].
    + cbn [app] in *. destruct b as [|z b].
      * exists EmptyString. cbn [join]. now rewrite append_empty.
      * now exists (sep +:+ join sep (z :: b)).
    + exists tail. cbn [app] in *.
      change (join sep (x :: y :: a ++ b))
        with (x +:+ sep +:+ join sep (y :: a ++ b)).
      change (join sep (x :: y :: a))
        with (x +:+ sep +:+ join sep (y :: a)).
      rewrite IH. now rewrite !append_assoc.
Qed.

(** No false alarm: a member whose resolved path lies inside the resolved
    extraction directory passes the test. *)
Lemma inside_passes (extract_to : Path) (member : TarInfo) :
  inside (resolve extract_to)
         (resolve (path_join extract_to (name member))) ->
  passes_check extract_to member = true.
Proof.
  intros [Hd [rest Hparts]]. unfold passes_check, startswith, path_str.
  rewrite Hd, Hparts.
  destruct (join_app "/" (parts (resolve extract_to)) rest) as [tail ->].
  rewrite <- append_assoc. apply prefix_append.
Qed.

Lemma sibling_not_inside :
  ~ inside (resolve sample_root)
           (resolve (path_join sample_root (name sibling_member))).
Proof.
  intros [_ [rest Hrest]]. vm_compute in Hrest. discriminate.
Qed.

Lemma sibling_passes : passes_check sample_root sibling_member = true.
Proof. vm_compute. reflexivity. Qed.

Lemma check_sibling (w : World) :
  check_members sample_root [sibling_member] w = (inr tt, w).
Proof.
  cbn [check_members]. rewrite sibling_passes. reflexivity.
Qed.


(* ===================================================================== *)
(** * The statements at sample inputs *)
(* ===================================================================== *)

Ltac no_such_level :=
  let H := fresh in
  intros H; unfold has_level in H;
  repeat (apply Exists_cons in H; destruct H as [H|H]; [discriminate H|]);
  apply Exists_nil in H; exact H.

Lemma C1_witness :
  _assess_overall_security
    [sample_finding HIGH; sample_finding HIGH; sample_finding HIGH] = false
  /\ _assess_overall_security [sample_finding HIGH; sample_finding HIGH] = true
  /\ _assess_overall_security
       [sample_finding HIGH; sample_finding LOW; sample_finding HIGH]
     = _assess_overall_security [sample_finding HIGH; sample_finding HIGH].
Proof.
  split; [|split].
  - apply (C1_verdict_threshold_rule
             [sample_finding HIGH; sample_finding HIGH; sample_finding HIGH]);
      [no_such_level | reflexivity].
  - apply (C1_verdict_threshold_rule
             [sample_finding HIGH; sample_finding HIGH]);
      [no_such_level | reflexivity | simpl; lia].
  - apply (C1_verdict_threshold_rule
             [sample_finding HIGH; sample_finding LOW; sample_finding HIGH])
      with (f := sample_finding LOW) (pre := [sample_finding HIGH])
           (post := [sample_finding HIGH]); reflexivity.
Defined.

Lemma C9_witness :
  scan_package (sample_host [] []) "ya y" empty_world
  = (inr (false, [invalid_name_finding "ya y"]), empty_world)
  /\ (_validate_package_name "libc++" = true
      <-> String.length "libc++" <= 255).
Proof.
  split.
  - apply (C9_invalid_name_rejected (sample_host [] []) empty_world "ya y")
      with (pre := chars "ya") (c := " "%char) (post := chars "y").
    + reflexivity.
    + reflexivity.
    + left. discriminate.
  - apply (C9_invalid_name_rejected (sample_host [] []) empty_world "libc++").
    + discriminate.
    + repeat constructor.
Defined.





(* ===================================================================== *)
(** * The resolver: what a returning call establishes *)
(* ===================================================================== *)

Section Resolver.

Variable self : PackageTool.

Lemma extends_refl (st : visit_state) : extends st st.
Proof.
  split; [exists []; now rewrite app_nil_r | set_solver | tauto].
Qed.

Lemma extends_trans (a b c : visit_state) :
  extends a b -> extends b c -> extends a c.
Proof.
  intros [[x Hx] Hv Hs] [[y Hy] Hv' Hs']. split.
  - exists (x ++ y). now rewrite Hy, Hx, app_assoc.
  - set_solver.
  - intros z. now rewrite Hs', Hs.
Qed.

Lemma extends_order_mono (a b : visit_state) (x : string) :
  extends a b -> x ∈ order a -> x ∈ order b.
Proof.
  intros [[added ->] _ _] Hx. apply elem_of_app. now left.
Qed.

(** A loop whose body keeps the invariant keeps it, and what each round
    establishes still holds at the end when later rounds cannot undo it. *)
Lemma for_each_done (body : string -> visit_state -> outcome visit_state)
    (Q : string -> visit_state -> Prop) :
  (forall x st st', visit_inv self st -> body x st = Done st' ->
     visit_inv self st' /\ extends st st' /\ Q x st') ->
  (forall x st st', Q x st -> extends st st' -> Q x st') ->
  forall xs st st',
    visit_inv self st -> for_each body xs st = Done st' ->
    visit_inv self st' /\ extends st st' /\ (forall x, x ∈ xs -> Q x st').
Proof.
  intros Hbody Hmono. induction xs as [|x xs IH]; intros st st' Hinv Hrun.
  - injection Hrun as <-. split; [exact Hinv|]. split; [apply extends_refl|].
    intros x Hx. inversion Hx.
  - cbn [for_each] in Hrun.
    destruct (body x st) as [st1| |] eqn:Hx; try discriminate.
    destruct (Hbody _ _ _ Hinv Hx) as (Hinv1 & Hext1 & HQ).
    destruct (IH _ _ Hinv1 Hrun) as (Hinv' & Hext' & HQs).
    split; [exact Hinv'|]. split; [eapply extends_trans; eassumption|].
    intros y Hy. apply elem_of_cons in Hy as [->|Hy]; [|now apply HQs].
    eapply Hmono; eassumption.
Qed.

Lemma listed_mono (x : string) (st st' : visit_state) :
  installed self x \/ x ∈ order st -> extends st st' ->
  installed self x \/ x ∈ order st'.
Proof.
  intros [H|H] Hext; [now left | right].
  eapply extends_order_mono; eassumption.
Qed.

(** Marking a name keeps the invariant. *)
Lemma visit_inv_mark (pkg : string) (st : visit_state) :
  visit_inv self st ->
  visit_inv self (mkVisit (order st) ({[pkg]} ∪ visited st)).
Proof.
  intros [H1 H2 H3 H4]. split; cbn; auto.
  intros x Hx. apply elem_of_union. right. auto.
Qed.

Lemma deps_first_snoc (order : list string) (pkg : string) :
  deps_first self order ->
  (forall d, followed self pkg d -> installed self d \/ d ∈ order) ->
  deps_first self (order ++ [pkg]).
Proof.
  intros Hold Hnew pre p post d Hsplit Hdep.
  destruct post as [|q post] using rev_ind.
  - apply app_inj_tail in Hsplit as [-> ->]. now apply Hnew.
  - clear IHpost.
    change (pre ++ p :: post ++ [q]) with (pre ++ (p :: post) ++ [q]) in Hsplit.
    rewrite app_assoc in Hsplit.
    apply app_inj_tail in Hsplit as [-> _].
    eapply Hold; [reflexivity | exact Hdep].
Qed.

Lemma visit_done (fuel : nat) :
  forall pkg st st',
    visit_inv self st -> visit self fuel pkg st = Done st' ->
    visit_inv self st' /\ extends st st'
    /\ (installed self pkg \/ pkg ∈ order st').
Proof.
  induction fuel as [|fuel IH]; intros pkg st st' Hinv Hrun; [discriminate|].
  cbn [visit] in Hrun.
  destruct (bool_decide (pkg ∈ localdb self)) eqn:Hloc.
  { injection Hrun as <-. apply bool_decide_eq_true in Hloc.
    split; [exact Hinv|]. split; [apply extends_refl | now left]. }
  destruct (bool_decide (pkg ∈ order st)) eqn:Hord.
  { injection Hrun as <-. apply bool_decide_eq_true in Hord.
    split; [exact Hinv|]. split; [apply extends_refl | now right]. }
  cbn [orb] in Hrun.
  apply bool_decide_eq_false in Hloc, Hord.
  destruct (bool_decide (pkg ∈ visited st)) eqn:Hvis; [discriminate|].
  apply bool_decide_eq_false in Hvis.
  destruct (aur self !! pkg) as [info|] eqn:Hinfo; [|discriminate].
  match type of Hrun with
  | context [for_each ?body ?xs ?st1] =>
      destruct (for_each body xs st1) as [st2| |] eqn:Hloop;
      try discriminate;
      apply (for_each_done body
               (fun d st => _is_in_repos self d = false ->
                            installed self d \/ d ∈ order st)) in Hloop
  end.
  - injection Hrun as <-.
    destruct Hloop as (Hinv2 & Hext2 & Hdeps).
    destruct Hinv2 as [H1 H2 H3 H4].
    assert (Hstack : pkg ∈ visited st2 /\ pkg ∉ order st2).
    { apply (ext_stack _ _ Hext2). cbn. split; [set_solver | exact Hord]. }
    split; [|split].
    + split; cbn.
      * intros x Hx. apply elem_of_app in Hx as [Hx|Hx]; [now apply H1|].
        apply list_elem_of_singleton in Hx as ->. tauto.
      * apply NoDup_app. split; [exact H2|]. split.
        -- intros x Hx Hx'. apply list_elem_of_singleton in Hx' as ->. tauto.
        -- apply NoDup_singleton.
      * intros x Hx. apply elem_of_app in Hx as [Hx|Hx]; [now apply H3|].
        apply list_elem_of_singleton in Hx as ->. exact Hloc.
      * apply deps_first_snoc; [exact H4|].
        intros d (_ & (info' & Hinfo' & Hd) & Hrepo).
        rewrite Hinfo in Hinfo'. injection Hinfo' as <-.
        now apply Hdeps.
    + destruct Hext2 as [[added Hadded] Hv Hs]. cbn in *. split; cbn.
      * exists (added ++ [pkg]). now rewrite Hadded, app_assoc.
      * set_solver.
      * intros x. rewrite elem_of_app, list_elem_of_singleton.
        specialize (Hs x). rewrite elem_of_union, elem_of_singleton in Hs.
        split.
        -- intros [Hx Hnx].
           assert (x <> pkg) by tauto.
           assert (x ∉ order st2) by tauto. tauto.
        -- intros [Hx Hnx].
           assert (x <> pkg) by (intros ->; tauto). tauto.
    + right. cbn. apply elem_of_app. right. now apply list_elem_of_singleton.
  - intros d s s' Hs Hbody.
    destruct (_is_in_repos self d) eqn:Hrepo; cbn [negb] in Hbody.
    + injection Hbody as <-. split; [exact Hs|].
      split; [apply extends_refl | discriminate].
    + destruct (IH _ _ _ Hs Hbody) as (? & ? & ?). tauto.
  - intros d s s' Hq Hext Hrepo. eapply listed_mono; eauto.
  - now apply visit_inv_mark.
Qed.

(* ===================================================================== *)
(** * The resolver: errors and termination *)
(* ===================================================================== *)

(** A loop that does not run to its end stops in one of its rounds, in a
    state that the earlier rounds reached. *)
Lemma for_each_stop (body : string -> visit_state -> outcome visit_state) :
  (forall x st st', visit_inv self st -> body x st = Done st' ->
     visit_inv self st' /\ extends st st') ->
  forall xs st r,
    visit_inv self st -> for_each body xs st = r ->
    (forall st', r <> Done st') ->
    exists x st1,
      x ∈ xs /\ visit_inv self st1 /\ extends st st1 /\ body x st1 = r.
Proof.
  intros Hbody. induction xs as [|x xs IH]; intros st r Hinv Hrun Hstop.
  - cbn in Hrun. subst r. now destruct (Hstop st).
  - cbn [for_each] in Hrun.
    destruct (body x st) as [st1|e|] eqn:Hx.
    + destruct (Hbody _ _ _ Hinv Hx) as (Hinv1 & Hext1).
      destruct (IH _ _ Hinv1 Hrun Hstop) as (y & st2 & Hy & Hinv2 & Hext2 & Hr).
      exists y, st2. split; [now apply elem_of_cons; right|].
      split; [exact Hinv2|]. split; [|exact Hr].
      eapply extends_trans; eassumption.
    + exists x, st. split; [apply elem_of_cons; now left|].
      split; [exact Hinv|]. split; [apply extends_refl | congruence].
    + exists x, st. split; [apply elem_of_cons; now left|].
      split; [exact Hinv|]. split; [apply extends_refl | congruence].
Qed.

(** The body of the loop of [visit] over the dependency names. *)
Lemma dep_round_done (fuel : nat) (d : string) (st st' : visit_state) :
  visit_inv self st ->
  (if negb (_is_in_repos self d) then visit self fuel d st else Done st)
  = Done st' ->
  visit_inv self st' /\ extends st st'.
Proof.
  intros Hinv Hrun. destruct (_is_in_repos self d); cbn [negb] in Hrun.
  - injection Hrun as <-. split; [exact Hinv | apply extends_refl].
  - destruct (visit_done _ _ _ _ Hinv Hrun) as (? & ? & _). tauto.
Qed.

Lemma error_spec_step (p d : string) (e : resolve_error) :
  followed self p d -> error_spec self d e -> error_spec self p e.
Proof.
  intros Hpd. destruct e as [x|x]; cbn.
  - intros [Hr Hc]. split; [eapply rtc_l; eassumption | exact Hc].
  - intros (Hr & Hi & Hn). split; [eapply rtc_l; eassumption | tauto].
Qed.

Lemma visit_raised (fuel : nat) :
  forall pkg st e,
    visit_inv self st ->
    (forall s, s ∈ visited st -> s ∉ order st -> tc (followed self) s pkg) ->
    visit self fuel pkg st = Raised e ->
    error_spec self pkg e.
Proof.
  induction fuel as [|fuel IH]; intros pkg st e Hinv Hstack Hrun;
    [discriminate|].
  cbn [visit] in Hrun.
  destruct (bool_decide (pkg ∈ localdb self)) eqn:Hloc; [discriminate|].
  destruct (bool_decide (pkg ∈ order st)) eqn:Hord; [discriminate|].
  cbn [orb] in Hrun. apply bool_decide_eq_false in Hloc, Hord.
  destruct (bool_decide (pkg ∈ visited st)) eqn:Hvis.
  { injection Hrun as <-. apply bool_decide_eq_true in Hvis. cbn.
    split; [apply rtc_refl | now apply Hstack]. }
  apply bool_decide_eq_false in Hvis.
  destruct (aur self !! pkg) as [info|] eqn:Hinfo.
  2:{ injection Hrun as <-. cbn. split; [apply rtc_refl | tauto]. }
  match type of Hrun with
  | context [for_each ?body ?xs ?st1] =>
      destruct (for_each body xs st1) as [st2|e'|] eqn:Hloop;
      try discriminate;
      apply (for_each_stop body) in Hloop
  end.
  - injection Hrun as ->.
    destruct Hloop as (d & st1 & Hd & Hinv1 & Hext1 & Hbody).
    destruct (_is_in_repos self d) eqn:Hrepo; cbn [negb] in Hbody;
      [discriminate|].
    assert (Hpd : followed self pkg d).
    { split; [exact Hloc|]. split; [|exact Hrepo]. now exists info. }
    apply (error_spec_step pkg d); [exact Hpd|].
    apply (IH _ _ _ Hinv1); [|exact Hbody].
    intros s Hs Hns.
    destruct (proj1 (ext_stack _ _ Hext1 s) (conj Hs Hns)) as [Hs1 Hns1].
    cbn in Hs1, Hns1. apply elem_of_union in Hs1 as [Hs1|Hs1].
    + apply elem_of_singleton in Hs1 as ->. now apply tc_once.
    + eapply tc_r; [|exact Hpd]. now apply Hstack.
  - intros d s s'. apply dep_round_done.
  - now apply visit_inv_mark.
  - intros st'. discriminate.
Qed.

Lemma unmarked_mono (st st' : visit_state) :
  extends st st' -> unmarked self st' <= unmarked self st.
Proof.
  intros [_ Hv _]. unfold unmarked. apply subseteq_size. set_solver.
Qed.

Lemma unmarked_mark (pkg : string) (st : visit_state) :
  is_Some (aur self !! pkg) -> pkg ∉ visited st ->
  unmarked self (mkVisit (order st) ({[pkg]} ∪ visited st))
  < unmarked self st.
Proof.
  intros Hsome Hvis. unfold unmarked. cbn. apply subset_size.
  apply elem_of_dom in Hsome. set_solver.
Qed.

(** With more fuel than the registry has unmarked names, a call never runs
    out of fuel. *)
Lemma visit_fuel (fuel : nat) :
  forall pkg st,
    visit_inv self st -> unmarked self st < fuel ->
    visit self fuel pkg st <> OutOfFuel.
Proof.
  induction fuel as [|fuel IH]; intros pkg st Hinv Hfuel Hrun; [lia|].
  cbn [visit] in Hrun.
  destruct (bool_decide (pkg ∈ localdb self)); [discriminate|].
  destruct (bool_decide (pkg ∈ order st)); [discriminate|].
  cbn [orb] in Hrun.
  destruct (bool_decide (pkg ∈ visited st)) eqn:Hvis; [discriminate|].
  apply bool_decide_eq_false in Hvis.
  destruct (aur self !! pkg) as [info|] eqn:Hinfo; [|discriminate].
  pose proof (unmarked_mark pkg st (mk_is_Some _ _ Hinfo) Hvis) as Hless.
  match type of Hrun with
  | context [for_each ?body ?xs ?st1] =>
      destruct (for_each body xs st1) as [st2|e'|] eqn:Hloop;
      try discriminate;
      apply (for_each_stop body) in Hloop
  end.
  - destruct Hloop as (d & st1 & Hd & Hinv1 & Hext1 & Hbody).
    destruct (_is_in_repos self d); cbn [negb] in Hbody; [discriminate|].
    apply (IH d st1 Hinv1); [|exact Hbody].
    pose proof (unmarked_mono _ _ Hext1). lia.
  - intros d s s'. apply dep_round_done.
  - now apply visit_inv_mark.
  - intros st'. discriminate.
Qed.

End Resolver.

(* ===================================================================== *)
(** * The resolver: the whole request *)
(* ===================================================================== *)

Section Request.

Variable self : PackageTool.

Lemma init_inv : visit_inv self (mkVisit [] ∅).
Proof.
  split; cbn.
  - intros x Hx. inversion Hx.
  - apply NoDup_nil_2.
  - intros x Hx. inversion Hx.
  - intros pre p post d Hsplit. now destruct pre.
Qed.

Lemma init_unmarked : unmarked self (mkVisit [] ∅) = base.size (aur self).
Proof.
  unfold unmarked. cbn. rewrite difference_empty_L. apply size_dom.
Qed.

(** What [_resolve_aur_dependencies] delivers, whatever the graph. *)
Lemma resolve_spec (fuel : nat) (names : list string) :
  enough_fuel self <= fuel ->
  match _resolve_aur_dependencies self fuel names with
  | Done order =>
      NoDup order
      /\ (forall x, x ∈ order -> ~ installed self x)
      /\ deps_first self order
      /\ (forall n, n ∈ names -> installed self n \/ n ∈ order)
  | Raised e => exists n, n ∈ names /\ error_spec self n e
  | OutOfFuel => False
  end.
Proof.
  intros Hfuel. unfold _resolve_aur_dependencies.
  assert (Hbody : forall x st st',
             visit_inv self st -> visit self fuel x st = Done st' ->
             visit_inv self st' /\ extends st st').
  { intros x st st' Hinv Hrun.
    destruct (visit_done self _ _ _ _ Hinv Hrun) as (? & ? & _). tauto. }
  destruct (for_each (visit self fuel) names (mkVisit [] ∅))
    as [st|e|] eqn:Hloop.
  - apply (for_each_done self (visit self fuel)
             (fun n st => installed self n \/ n ∈ order st)) in Hloop.
    + destruct Hloop as ([H1 H2 H3 H4] & _ & HQ). tauto.
    + intros x s s' Hinv Hrun. now apply (visit_done self fuel).
    + intros x s s'. apply listed_mono.
    + apply init_inv.
  - apply (for_each_stop self (visit self fuel) Hbody) in Hloop;
      [|apply init_inv|intros st'; discriminate].
    destruct Hloop as (n & st1 & Hn & Hinv1 & Hext1 & Hrun).
    exists n. split; [exact Hn|].
    apply (visit_raised self fuel n st1 e Hinv1); [|exact Hrun].
    intros s Hs Hns.
    destruct (proj1 (ext_stack _ _ Hext1 s) (conj Hs Hns)) as [Hs0 _].
    cbn in Hs0. set_solver.
  - apply (for_each_stop self (visit self fuel) Hbody) in Hloop;
      [|apply init_inv|intros st'; discriminate].
    destruct Hloop as (n & st1 & Hn & Hinv1 & Hext1 & Hrun).
    apply (visit_fuel self fuel n st1 Hinv1); [|exact Hrun].
    pose proof (unmarked_mono self _ _ Hext1) as Hle.
    rewrite init_unmarked in Hle. unfold enough_fuel in Hfuel. lia.
Qed.

(** In a list with its dependencies first, whatever a listed package
    reaches in one or more steps is installed or stands before it. *)
Lemma deps_first_tc (order : list string) :
  deps_first self order ->
  forall p b, tc (followed self) p b ->
    forall pre post, order = pre ++ p :: post ->
      installed self b \/ b ∈ pre.
Proof.
  intros Hdf p b Htc. induction Htc as [p b Hpb|p y b Hpy Hyb IH];
    intros pre post Hsplit.
  - eapply Hdf; eassumption.
  - destruct (Hdf _ _ _ _ Hsplit Hpy) as [Hy|Hy].
    + exfalso. inversion Hyb as [? ? [Hn _]|? ? ? [Hn _] _]; subst; tauto.
    + apply list_elem_of_split in Hy as (p1 & p2 & ->).
      destruct (IH p1 (p2 ++ p :: post)) as [Hb|Hb].
      * rewrite Hsplit, <- app_assoc. reflexivity.
      * now left.
      * right. apply elem_of_app. now left.
Qed.

(** A list that the resolver returns holds every package the request
    reaches that is not installed. *)
Lemma listed_reachable (order names : list string) :
  deps_first self order ->
  (forall n, n ∈ names -> installed self n \/ n ∈ order) ->
  forall x, reachable self names x -> ~ installed self x -> x ∈ order.
Proof.
  intros Hdf Hnames x (n & Hn & Hreach).
  revert x Hreach. apply (rtc_ind_r (fun x => ~ installed self x -> x ∈ order)).
  - intros Hx. destruct (Hnames _ Hn); tauto.
  - intros y z Hny Hyz IH Hx.
    assert (Hy : y ∈ order) by (apply IH; now destruct Hyz).
    apply list_elem_of_split in Hy as (pre & post & ->).
    destruct (Hdf _ _ _ _ eq_refl Hyz) as [Hz|Hz]; [tauto|].
    apply elem_of_app. now left.
Qed.

(** A list that the resolver returns rules out a cycle among the packages
    the request reaches. *)
Lemma listed_acyclic (order names : list string) :
  NoDup order ->
  deps_first self order ->
  (forall n, n ∈ names -> installed self n \/ n ∈ order) ->
  acyclic_from self names.
Proof.
  intros Hnd Hdf Hnames x Hreach Hcycle.
  assert (Hx : ~ installed self x).
  { inversion Hcycle as [? ? [Hn _]|? ? ? [Hn _] _]; subst; tauto. }
  pose proof (listed_reachable order names Hdf Hnames x Hreach Hx) as Hin.
  apply list_elem_of_split in Hin as (pre & post & ->).
  destruct (deps_first_tc _ Hdf x x Hcycle pre post eq_refl) as [H|H];
    [tauto|].
  apply NoDup_app in Hnd as (_ & Hnd & _).
  apply (Hnd x H). apply elem_of_cons. now left.
Qed.

End Request.



(* ===================================================================== *)
(** * The resolver on sample registries *)
(* ===================================================================== *)

Lemma tc_rank {A} (R : A -> A -> Prop) (rank : A -> nat) :
  (forall a b, R a b -> rank a < rank b) ->
  forall a b, tc R a b -> rank a < rank b.
Proof.
  intros HR a b Htc. induction Htc as [a b H|a c b H _ IH].
  - now apply HR.
  - specialize (HR _ _ H). lia.
Qed.

Lemma rank_acyclic {A} (R : A -> A -> Prop) (rank : A -> nat) :
  (forall a b, R a b -> rank a < rank b) -> forall x, ~ tc R x x.
Proof. intros HR x Hx. pose proof (tc_rank R rank HR x x Hx). lia. Qed.

(** Reads a lookup in a registry written with [insert]s. *)
Ltac registry_cases H :=
  repeat (rewrite lookup_insert in H;
          let E := fresh "E" in
          destruct (decide _) as [E|E];
          [injection H as H; subst|]);
  try (rewrite lookup_empty in H; discriminate H).

(** Nothing is installed in a tool whose [localdb] is empty. *)
Ltac not_installed := unfold installed; cbn; apply not_elem_of_empty.

Ltac one_of H :=
  repeat (apply elem_of_cons in H as [H|H]; [subst|]);
  try (apply elem_of_nil in H; destruct H).

Lemma tool_repo_dep_edges (p d : string) :
  declares_dep tool_repo_dep p d -> p = "app" /\ d = "libfoo".
Proof.
  intros (info & Hinfo & Hd). unfold tool_repo_dep in Hinfo.
  cbn [aur] in Hinfo. registry_cases Hinfo.
  - vm_compute in Hd. one_of Hd. tauto.
  - vm_compute in Hd. one_of Hd.
Qed.

Lemma tool_unknown_edges (p d : string) :
  declares_dep tool_unknown p d -> p = "app" /\ d = "ghost".
Proof.
  intros (info & Hinfo & Hd). unfold tool_unknown in Hinfo.
  cbn [aur] in Hinfo. registry_cases Hinfo.
  vm_compute in Hd. one_of Hd. tauto.
Qed.


Lemma tool_chain_edges (p d : string) :
  followed tool_chain p d ->
  (p = "x" /\ d = "y") \/ (p = "y" /\ d = "z").
Proof.
  intros (_ & (info & Hinfo & Hd) & _). unfold tool_chain in Hinfo.
  cbn [aur] in Hinfo. registry_cases Hinfo.
  - vm_compute in Hd. one_of Hd. tauto.
  - vm_compute in Hd. one_of Hd. tauto.
Qed.

Lemma tool_chain_acyclic (names : list string) :
  acyclic_from tool_chain names.
Proof.
  intros x _.
  apply (rank_acyclic _ (fun x => if String.eqb x "x" then 0
                                  else if String.eqb x "y" then 1 else 2)).
  intros a b H. apply tool_chain_edges in H as [[-> ->]|[-> ->]]; cbn; lia.
Qed.


Lemma tool_cycle_followed_ab : followed tool_cycle "a" "b".
Proof.
  split; [not_installed|]. split; [|reflexivity].
  eexists. split; [vm_compute; reflexivity|]. vm_compute.
  apply elem_of_cons. now left.
Qed.

Lemma tool_cycle_followed_ba : followed tool_cycle "b" "a".
Proof.
  split; [not_installed|]. split; [|reflexivity].
  eexists. split; [vm_compute; reflexivity|]. vm_compute.
  apply elem_of_cons. now left.
Qed.

Lemma tool_cycle_edges (p d : string) :
  followed tool_cycle p d -> (p = "a" /\ d = "b") \/ (p = "b" /\ d = "a").
Proof.
  intros (_ & (info & Hinfo & Hd) & _). unfold tool_cycle in Hinfo.
  cbn [aur] in Hinfo. registry_cases Hinfo.
  - vm_compute in Hd. one_of Hd. tauto.
  - vm_compute in Hd. one_of Hd. tauto.
Qed.

Lemma tool_cycle_known : all_known tool_cycle ["a"].
Proof.
  intros x (n & Hn & Hreach) _. one_of Hn.
  assert (Hx : x = "a" \/ x = "b").
  { revert x Hreach. apply rtc_ind_r; [now left|].
    intros y z _ Hyz _. apply tool_cycle_edges in Hyz. tauto. }
  destruct Hx as [->| ->]; vm_compute; eauto.
Qed.



(** The example of the specification: "x" needs "y", "y" needs "z", and
    "z" is installed. *)
Example resolve_chain :
  _resolve_aur_dependencies tool_chain (enough_fuel tool_chain) ["x"]
  = Done ["y"; "x"].
Proof. vm_compute. reflexivity. Qed.

(** A cycle through an installed package is no error: with "b" installed,
    the request for "a" returns ["a"]. *)
Example resolve_cycle_through_installed :
  _resolve_aur_dependencies
    (mkPackageTool [] {["b"]} (aur tool_cycle)) 3 ["a"] = Done ["a"].
Proof. vm_compute. reflexivity. Qed.

(* ===================================================================== *)
(** * Source URLs *)
(* ===================================================================== *)

Lemma analyze_url_result (h : Host) (url : string) (parsed : ParseResult)
    (fs : list SecurityFinding) :
  urlparse h url = Some parsed ->
  _analyze_url h url fs
  = fs
    ++ (if String.eqb (scheme parsed) "http"
        then [insecure_protocol_finding (url_domain parsed) url] else [])
    ++ (if trusted (url_domain parsed) then []
        else [unknown_domain_finding (suspicious_suffix (url_domain parsed))
                (url_domain parsed) url]).
Proof.
  intros Hp. unfold _analyze_url. rewrite Hp.
  fold (url_domain parsed). fold (trusted (url_domain parsed)).
  fold (suspicious_suffix (url_domain parsed)).
  destruct (String.eqb (scheme parsed) "http");
    destruct (trusted (url_domain parsed)); cbn [negb];
    try destruct (suspicious_suffix (url_domain parsed));
    cbn [app]; rewrite <- ?app_assoc, ?app_nil_r; reflexivity.
Qed.

(** [_analyze_url] only appends. *)
Lemma analyze_url_keeps (h : Host) (url : string) (fs : list SecurityFinding)
    (f : SecurityFinding) :
  In f fs -> In f (_analyze_url h url fs).
Proof.
  intros Hf. unfold _analyze_url.
  destruct (urlparse h url) as [parsed|]; [|apply in_or_app; now left].
  destruct (String.eqb (scheme parsed) "http");
    destruct (negb _); try destruct (existsb _ _);
    repeat (apply in_or_app; left); exact Hf.
Qed.

(** What [_analyze_url] appends for one of the collected URLs is among the
    findings of [_check_source_urls]. *)
Lemma check_source_urls_has (h : Host) (content url : string)
    (f : SecurityFinding) (fs : list SecurityFinding) :
  In url (source_urls h content) ->
  (forall fs', In f (_analyze_url h url fs')) ->
  In f (_check_source_urls h content fs).
Proof.
  unfold _check_source_urls. intros Hurl Hf. revert fs.
  induction (source_urls h content) as [|u urls IH]; intros fs;
    [destruct Hurl|].
  cbn [fold_left]. destruct Hurl as [->|Hurl]; [|now apply IH].
  specialize (Hf fs). revert Hf. generalize (_analyze_url h url fs).
  clear IH. induction urls as [|v urls IH]; intros fs' Hf; [exact Hf|].
  cbn [fold_left]. apply IH. now apply analyze_url_keeps.
Qed.



(* ===================================================================== *)
(** * Checksum fields *)
(* ===================================================================== *)

Lemma strip_app (l s : list ascii) : strip l (l ++ s) = Some s.
Proof.
  induction l as [|a l IH]; cbn; [reflexivity|].
  now rewrite Nat.eqb_refl.
Qed.

Lemma strip_some (l s s' : list ascii) : strip l s = Some s' -> s = l ++ s'.
Proof.
  revert s. induction l as [|a l IH]; intros s H.
  - destruct s; cbn in H; injection H as <-; reflexivity.
  - destruct s as [|b s]; cbn in H; [discriminate|].
    destruct (code b =? code a) eqn:E; [|discriminate].
    apply Nat.eqb_eq, code_inj in E. subst b. cbn. f_equal. now apply IH.
Qed.

Lemma greedy_ext (p : ascii -> bool) (k k' : Re.cont) :
  (forall prev s, k prev s = k' prev s) ->
  forall prev s, greedy p k prev s = greedy p k' prev s.
Proof.
  intros Hk prev s. revert prev. induction s as [|c s IH]; intros prev; cbn.
  - apply Hk.
  - destruct (p c); [|apply Hk]. rewrite IH, Hk. reflexivity.
Qed.

(** A literal before an item whose run does not depend on what precedes
    it. *)
Lemma run_lit (ml : bool) (l : list ascii) (r : Re.regex) (k : Re.cont)
    (g : list ascii -> option (list ascii)) :
  (forall prev s, Re.run ml r prev s k = g s) ->
  forall prev s,
    Re.run ml (Re.Lit l r) prev s k
    = match strip l s with Some s' => g s' | None => None end.
Proof.
  intros Hr. induction l as [|a l IH]; intros prev s; cbn [Re.Lit strip].
  - apply Hr.
  - cbn [Re.run]. destruct s as [|b s]; [reflexivity|].
    destruct (code b =? code a); [apply IH | reflexivity].
Qed.

Lemma run_equals (ml : bool) (prev : option ascii) (s : list ascii) :
  Re.run ml (Re.Cat (Re.Star (Re.Cls is_space)) (Re.Chr "=")) prev s Re.accept
  = equals_next s.
Proof.
  change (Re.run ml (Re.Star (Re.Cls is_space)) prev s
            (fun _ rest =>
               (fun rest =>
                  match rest with
                  | c :: rest' =>
                      if code c =? code "="%char then Some rest' else None
                  | [] => None
                  end) rest) = equals_next s).
  rewrite run_star_cls, greedy_committed; [reflexivity|].
  intros c s' Hc. destruct (code c =? code "="%char) eqn:E; [|reflexivity].
  apply Nat.eqb_eq, code_inj in E. subst c. vm_compute in Hc. discriminate.
Qed.

Lemma run_field_re (field : string) (f0 : ascii) (fs : list ascii)
    (prev : option ascii) (s : list ascii) :
  chars field = f0 :: fs -> is_space f0 = false ->
  Re.run true (field_re field) prev s Re.accept = field_at field prev s.
Proof.
  intros Hfield Hf0. unfold field_re, field_at.
  change (Re.run true (Re.Cat Re.Bol ?r) prev s Re.accept)
    with (if Re.at_bol true prev then Re.run true r prev s Re.accept
          else None).
  destruct (Re.at_bol true prev); [|reflexivity].
  change (Re.run true (Re.Cat (Re.Star (Re.Cls is_space)) ?r) prev s Re.accept)
    with (Re.run true (Re.Star (Re.Cls is_space)) prev s
            (fun prev' s' => Re.run true r prev' s' Re.accept)).
  rewrite run_star_cls.
  rewrite (greedy_ext is_space _
             (fun _ rest =>
                (fun rest =>
                   match strip (chars field) rest with
                   | Some s' => equals_next s'
                   | None => None
                   end) rest)).
  - rewrite greedy_committed; [reflexivity|].
    intros c s' Hc. rewrite Hfield. cbn [strip].
    destruct (code c =? code f0) eqn:E; [|reflexivity].
    apply Nat.eqb_eq, code_inj in E. congruence.
  - intros prev' s'. apply run_lit. intros p t. apply run_equals.
Qed.

Lemma prev_after_snoc (prev : option ascii) (a : list ascii) (c : ascii) :
  prev_after prev (a ++ [c]) = Some c.
Proof. unfold prev_after. now rewrite rev_app_distr. Qed.

Lemma prev_after_cons (prev : option ascii) (c : ascii) (a : list ascii) :
  prev_after (Some c) a = prev_after prev (c :: a).
Proof.
  unfold prev_after. cbn [rev].
  destruct (rev a) as [|x l]; reflexivity.
Qed.

(** A search succeeds exactly when the pattern matches at some position. *)
Lemma search_from_true (ml : bool) (r : Re.regex) (prev : option ascii)
    (s : list ascii) :
  Re.search_from ml r prev s = true
  <-> exists a b, s = a ++ b
        /\ Re.run ml r (prev_after prev a) b Re.accept <> None.
Proof.
  revert prev. induction s as [|c s IH]; intros prev; cbn [Re.search_from].
  - destruct (Re.run ml r prev [] Re.accept) eqn:E.
    + split; [|reflexivity]. intros _. exists [], []. split; [reflexivity|].
      cbn. congruence.
    + split; [discriminate|]. intros (a & b & Hab & Hrun).
      symmetry in Hab. apply app_eq_nil in Hab as [-> ->]. cbn in Hrun.
      congruence.
  - destruct (Re.run ml r prev (c :: s) Re.accept) eqn:E.
    + split; [|reflexivity]. intros _. exists [], (c :: s).
      split; [reflexivity|]. cbn. congruence.
    + rewrite IH. split.
      * intros (a & b & -> & Hrun). exists (c :: a), b.
        split; [reflexivity|]. now rewrite <- prev_after_cons.
      * intros (a & b & Hab & Hrun). destruct a as [|x a].
        -- cbn in Hab, Hrun. subst b. congruence.
        -- injection Hab as -> ->. exists a, b. split; [reflexivity|].
           now rewrite (prev_after_cons prev).
Qed.

Lemma at_bol_prev_after (a : list ascii) :
  Re.at_bol true (prev_after None a) = true
  <-> a = [] \/ exists a', a = a' ++ [Re.newline].
Proof.
  destruct a as [|c a] using rev_ind.
  - cbn. split; [now left | reflexivity].
  - rewrite prev_after_snoc. cbn [Re.at_bol andb]. rewrite is_chr_true.
    split.
    + intros ->. right. now exists a.
    + intros [H|[a' H]]; [now destruct a|].
      now apply app_inj_tail in H as [_ ->].
Qed.

Lemma equals_next_some (s : list ascii) :
  equals_next s <> None
  <-> exists ws post, s = ws ++ "="%char :: post
        /\ Forall (fun c => is_space c = true) ws.
Proof.
  unfold equals_next. split.
  - intros H. destruct (skip_split is_space s) as (ws & Hs & Hws).
    destruct (skip is_space s) as [|c rest]; [congruence|].
    destruct (code c =? code "="%char) eqn:E; [|congruence].
    apply Nat.eqb_eq, code_inj in E. subst c. now exists ws, rest.
  - intros (ws & post & -> & Hws).
    rewrite (skip_stop is_space ws ("="%char :: post) Hws); [|reflexivity].
    cbn. discriminate.
Qed.

(** The search for a field's pattern finds exactly the declarations of the
    field. *)
Lemma has_field_declares (field content : string) (f0 : ascii)
    (fs : list ascii) :
  chars field = f0 :: fs -> is_space f0 = false ->
  (has_field field content = true <-> declares_field field content).
Proof.
  intros Hfield Hf0. unfold has_field, Re.re_search, declares_field.
  rewrite search_from_true. split.
  - intros (a & b & Hab & Hrun).
    rewrite (run_field_re field f0 fs _ _ Hfield Hf0) in Hrun.
    unfold field_at in Hrun.
    destruct (Re.at_bol true (prev_after None a)) eqn:Hbol; [|congruence].
    apply at_bol_prev_after in Hbol.
    destruct (skip_split is_space b) as (ws1 & Hb & Hws1).
    destruct (strip (chars field) (skip is_space b)) as [s'|] eqn:Hstrip;
      [|congruence].
    apply strip_some in Hstrip.
    apply equals_next_some in Hrun as (ws2 & post & -> & Hws2).
    exists a, ws1, ws2, post. split; [|tauto].
    rewrite Hab, Hb at 1. now rewrite Hstrip.
  - intros (pre & ws1 & ws2 & post & Hc & Hpre & Hws1 & Hws2).
    exists pre, (ws1 ++ chars field ++ ws2 ++ "="%char :: post).
    split; [exact Hc|].
    rewrite (run_field_re field f0 fs _ _ Hfield Hf0). unfold field_at.
    rewrite (proj2 (at_bol_prev_after pre) Hpre).
    rewrite (skip_stop is_space ws1 _ Hws1);
      [|rewrite Hfield; cbn; exact Hf0].
    rewrite strip_app. apply equals_next_some. now exists ws2, post.
Qed.

Lemma checksum_field_declares (field content : string) :
  field ∈ checksum_fields ->
  (has_field field content = true <-> declares_field field content).
Proof.
  intros Hf. unfold checksum_fields in Hf.
  repeat (apply elem_of_cons in Hf as [->|Hf];
          [eapply has_field_declares; reflexivity|]).
  inversion Hf.
Qed.

Lemma checksum_fields_cases (content : string) :
  (has_field "md5sums" content = true <-> declares_field "md5sums" content)
  /\ (has_field "sha1sums" content = true
      <-> declares_field "sha1sums" content)
  /\ (has_field "sha256sums" content = true
      <-> declares_field "sha256sums" content)
  /\ (has_field "sha512sums" content = true
      <-> declares_field "sha512sums" content).
Proof.
  repeat split; try (apply checksum_field_declares);
    try (apply checksum_field_declares; unfold checksum_fields);
    repeat first [apply elem_of_cons; left; reflexivity
                 |apply list_elem_of_further].
Qed.

(** C7.  When the manifest declares none of md5sums, sha1sums, sha256sums
    and sha512sums, the check appends the HIGH no-integrity-verification
    finding and nothing else.  When it declares one of them, that finding
    is not appended and nothing HIGH is; and when it declares md5sums or
    sha1sums (so in particular when it declares only these), the check
    appends the MEDIUM weak-hash finding, naming the weak fields found. *)
Theorem C7_integrity_findings (content : string)
    (fs : list SecurityFinding) :
  ((forall field, field ∈ checksum_fields ->
                  ~ declares_field field content) ->
   _check_integrity_verification content fs = fs ++ [no_integrity_finding]
   /\ risk_level no_integrity_finding = HIGH)
  /\ ((exists field, field ∈ checksum_fields
                     /\ declares_field field content) ->
      exists added,
        _check_integrity_verification content fs = fs ++ added
        /\ ~ In no_integrity_finding added
        /\ Forall (fun f => risk_level f <> HIGH) added)
  /\ (declares_field "md5sums" content \/ declares_field "sha1sums" content ->
      exists weak,
        _check_integrity_verification content fs
        = fs ++ [weak_hash_finding weak]
        /\ risk_level (weak_hash_finding weak) = MEDIUM
        /\ weak = List.filter (fun f => has_field f content)
                    ["md5sums"; "sha1sums"]).
Proof.
  destruct (checksum_fields_cases content) as (Hmd5 & Hsha1 & H256 & H512).
  unfold _check_integrity_verification, checksum_fields.
  cbn [List.filter].
  split; [|split].
  - intros Hnone.
    assert (E1 : has_field "md5sums" content = false).
    { destruct (has_field "md5sums" content); [|reflexivity].
      exfalso. apply (Hnone "md5sums"); [|now apply Hmd5].
      apply elem_of_cons. now left. }
    assert (E2 : has_field "sha1sums" content = false).
    { destruct (has_field "sha1sums" content); [|reflexivity].
      exfalso. apply (Hnone "sha1sums"); [|now apply Hsha1].
      do 1 apply list_elem_of_further. apply elem_of_cons. now left. }
    assert (E3 : has_field "sha256sums" content = false).
    { destruct (has_field "sha256sums" content); [|reflexivity].
      exfalso. apply (Hnone "sha256sums"); [|now apply H256].
      do 2 apply list_elem_of_further. apply elem_of_cons. now left. }
    assert (E4 : has_field "sha512sums" content = false).
    { destruct (has_field "sha512sums" content); [|reflexivity].
      exfalso. apply (Hnone "sha512sums"); [|now apply H512].
      do 3 apply list_elem_of_further. apply elem_of_cons. now left. }
    rewrite E1, E2, E3, E4. split; reflexivity.
  - intros (field & Hin & Hdecl).
    apply (checksum_field_declares field content Hin) in Hdecl.
    unfold checksum_fields in Hin.
    destruct (has_field "md5sums" content) eqn:E1;
      destruct (has_field "sha1sums" content) eqn:E2;
      destruct (has_field "sha256sums" content) eqn:E3;
      destruct (has_field "sha512sums" content) eqn:E4;
      cbn;
      try (eexists [_]; split; [reflexivity|]; split;
           [intros [H|[]]; discriminate H
           |repeat constructor; discriminate]);
      try (exists []; split; [now rewrite app_nil_r|]; split;
           [intros [] | constructor]).
    exfalso.
    repeat (apply elem_of_cons in Hin as [->|Hin]; [congruence|]).
    inversion Hin.
  - intros Hweak.
    assert (Hw : has_field "md5sums" content = true
                 \/ has_field "sha1sums" content = true) by tauto.
    eexists. split; [|split; [reflexivity|reflexivity]].
    destruct (has_field "md5sums" content) eqn:E1;
      destruct (has_field "sha1sums" content) eqn:E2;
      destruct (has_field "sha256sums" content) eqn:E3;
      destruct (has_field "sha512sums" content) eqn:E4;
      try reflexivity;
      destruct Hw; discriminate.
Qed.

Lemma C7_witness :
  _check_integrity_verification "pkgname=x" [] = [no_integrity_finding]
  /\ exists weak,
       _check_integrity_verification "md5sums=('d41d8cd9')" []
       = [] ++ [weak_hash_finding weak]
       /\ risk_level (weak_hash_finding weak) = MEDIUM
       /\ weak = List.filter (fun f => has_field f "md5sums=('d41d8cd9')")
                   ["md5sums"; "sha1sums"].
Proof.
  split.
  - apply (C7_integrity_findings "pkgname=x" []).
    intros field Hin Hdecl.
    apply (checksum_field_declares field "pkgname=x" Hin) in Hdecl.
    unfold checksum_fields in Hin.
    repeat (apply elem_of_cons in Hin as [->|Hin];
            [vm_compute in Hdecl; discriminate Hdecl|]).
    inversion Hin.
  - apply (C7_integrity_findings "md5sums=('d41d8cd9')" []).
    left. exists [], [], [], (chars "('d41d8cd9')").
    split; [reflexivity|]. split; [now left|]. split; constructor.
Defined.

(* ===================================================================== *)
(** * Dependency specs *)
(* ===================================================================== *)

Lemma run_dep_pattern (cs : list ascii) :
  Re.run false dep_pattern None cs Re.accept
  = match cs with
    | c :: cs' => if dep_char c then Some (skip dep_char cs') else None
    | [] => None
    end.
Proof.
  destruct cs as [|c cs]; [reflexivity|].
  change (Re.run false dep_pattern None (c :: cs) Re.accept)
    with (if dep_char c
          then Re.run false (Re.Star (Re.Cls dep_char)) (Some c) cs Re.accept
          else None).
  destruct (dep_char c); [|reflexivity].
  now rewrite run_star_cls, greedy_accept.
Qed.

(** The stripping step returns the longest prefix inside [[\w.-]]: a name
    inside that class comes back whole when nothing or a character outside
    the class follows it. *)
Lemma strip_recovers (nm suffix : list ascii) :
  nm <> [] ->
  Forall (fun c => dep_char c = true) nm ->
  match suffix with [] => True | c :: _ => dep_char c = false end ->
  Re.re_match false dep_pattern (text (nm ++ suffix)) = Some (text nm).
Proof.
  intros Hne Hall Hsuffix. unfold Re.re_match.
  rewrite chars_text, run_dep_pattern.
  destruct nm as [|c nm]; [congruence|].
  inversion Hall as [|? ? Hc Hrest]; subst. cbn [app]. rewrite Hc.
  rewrite (skip_stop dep_char nm suffix Hrest Hsuffix).
  f_equal. f_equal.
  replace (length (c :: nm ++ suffix) - length suffix) with (length (c :: nm))
    by (cbn [length]; rewrite length_app; lia).
  change (c :: nm ++ suffix) with ((c :: nm) ++ suffix).
  apply take_app_length.
Qed.

(** The characters of a valid package name other than the plus sign lie in
    the class; the comparators do not. *)
Lemma name_char_dep_char (c : ascii) :
  name_char c = true -> c <> "+"%char -> dep_char c = true.
Proof.
  unfold name_char, dep_char, is_word. intros H Hplus.
  destruct (is_lower c), (is_upper c), (is_digit c), (is_chr "." c) eqn:Ed,
    (is_chr "_" c), (is_chr "-" c); cbn in *;
    rewrite ?orb_true_r; try reflexivity.
  rewrite orb_false_r in H. apply is_chr_true in H. contradiction.
Qed.

Lemma comparators_outside :
  dep_char ">" = false /\ dep_char "=" = false /\ dep_char "<" = false
  /\ dep_char "+" = false.
Proof. repeat split; reflexivity. Qed.

(** For a name without a plus sign the stripping step is right: the name
    comes back from a spec with a version suffix, and from the bare
    name. *)
Lemma strip_plain_name (nm suffix : string) :
  nm <> EmptyString ->
  Forall (fun c => name_char c = true /\ c <> "+"%char) (chars nm) ->
  suffix = EmptyString
  \/ (exists rest, suffix = String ">" rest)
  \/ (exists rest, suffix = String "=" rest)
  \/ (exists rest, suffix = String "<" rest) ->
  Re.re_match false dep_pattern (nm +:+ suffix) = Some nm.
Proof.
  intros Hne Hall Hsuffix.
  rewrite <- (text_chars (nm +:+ suffix)), chars_append.
  rewrite <- (text_chars nm) at 2.
  apply strip_recovers.
  - intros Hnil. apply Hne. rewrite <- (text_chars nm), Hnil. reflexivity.
  - eapply Forall_impl; [exact Hall|]. cbn. intros c [H1 H2].
    now apply name_char_dep_char.
  - destruct Hsuffix as [->|[[rest ->]|[[rest ->]|[rest ->]]]];
      cbn; auto.
Qed.

(** C6, at the failing input.  "libc++" is a name over the allowed
    character set, and the registry has a record for it; from the spec
    "libc++>=1.0" the stripping step recovers "libc", because the class
    [[\w.-]] has no plus sign, and it is "libc" that [visit] recurses into:
    the request fails for "libc". *)
Theorem C6_plus_sign_is_cut :
  Forall (fun c => name_char c = true) (chars "libc++")
  /\ Re.re_match false dep_pattern "libc++>=1.0" = Some "libc"
  /\ dep_names (mkAurInfo ["libc++>=1.0"] []) = ["libc"]
  /\ is_Some (aur tool_plus !! "libc++")
  /\ _resolve_aur_dependencies tool_plus (enough_fuel tool_plus) ["app"]
     = Raised (UnresolvedDependency "libc").
Proof.
  split; [repeat constructor|].
  split; [vm_compute; reflexivity|].
  split; [vm_compute; reflexivity|].
  split; [vm_compute; eauto|].
  vm_compute. reflexivity.
Qed.

(* ===================================================================== *)
(** * The resolver: what the list holds *)
(* ===================================================================== *)

Section Listed.

Variable self : PackageTool.

Lemma for_each_listed (body : string -> visit_state -> outcome visit_state)
    (P : string -> string -> Prop) (xs : list string) :
  (forall d s s', d ∈ xs -> body d s = Done s' ->
     forall x, x ∈ order s' -> x ∈ order s \/ P d x) ->
  forall st st',
    for_each body xs st = Done st' ->
    forall x, x ∈ order st' -> x ∈ order st \/ exists d, d ∈ xs /\ P d x.
Proof.
  induction xs as [|d xs IH]; intros Hbody st st' Hrun x Hx.
  - injection Hrun as <-. now left.
  - cbn [for_each] in Hrun.
    destruct (body d st) as [st1| |] eqn:Hd; try discriminate.
    destruct (IH (fun d' s s' Hin => Hbody d' s s' (list_elem_of_further _ _ _ Hin))
                 st1 st' Hrun x Hx) as [H|(d' & Hd' & HP)].
    + destruct (Hbody d st st1 (list_elem_of_here _ _) Hd x H) as [H'|H'];
        [now left|].
      right. exists d. split; [apply list_elem_of_here | exact H'].
    + right. exists d'. split; [now apply list_elem_of_further | exact HP].
Qed.

(** A call of [visit] adds to the list only packages that [pkg] reaches
    along followed dependencies and that have a registry record. *)
Lemma visit_listed (fuel : nat) :
  forall pkg st st',
    visit self fuel pkg st = Done st' ->
    forall x, x ∈ order st' ->
      x ∈ order st
      \/ (rtc (followed self) pkg x /\ is_Some (aur self !! x)).
Proof.
  induction fuel as [|fuel IH]; intros pkg st st' Hrun x Hx; [discriminate|].
  cbn [visit] in Hrun.
  destruct (bool_decide (pkg ∈ localdb self)) eqn:Hloc.
  { injection Hrun as <-. now left. }
  destruct (bool_decide (pkg ∈ order st)) eqn:Hord.
  { injection Hrun as <-. now left. }
  cbn [orb] in Hrun. apply bool_decide_eq_false in Hloc.
  destruct (bool_decide (pkg ∈ visited st)); [discriminate|].
  destruct (aur self !! pkg) as [info|] eqn:Hinfo; [|discriminate].
  match type of Hrun with
  | context [for_each ?body ?xs ?st1] =>
      destruct (for_each body xs st1) as [st2| |] eqn:Hloop;
      try discriminate;
      pose proof (for_each_listed body
                    (fun d x => _is_in_repos self d = false
                                /\ rtc (followed self) d x
                                /\ is_Some (aur self !! x))
                    xs) as Hlisted
  end.
  injection Hrun as <-. cbn [order] in Hx.
  apply elem_of_app in Hx as [Hx|Hx].
  - destruct (Hlisted) with (st := mkVisit (order st) ({[pkg]} ∪ visited st))
                             (st' := st2) (x := x)
      as [H|(d & Hd & Hrepo & Hreach & Hsome)]; try assumption.
    + intros d s s' Hd Hbody y Hy.
      destruct (_is_in_repos self d) eqn:Hrepo; cbn [negb] in Hbody.
      * injection Hbody as <-. now left.
      * destruct (IH _ _ _ Hbody y Hy) as [H|[H1 H2]]; [now left|].
        right. tauto.
    + now left.
    + right. split; [|exact Hsome].
      eapply rtc_l; [|exact Hreach].
      split; [exact Hloc|]. split; [now exists info | exact Hrepo].
  - apply list_elem_of_singleton in Hx as ->. right.
    split; [apply rtc_refl | now rewrite Hinfo].
Qed.

Lemma resolve_listed (fuel : nat) (names order : list string) :
  _resolve_aur_dependencies self fuel names = Done order ->
  forall x, x ∈ order ->
    reachable self names x /\ is_Some (aur self !! x).
Proof.
  unfold _resolve_aur_dependencies. intros Hrun x Hx.
  destruct (for_each (visit self fuel) names (mkVisit [] ∅))
    as [st| |] eqn:Hloop; try discriminate.
  injection Hrun as <-.
  destruct (for_each_listed (visit self fuel)
              (fun n x => rtc (followed self) n x /\ is_Some (aur self !! x))
              names) with (st := mkVisit [] ∅) (st' := st) (x := x)
    as [H|(n & Hn & Hreach & Hsome)]; try assumption.
  - intros d s s' _. apply visit_listed.
  - cbn in H. inversion H.
  - split; [now exists n | exact Hsome].
Qed.

Lemma reachable_not_in_repos (names : list string) (x : string) :
  reachable self names x -> x ∈ names \/ _is_in_repos self x = false.
Proof.
  intros (n & Hn & Hreach).
  apply rtc_inv_r in Hreach as [<-|(y & _ & (_ & _ & Hx))]; tauto.
Qed.

End Listed.

(** X1.  Whatever [_resolve_aur_dependencies] returns holds nothing
    unrelated: every listed package is reached from a requested name along
    followed dependencies, has a registry record, and is a requested name
    or a package that no sync database holds. *)
Theorem resolve_lists_only_reached (self : PackageTool) (fuel : nat)
    (names order : list string) (x : string) :
  _resolve_aur_dependencies self fuel names = Done order ->
  x ∈ order ->
  reachable self names x
  /\ is_Some (aur self !! x)
  /\ (x ∈ names \/ _is_in_repos self x = false).
Proof.
  intros Hrun Hx.
  destruct (resolve_listed self fuel names order Hrun x Hx) as [Hreach Hsome].
  split; [exact Hreach|]. split; [exact Hsome|].
  now apply reachable_not_in_repos.
Qed.

Lemma resolve_lists_only_reached_witness :
  reachable tool_chain ["x"] "y"
  /\ is_Some (aur tool_chain !! "y")
  /\ ("y" ∈ ["x"] \/ _is_in_repos tool_chain "y" = false).
Proof.
  apply (resolve_lists_only_reached tool_chain 3 ["x"] ["y"; "x"] "y").
  - vm_compute. reflexivity.
  - apply list_elem_of_here.
Defined.



Lemma visit_installed (self : PackageTool) (fuel : nat) (pkg : string)
    (st : visit_state) :
  pkg ∈ localdb self -> visit self (S fuel) pkg st = Done st.
Proof.
  intros Hin. cbn [visit]. now rewrite (bool_decide_eq_true_2 _ Hin).
Qed.

Lemma for_each_skip_installed (self : PackageTool) (fuel : nat)
    (names : list string) (st : visit_state) :
  for_each (visit self (S fuel)) names st
  = for_each (visit self (S fuel)) (not_installed_names self names) st.
Proof.
  revert st. induction names as [|n names IH]; intros st; [reflexivity|].
  unfold not_installed_names in *. cbn [List.filter].
  destruct (bool_decide (n ∈ localdb self)) eqn:Hn; cbn [negb].
  - apply bool_decide_eq_true in Hn. cbn [for_each].
    rewrite (visit_installed self fuel n st Hn). apply IH.
  - cbn [for_each]. destruct (visit self (S fuel) n st); auto.
Qed.

Lemma not_installed_names_nil (self : PackageTool) (names : list string) :
  (forall n, n ∈ names -> installed self n) ->
  not_installed_names self names = [].
Proof.
  unfold not_installed_names.
  induction names as [|n names IH]; intros Hall; [reflexivity|].
  cbn [List.filter].
  rewrite (bool_decide_eq_true_2 _ (Hall n (list_elem_of_here _ _))).
  cbn [negb]. apply IH. intros m Hm. apply Hall. now apply list_elem_of_further.
Qed.

(** X3.  Requested names that are installed count for nothing: the
    resolver gives the same result with and without them, and a request of
    installed names only gives the empty list. *)
Theorem resolve_skips_installed (self : PackageTool) (fuel : nat)
    (names : list string) :
  0 < fuel ->
  _resolve_aur_dependencies self fuel names
  = _resolve_aur_dependencies self fuel (not_installed_names self names)
  /\ ((forall n, n ∈ names -> installed self n) ->
      _resolve_aur_dependencies self fuel names = Done []).
Proof.
  intros Hfuel. destruct fuel as [|fuel]; [lia|].
  assert (Heq : _resolve_aur_dependencies self (S fuel) names
                = _resolve_aur_dependencies self (S fuel)
                    (not_installed_names self names)).
  { unfold _resolve_aur_dependencies. now rewrite for_each_skip_installed. }
  split; [exact Heq|].
  intros Hall. rewrite Heq, (not_installed_names_nil self names Hall).
  reflexivity.
Qed.

Lemma resolve_skips_installed_witness :
  _resolve_aur_dependencies tool_chain 3 ["z"; "x"]
  = _resolve_aur_dependencies tool_chain 3
      (not_installed_names tool_chain ["z"; "x"])
  /\ ((forall n, n ∈ ["z"; "x"] -> installed tool_chain n) ->
      _resolve_aur_dependencies tool_chain 3 ["z"; "x"] = Done []).
Proof.
  apply (resolve_skips_installed tool_chain 3 ["z"; "x"]). lia.
Defined.

(* ===================================================================== *)
(** * The registry cache *)
(* ===================================================================== *)

Lemma answers_lookup (names : list string) (cache : gmap string AurInfo)
    (n : string) :
  (list_to_map (map (fun name => (name, cache !! name)) names)
     : gmap string (option AurInfo)) !! n
  = if bool_decide (n ∈ names) then Some (cache !! n) else None.
Proof.
  induction names as [|m names IH]; [reflexivity|].
  cbn [map list_to_map foldr]. rewrite lookup_insert. cbn [fst snd].
  destruct (decide (m = n)) as [->|Hne].
  - rewrite bool_decide_eq_true_2; [reflexivity | apply list_elem_of_here].
  - rewrite IH. destruct (bool_decide (n ∈ names)) eqn:E.
    + apply bool_decide_eq_true in E.
      rewrite bool_decide_eq_true_2; [reflexivity|].
      now apply list_elem_of_further.
    + apply bool_decide_eq_false in E.
      rewrite bool_decide_eq_false_2; [reflexivity|].
      intros H. apply elem_of_cons in H as [H|H]; congruence.
Qed.

Lemma store_results_keeps (results : list AurResult)
    (cache : gmap string AurInfo) (n : string) :
  is_Some (cache !! n) -> is_Some (store_results results cache !! n).
Proof.
  revert cache. induction results as [|r results IH]; intros cache H;
    [exact H|].
  cbn [store_results fold_left]. apply IH. rewrite lookup_insert.
  destruct (decide (res_name r = n)); [eauto | exact H].
Qed.

Lemma store_results_has (results : list AurResult)
    (cache : gmap string AurInfo) (r : AurResult) :
  r ∈ results -> is_Some (store_results results cache !! res_name r).
Proof.
  revert cache. induction results as [|r' results IH]; intros cache Hr.
  - inversion Hr.
  - cbn [store_results fold_left].
    apply elem_of_cons in Hr as [->|Hr]; [|now apply IH].
    apply store_results_keeps. rewrite lookup_insert_eq. eauto.
Qed.

Lemma store_results_subseteq (results : list AurResult)
    (cache registry : gmap string AurInfo) :
  cache ⊆ registry ->
  (forall r, r ∈ results -> registry !! res_name r = Some (res_info r)) ->
  store_results results cache ⊆ registry.
Proof.
  revert cache. induction results as [|r results IH]; intros cache Hc Hr;
    [exact Hc|].
  cbn [store_results fold_left]. apply IH.
  - apply insert_subseteq_l; [|exact Hc]. apply Hr, list_elem_of_here.
  - intros r' Hr'. apply Hr. now apply list_elem_of_further.
Qed.

Lemma needed_spec (cache : gmap string AurInfo) (names : list string)
    (n : string) :
  n ∈ List.filter (fun name => bool_decide (cache !! name = None)) names
  <-> n ∈ names /\ cache !! n = None.
Proof.
  induction names as [|m names IH]; cbn [List.filter].
  - split; [intros H; inversion H | intros [H _]; inversion H].
  - destruct (bool_decide (cache !! m = None)) eqn:E.
    + apply bool_decide_eq_true in E. rewrite !elem_of_cons, IH.
      split; [intros [->|[? ?]]; auto | intros [[->|?] ?]; auto].
    + apply bool_decide_eq_false in E. rewrite elem_of_cons, IH.
      split; [intros [? ?]; auto | intros [[->|?] ?]; [congruence | auto]].
Qed.

(** X4.  [_get_aur_info] asks the registry only for names that were
    requested and are not in the cache; when every requested name is in
    the cache it makes no request at all, leaves the cache as it is, and
    answers each name with its cached record.  Names cached before a call
    are still cached after it, and the returned dict has an entry for the
    requested names and for no other. *)
Theorem get_aur_info_uses_cache
    (rpc : list string -> option (list AurResult))
    (cache : gmap string AurInfo) (names : list string) :
  (forall asked n,
      requested (_get_aur_info rpc cache names) = Some asked ->
      n ∈ asked -> n ∈ names /\ cache !! n = None)
  /\ ((forall n, n ∈ names -> is_Some (cache !! n)) ->
      requested (_get_aur_info rpc cache names) = None
      /\ cache_after (_get_aur_info rpc cache names) = cache
      /\ forall n, n ∈ names ->
           answers (_get_aur_info rpc cache names) !! n
           = Some (cache !! n))
  /\ (forall n, is_Some (cache !! n) ->
        is_Some (cache_after (_get_aur_info rpc cache names) !! n))
  /\ (forall n,
        is_Some (answers (_get_aur_info rpc cache names) !! n)
        <-> n ∈ names).
Proof.
  unfold _get_aur_info.
  pose proof (needed_spec cache names) as Hneeded.
  destruct (List.filter _ names) as [|m needed] eqn:Hf.
  - cbn [requested cache_after answers].
    split; [discriminate|]. split; [|split].
    + intros _. split; [reflexivity|]. split; [reflexivity|].
      intros n Hn. rewrite answers_lookup.
      now rewrite bool_decide_eq_true_2.
    + auto.
    + intros n. rewrite answers_lookup.
      destruct (bool_decide (n ∈ names)) eqn:E.
      * apply bool_decide_eq_true in E. split; eauto.
      * apply bool_decide_eq_false in E.
        split; [intros [? ?]; discriminate | tauto].
  - assert (Hm : m ∈ names /\ cache !! m = None)
      by (apply Hneeded, list_elem_of_here).
    destruct (rpc (m :: needed)) as [results|];
      cbn [requested cache_after answers].
    + split; [|split; [|split]].
      * intros asked n [= <-] Hn. now apply Hneeded.
      * intros Hall. destruct Hm as [Hm1 Hm2].
        destruct (Hall m Hm1) as [? ?]. congruence.
      * intros n. apply store_results_keeps.
      * intros n. rewrite answers_lookup.
        destruct (bool_decide (n ∈ names)) eqn:E.
        -- apply bool_decide_eq_true in E. split; eauto.
        -- apply bool_decide_eq_false in E.
           split; [intros [? ?]; discriminate | tauto].
    + split; [|split; [|split]].
      * intros asked n [= <-] Hn. now apply Hneeded.
      * intros Hall. destruct Hm as [Hm1 Hm2].
        destruct (Hall m Hm1) as [? ?]. congruence.
      * auto.
      * intros n. rewrite answers_lookup.
        destruct (bool_decide (n ∈ names)) eqn:E.
        -- apply bool_decide_eq_true in E. split; eauto.
        -- apply bool_decide_eq_false in E.
           split; [intros [? ?]; discriminate | tauto].
Qed.

Lemma get_aur_info_uses_cache_witness :
  requested (_get_aur_info (sample_rpc (aur tool_chain)) (aur tool_chain)
               ["x"; "y"]) = None
  /\ cache_after (_get_aur_info (sample_rpc (aur tool_chain))
                    (aur tool_chain) ["x"; "y"]) = aur tool_chain
  /\ forall n, n ∈ ["x"; "y"] ->
       answers (_get_aur_info (sample_rpc (aur tool_chain))
                  (aur tool_chain) ["x"; "y"]) !! n
       = Some (aur tool_chain !! n).
Proof.
  apply (get_aur_info_uses_cache (sample_rpc (aur tool_chain))
           (aur tool_chain) ["x"; "y"]).
  intros n Hn.
  repeat (apply elem_of_cons in Hn as [->|Hn]; [vm_compute; eauto|]).
  inversion Hn.
Defined.

(** X5.  When the request fails, the cache is left as it was and every
    requested name that was not cached is answered with nothing; the
    failure itself is only reported. *)
Theorem get_aur_info_request_fails
    (rpc : list string -> option (list AurResult))
    (cache : gmap string AurInfo) (names asked : list string) :
  requested (_get_aur_info rpc cache names) = Some asked ->
  rpc asked = None ->
  network_error (_get_aur_info rpc cache names) = true
  /\ cache_after (_get_aur_info rpc cache names) = cache
  /\ (forall n, n ∈ names ->
        answers (_get_aur_info rpc cache names) !! n = Some (cache !! n))
  /\ (forall n, n ∈ asked ->
        answers (_get_aur_info rpc cache names) !! n = Some None).
Proof.
  unfold _get_aur_info.
  pose proof (needed_spec cache names) as Hneeded.
  destruct (List.filter _ names) as [|m needed] eqn:Hf;
    [discriminate|].
  destruct (rpc (m :: needed)) as [results|] eqn:Hrpc;
    cbn [requested cache_after answers network_error];
    intros [= <-] Hfail; [congruence|].
  split; [reflexivity|]. split; [reflexivity|]. split.
  - intros n Hn. rewrite answers_lookup. now rewrite bool_decide_eq_true_2.
  - intros n Hn. apply Hneeded in Hn as [Hn Hnone].
    rewrite answers_lookup, bool_decide_eq_true_2 by exact Hn.
    now rewrite Hnone.
Qed.

Lemma get_aur_info_request_fails_witness :
  network_error (_get_aur_info (fun _ => None) ∅ ["x"]) = true
  /\ cache_after (_get_aur_info (fun _ => None) ∅ ["x"]) = ∅
  /\ (forall n, n ∈ ["x"] ->
        answers (_get_aur_info (fun _ => None) ∅ ["x"]) !! n
        = Some ((∅ : gmap string AurInfo) !! n))
  /\ (forall n, n ∈ ["x"] ->
        answers (_get_aur_info (fun _ => None) ∅ ["x"]) !! n = Some None).
Proof.
  apply (get_aur_info_request_fails (fun _ => None) ∅ ["x"] ["x"]);
    reflexivity.
Defined.

(** X6.  With a request function that answers from a registry and a cache
    that agrees with the registry, the cache still agrees with it after a
    call, and a call whose request did not fail answers every requested
    name with exactly the registry's record: the record for a known name,
    nothing for an unknown one.  (Unknown names are never cached, so they
    are asked for again by the next call.) *)
Theorem get_aur_info_answers_registry
    (rpc : list string -> option (list AurResult))
    (registry cache : gmap string AurInfo) (names : list string) :
  serves rpc registry ->
  cache ⊆ registry ->
  cache_after (_get_aur_info rpc cache names) ⊆ registry
  /\ (network_error (_get_aur_info rpc cache names) = false ->
      forall n, n ∈ names ->
        answers (_get_aur_info rpc cache names) !! n
        = Some (registry !! n))
  /\ (forall n, registry !! n = None ->
        cache_after (_get_aur_info rpc cache names) !! n = None).
Proof.
  intros Hserves Hcache. unfold _get_aur_info.
  pose proof (needed_spec cache names) as Hneeded.
  assert (Hagree : forall c : gmap string AurInfo,
             c ⊆ registry ->
             forall n, is_Some (c !! n) -> c !! n = registry !! n).
  { intros c Hc n [info Hinfo]. rewrite Hinfo. symmetry.
    eapply lookup_weaken; eassumption. }
  assert (Hnone : forall c : gmap string AurInfo,
             c ⊆ registry ->
             forall n, registry !! n = None -> c !! n = None).
  { intros c Hc n Hn. destruct (c !! n) as [info|] eqn:E; [|reflexivity].
    pose proof (lookup_weaken _ _ _ _ E Hc). congruence. }
  destruct (List.filter _ names) as [|m needed] eqn:Hf.
  - cbn [requested cache_after answers network_error].
    split; [exact Hcache|]. split; [|now apply Hnone].
    intros _ n Hn. rewrite answers_lookup, bool_decide_eq_true_2 by exact Hn.
    f_equal. apply Hagree; [exact Hcache|].
    destruct (cache !! n) eqn:E; [eauto|].
    assert (Hin : n ∈ @nil string) by (apply Hneeded; tauto).
    inversion Hin.
  - destruct (rpc (m :: needed)) as [results|] eqn:Hrpc;
      cbn [requested cache_after answers network_error].
    + destruct (Hserves _ _ Hrpc) as [Hres Hall].
      assert (Hsub : store_results results cache ⊆ registry)
        by now apply store_results_subseteq.
      split; [exact Hsub|]. split; [|now apply Hnone].
      intros _ n Hn. rewrite answers_lookup, bool_decide_eq_true_2 by exact Hn.
      f_equal.
      destruct (registry !! n) as [info|] eqn:Hreg.
      * rewrite <- Hreg. apply Hagree; [exact Hsub|].
        destruct (cache !! n) eqn:E.
        -- apply store_results_keeps. rewrite E. eauto.
        -- destruct (Hall n) as (r & Hr & <-).
           ++ apply Hneeded. tauto.
           ++ rewrite Hreg. eauto.
           ++ now apply store_results_has.
      * now apply Hnone.
    + split; [exact Hcache|]. split; [discriminate | now apply Hnone].
Qed.

Lemma sample_rpc_serves (registry : gmap string AurInfo) :
  serves (sample_rpc registry) registry.
Proof.
  intros names results [= <-]. split.
  - intros r Hr. apply list_elem_of_omap in Hr as (n & _ & Hn).
    destruct (registry !! n) as [info|] eqn:E; [|discriminate].
    cbn in Hn. injection Hn as <-. exact E.
  - intros n Hn [info Hinfo]. exists (mkAurResult n info). split; [|reflexivity].
    apply list_elem_of_omap. exists n. split; [exact Hn|].
    now rewrite Hinfo.
Qed.

Lemma get_aur_info_answers_registry_witness :
  cache_after (_get_aur_info (sample_rpc (aur tool_unknown)) ∅
                 ["app"; "ghost"]) ⊆ aur tool_unknown
  /\ (network_error (_get_aur_info (sample_rpc (aur tool_unknown)) ∅
                       ["app"; "ghost"]) = false ->
      forall n, n ∈ ["app"; "ghost"] ->
        answers (_get_aur_info (sample_rpc (aur tool_unknown)) ∅
                   ["app"; "ghost"]) !! n
        = Some (aur tool_unknown !! n))
  /\ (forall n, aur tool_unknown !! n = None ->
        cache_after (_get_aur_info (sample_rpc (aur tool_unknown)) ∅
                       ["app"; "ghost"]) !! n = None).
Proof.
  apply (get_aur_info_answers_registry (sample_rpc (aur tool_unknown))
           (aur tool_unknown) ∅ ["app"; "ghost"]).
  - apply sample_rpc_serves.
  - apply map_empty_subseteq.
Defined.

(* ===================================================================== *)
(** * run_install and run_remove *)
(* ===================================================================== *)

Lemma insert_sorted_elem (a x : string) (l : list string) :
  x ∈ insert_sorted a l <-> x = a \/ x ∈ l.
Proof.
  induction l as [|y l IH]; cbn [insert_sorted].
  - rewrite list_elem_of_singleton. split; [tauto|].
    intros [H|H]; [exact H | inversion H].
  - destruct (String.leb a y).
    + now rewrite elem_of_cons.
    + rewrite !elem_of_cons, IH. tauto.
Qed.

Lemma sorted_elem (x : string) (l : list string) : x ∈ sorted l <-> x ∈ l.
Proof.
  induction l as [|a l IH]; [reflexivity|].
  cbn [sorted fold_right]. fold (sorted l).
  now rewrite insert_sorted_elem, elem_of_cons, IH.
Qed.

Lemma insert_sorted_nodup (a : string) (l : list string) :
  a ∉ l -> NoDup l -> NoDup (insert_sorted a l).
Proof.
  induction l as [|y l IH]; intros Ha Hnd; cbn [insert_sorted].
  - apply NoDup_singleton.
  - destruct (String.leb a y); [now apply NoDup_cons|].
    apply NoDup_cons in Hnd as [Hy Hnd]. apply not_elem_of_cons in Ha as [? ?].
    apply NoDup_cons. split; [|now apply IH].
    rewrite insert_sorted_elem. intros [->|?]; tauto.
Qed.

Lemma sorted_nodup (l : list string) : NoDup l -> NoDup (sorted l).
Proof.
  induction 1 as [|a l Ha Hnd IH]; [apply NoDup_nil_2|].
  cbn [sorted fold_right]. fold (sorted l).
  apply insert_sorted_nodup; [now rewrite sorted_elem | exact IH].
Qed.

Lemma insert_sorted_sorted (a : string) (l : list string) :
  Sorted str_le l -> Sorted str_le (insert_sorted a l).
Proof.
  induction l as [|y l IH]; intros Hs; cbn [insert_sorted].
  - repeat constructor.
  - destruct (String.leb a y) eqn:E.
    + constructor; [exact Hs | now constructor].
    + apply Sorted_inv in Hs as [Hs Hhd]. constructor; [now apply IH|].
      assert (Hya : str_le y a).
      { destruct (String.leb_total a y) as [H|H]; [congruence | exact H]. }
      destruct l as [|z l]; cbn [insert_sorted].
      * now constructor.
      * destruct (String.leb a z); constructor; [exact Hya|].
        now apply HdRel_inv in Hhd.
Qed.

Lemma sorted_sorted (l : list string) : Sorted str_le (sorted l).
Proof.
  induction l as [|a l IH]; [constructor|].
  cbn [sorted fold_right]. fold (sorted l). now apply insert_sorted_sorted.
Qed.

Lemma filter_elem {A} (f : A -> bool) (l : list A) (x : A) :
  x ∈ List.filter f l <-> x ∈ l /\ f x = true.
Proof.
  rewrite !list_elem_of_In. apply filter_In.
Qed.

Lemma filter_nodup {A} (f : A -> bool) (l : list A) :
  NoDup l -> NoDup (List.filter f l).
Proof.
  induction 1 as [|a l Ha Hnd IH]; cbn [List.filter]; [apply NoDup_nil_2|].
  destruct (f a); [|exact IH].
  apply NoDup_cons. split; [|exact IH]. rewrite filter_elem. tauto.
Qed.

Lemma to_process_elem (self : PackageTool) (package_names : gset string)
    (n : string) :
  n ∈ to_process self package_names
  <-> n ∈ package_names /\ ~ installed self n.
Proof.
  unfold to_process, not_installed_names, installed.
  rewrite filter_elem, elem_of_elements, negb_true_iff.
  now rewrite bool_decide_eq_false.
Qed.

Lemma to_process_nodup (self : PackageTool) (package_names : gset string) :
  NoDup (to_process self package_names).
Proof. apply filter_nodup, NoDup_elements. Qed.

Lemma repo_pkgs_elem (self : PackageTool) (package_names : gset string)
    (n : string) :
  n ∈ repo_pkgs self package_names
  <-> n ∈ package_names /\ ~ installed self n /\ _is_in_repos self n = true.
Proof.
  unfold repo_pkgs. rewrite sorted_elem, filter_elem, to_process_elem. tauto.
Qed.

Lemma aur_pkgs_initial_elem (self : PackageTool)
    (package_names : gset string) (n : string) :
  n ∈ aur_pkgs_initial self package_names
  <-> n ∈ package_names /\ ~ installed self n /\ _is_in_repos self n = false.
Proof.
  unfold aur_pkgs_initial.
  rewrite sorted_elem, filter_elem, to_process_elem, negb_true_iff,
    bool_decide_eq_false, repo_pkgs_elem.
  destruct (_is_in_repos self n); intuition congruence.
Qed.

(** X7.  [run_install] plans every requested package that is not installed
    exactly once: among the repository packages when a sync database holds
    it, among the names handed to the resolver otherwise; installed
    packages are in neither list.  Both lists are sorted and free of
    duplicates. *)
Theorem run_install_splits_request (self : PackageTool)
    (package_names : gset string) :
  (forall n,
      (n ∈ repo_pkgs self package_names
       <-> n ∈ package_names /\ ~ installed self n
           /\ _is_in_repos self n = true)
      /\ (n ∈ aur_pkgs_initial self package_names
          <-> n ∈ package_names /\ ~ installed self n
              /\ _is_in_repos self n = false)
      /\ ~ (n ∈ repo_pkgs self package_names
            /\ n ∈ aur_pkgs_initial self package_names))
  /\ NoDup (repo_pkgs self package_names)
  /\ NoDup (aur_pkgs_initial self package_names)
  /\ Sorted str_le (repo_pkgs self package_names)
  /\ Sorted str_le (aur_pkgs_initial self package_names).
Proof.
  split; [|split; [|split; [|split]]].
  - intros n. split; [apply repo_pkgs_elem|].
    split; [apply aur_pkgs_initial_elem|].
    rewrite repo_pkgs_elem, aur_pkgs_initial_elem.
    intros [(_ & _ & H1) (_ & _ & H2)]. congruence.
  - apply sorted_nodup, filter_nodup, to_process_nodup.
  - apply sorted_nodup, filter_nodup, to_process_nodup.
  - apply sorted_sorted.
  - apply sorted_sorted.
Qed.

Lemma built_app (a b : list action) : built (a ++ b) = built a ++ built b.
Proof. apply omap_app. Qed.

Lemma commands_app (a b : list action) :
  commands (a ++ b) = commands a ++ commands b.
Proof. apply omap_app. Qed.

Lemma built_says {A} (f : A -> message) (l : list A) :
  built (map (fun x => Say (f x)) l) = [].
Proof. induction l as [|x l IH]; [reflexivity | exact IH]. Qed.

Lemma commands_says {A} (f : A -> message) (l : list A) :
  commands (map (fun x => Say (f x)) l) = [].
Proof. induction l as [|x l IH]; [reflexivity | exact IH]. Qed.

(** After a resolution that returned, every name handed to the resolver
    has a registry record. *)
Lemma not_found_nil (self : PackageTool) (package_names : gset string)
    (order : list string) :
  _resolve_aur_dependencies self (enough_fuel self)
    (aur_pkgs_initial self package_names) = Done order ->
  List.filter (fun p => bool_decide (aur self !! p = None))
              (aur_pkgs_initial self package_names) = [].
Proof.
  intros Hrun.
  pose proof (resolve_spec self (enough_fuel self)
                (aur_pkgs_initial self package_names) (le_n _)) as Hspec.
  rewrite Hrun in Hspec. destruct Hspec as (_ & _ & _ & Hnames).
  destruct (List.filter _ _) as [|p l] eqn:Hf; [reflexivity|].
  exfalso.
  assert (Hp : p ∈ List.filter
                     (fun p => bool_decide (aur self !! p = None))
                     (aur_pkgs_initial self package_names))
    by (rewrite Hf; apply list_elem_of_here).
  apply filter_elem in Hp as [Hp Hnone]. apply bool_decide_eq_true in Hnone.
  destruct (Hnames p Hp) as [Hi|Hi].
  - apply aur_pkgs_initial_elem in Hp. tauto.
  - destruct (resolve_listed self _ _ _ Hrun p Hi) as [_ [info Hinfo]].
    congruence.
Qed.

(** The build loop on a list whose packages all have a record: it builds
    in order and stops at the first failure. *)
Lemma build_all_spec (self : PackageTool) (m : Machine)
    (order : list string) :
  (forall p, p ∈ order -> is_Some (aur self !! p)) ->
  commands (fst (build_all self m order)) = []
  /\ exists rest,
       order = built (fst (build_all self m order)) ++ rest
       /\ ((snd (build_all self m order) = Returned /\ rest = []
            /\ forall p, p ∈ order -> build_ok m p = true)
           \/ (snd (build_all self m order) = Exited 1
               /\ exists done p,
                    built (fst (build_all self m order)) = done ++ [p]
                    /\ build_ok m p = false
                    /\ forall q, q ∈ done -> build_ok m q = true)).
Proof.
  induction order as [|p order IH]; intros Hknown; cbn [build_all].
  - split; [reflexivity|]. exists []. split; [reflexivity|]. left.
    split; [reflexivity|]. split; [reflexivity|]. intros p Hp. inversion Hp.
  - destruct (Hknown p (list_elem_of_here _ _)) as [info ->].
    destruct (build_ok m p) eqn:Hp.
    + destruct IH as (Hc & rest & Horder & Hend).
      { intros q Hq. apply Hknown. now apply list_elem_of_further. }
      destruct (build_all self m order) as [actions e]. cbn [fst snd] in *.
      split; [exact Hc|]. exists rest.
      change (built (Build p :: actions)) with (p :: built actions).
      split; [cbn [app]; now rewrite <- Horder|].
      destruct Hend as [(-> & -> & Hall)|(-> & done & q & Hb & Hq & Hdone)].
      * left. split; [reflexivity|]. split; [reflexivity|].
        intros q Hq. apply elem_of_cons in Hq as [->|Hq]; auto.
      * right. split; [reflexivity|]. exists (p :: done), q.
        split; [cbn [app]; now rewrite Hb|]. split; [exact Hq|].
        intros x Hx. apply elem_of_cons in Hx as [->|Hx]; auto.
    + cbn [fst snd]. split; [reflexivity|]. exists order.
      split; [reflexivity|]. right. split; [reflexivity|].
      exists [], p. split; [reflexivity|]. split; [exact Hp|].
      intros q Hq. inversion Hq.
Qed.

Lemma build_all_quiet (self : PackageTool) (m : Machine)
    (order : list string) :
  existsb says_not_found (fst (build_all self m order)) = false.
Proof.
  induction order as [|p order IH]; cbn [build_all]; [reflexivity|].
  destruct (aur self !! p); [|reflexivity].
  destruct (build_ok m p); [|reflexivity].
  destruct (build_all self m order) as [actions e]. exact IH.
Qed.

Lemma notices_quiet {A} (f : A -> message) (l : list A) :
  (forall x, says_not_found (Say (f x)) = false) ->
  existsb says_not_found (map (fun x => Say (f x)) l) = false.
Proof.
  intros Hf. induction l as [|x l IH]; [reflexivity|].
  cbn [map existsb]. now rewrite Hf, IH.
Qed.

(** The shape of a run of [run_install] that is not a dry run: first
    messages and at most the one pacman command, then the build loop. *)
Lemma run_install_form (self : PackageTool) (m : Machine)
    (package_names : gset string) (noconfirm : bool) :
  exists Q B,
    fst (run_install self m false package_names noconfirm) = Q ++ B
    /\ built Q = []
    /\ commands B = []
    /\ existsb says_not_found (Q ++ B) = false
    /\ (commands Q = []
        \/ (repo_pkgs self package_names <> []
            /\ commands Q
               = [install_cmd noconfirm (repo_pkgs self package_names)]))
    /\ ((B = []
         /\ (snd (run_install self m false package_names noconfirm) = Returned
             \/ snd (run_install self m false package_names noconfirm)
                = Exited 1))
        \/ (exists order,
              _resolve_aur_dependencies self (enough_fuel self)
                (aur_pkgs_initial self package_names) = Done order
              /\ B = fst (build_all self m order)
              /\ snd (run_install self m false package_names noconfirm)
                 = snd (build_all self m order)
              /\ forall cmd, cmd ∈ commands Q -> pacman_ok m cmd = true)).
Proof.
  unfold run_install.
  set (notices := map (fun name => Say (AlreadyInstalled name)) _).
  assert (Hnb : built notices = []) by apply built_says.
  assert (Hnc : commands notices = []) by apply commands_says.
  assert (Hnq : existsb says_not_found notices = false)
    by (apply notices_quiet; reflexivity).
  destruct (to_process self package_names) as [|n0 rest0].
  { exists (notices ++ [Say AllInstalled]), []. cbn [fst snd].
    rewrite app_nil_r, built_app, commands_app, existsb_app, Hnb, Hnc, Hnq.
    repeat split; auto. }
  destruct (_resolve_aur_dependencies self (enough_fuel self)
              (aur_pkgs_initial self package_names))
    as [order|e|] eqn:Hres.
  2:{ exists (notices ++ [Say (ResolveError (error_message e))]), [].
      cbn [fst snd].
      rewrite app_nil_r, built_app, commands_app, existsb_app, Hnb, Hnc, Hnq.
      repeat split; auto. }
  2:{ eexists (notices ++ [Say (ResolveError _)]), []. cbn [fst snd].
      rewrite app_nil_r, built_app, commands_app, existsb_app, Hnb, Hnc, Hnq.
      repeat split; auto. }
  rewrite (not_found_nil self package_names order Hres).
  cbn match.
  set (planned := notices ++ [Say (Plan _ order)]).
  assert (Hpb : built planned = [])
    by (unfold planned; now rewrite built_app, Hnb).
  assert (Hpc : commands planned = [])
    by (unfold planned; now rewrite commands_app, Hnc).
  assert (Hpq : existsb says_not_found planned = false)
    by (unfold planned; now rewrite existsb_app, Hnq).
  assert (Hfin : forall P R : list action,
            match order with
            | [] => (P ++ R ++ [Say AllCompleted], Returned)
            | _ :: _ =>
                let '(builds, e) := build_all self m order in
                (P ++ R ++ builds, e)
            end
            = (P ++ R ++ fst (build_all self m order),
               snd (build_all self m order))).
  { intros P R. destruct order as [|p order']; [reflexivity|].
    now destruct (build_all self m (p :: order')). }
  assert (Hknown : forall p, p ∈ order -> is_Some (aur self !! p)).
  { intros p Hp. now destruct (resolve_listed self _ _ _ Hres p Hp). }
  destruct (build_all_spec self m order Hknown) as (Hbc & _).
  pose proof (build_all_quiet self m order) as Hbq.
  destruct (repo_pkgs self package_names) as [|r repo] eqn:Hrepo.
  - cbn match. rewrite Hfin. cbn [fst snd app].
    exists planned, (fst (build_all self m order)).
    rewrite existsb_app, Hpq, Hbq, Hpc.
    repeat split; auto. right. exists order.
    repeat split; auto. intros cmd Hcmd. inversion Hcmd.
  - cbn match.
    destruct (pacman_ok m (install_cmd noconfirm (r :: repo))) eqn:Hok.
    + cbn match. rewrite Hfin. cbn [fst snd]. rewrite app_assoc.
      exists (planned ++ [Say InstallingRepo;
                          Run (install_cmd noconfirm (r :: repo))]),
             (fst (build_all self m order)).
      rewrite !existsb_app, Hpq, Hbq, built_app, commands_app, Hpb, Hpc.
      repeat split; auto.
      right. exists order.
      repeat split; auto. cbn. intros cmd Hcmd.
      apply list_elem_of_singleton in Hcmd as ->. exact Hok.
    + cbn match.
      exists (planned ++ [Say InstallingRepo;
                          Run (install_cmd noconfirm (r :: repo));
                          Say PacmanFailed]), [].
      cbn [fst snd].
      rewrite app_nil_r, built_app, commands_app, existsb_app, Hpb, Hpc, Hpq.
      repeat split; auto.
Qed.

Lemma prefix_of_snoc {A} (pre post done : list A) (p p' q : A) :
  pre ++ p :: post = done ++ [p'] -> q ∈ pre -> q ∈ done.
Proof.
  revert done. induction pre as [|a pre IH]; intros done H Hq;
    [inversion Hq|].
  destruct done as [|d done].
  - cbn in H. injection H as _ H. destruct pre; discriminate.
  - cbn in H. injection H as -> H.
    apply elem_of_cons in Hq as [->|Hq]; [apply list_elem_of_here|].
    apply list_elem_of_further. now apply IH.
Qed.

(** X8.  A dry run of [run_install] runs no command and builds no package,
    whatever the request: it ends by returning or by [sys.exit(1)], and what
    it prints does not depend on the machine. *)
Theorem run_install_dry_run_is_inert (self : PackageTool) (m m' : Machine)
    (package_names : gset string) (noconfirm : bool) :
  commands (fst (run_install self m true package_names noconfirm)) = []
  /\ built (fst (run_install self m true package_names noconfirm)) = []
  /\ (snd (run_install self m true package_names noconfirm) = Returned
      \/ snd (run_install self m true package_names noconfirm) = Exited 1)
  /\ run_install self m true package_names noconfirm
     = run_install self m' true package_names noconfirm.
Proof.
  unfold run_install.
  set (notices := map (fun name => Say (AlreadyInstalled name)) _).
  assert (Hnb : built notices = []) by apply built_says.
  assert (Hnc : commands notices = []) by apply commands_says.
  destruct (to_process self package_names) as [|n0 rest0].
  { cbn [fst snd]. rewrite built_app, commands_app, Hnb, Hnc. auto. }
  destruct (_resolve_aur_dependencies self (enough_fuel self)
              (aur_pkgs_initial self package_names)) as [order|e|] eqn:Hres.
  - rewrite (not_found_nil self package_names order Hres). cbn [fst snd].
    rewrite !built_app, !commands_app, Hnb, Hnc. auto.
  - cbn [fst snd]. rewrite built_app, commands_app, Hnb, Hnc. auto.
  - cbn [fst snd]. rewrite built_app, commands_app, Hnb, Hnc. auto.
Qed.

(** X9.  A run of [run_install] that is not a dry run executes at most one
    pacman command, the installation of the repository packages, and only
    when there is one to install; it never reaches the exit for packages
    that are not found, because the resolver has stopped the run before;
    and the build loop never meets a package without a record. *)
Theorem run_install_one_pacman_command (self : PackageTool) (m : Machine)
    (package_names : gset string) (noconfirm : bool) :
  (commands (fst (run_install self m false package_names noconfirm)) = []
   \/ (repo_pkgs self package_names <> []
       /\ commands (fst (run_install self m false package_names noconfirm))
          = [install_cmd noconfirm (repo_pkgs self package_names)]))
  /\ existsb says_not_found
       (fst (run_install self m false package_names noconfirm)) = false
  /\ snd (run_install self m false package_names noconfirm) <> Crashed.
Proof.
  destruct (run_install_form self m package_names noconfirm)
    as (Q & B & -> & HQb & HBc & Hq & HQc & Hend).
  rewrite commands_app, HBc, app_nil_r.
  split; [|split; [exact Hq|]].
  - exact HQc.
  - destruct Hend as [(_ & [-> | ->])|(order & Hres & -> & -> & _)];
      try discriminate.
    assert (Hknown : forall p, p ∈ order -> is_Some (aur self !! p)).
    { intros p Hp. now destruct (resolve_listed self _ _ _ Hres p Hp). }
    destruct (build_all_spec self m order Hknown)
      as (_ & rest & _ & [(-> & _)|(-> & _)]); discriminate.
Qed.

(** X10.  [run_install] starts the build of a package only after pacman
    has installed the repository packages, after every earlier build has
    succeeded, and after every dependency the resolver follows from the
    package has been built, unless that dependency was installed from the
    start.  The package has a registry record and was not installed. *)
Theorem run_install_builds_after_dependencies (self : PackageTool)
    (m : Machine) (package_names : gset string) (noconfirm : bool)
    (pre post : list string) (p : string) :
  built (fst (run_install self m false package_names noconfirm))
  = pre ++ p :: post ->
  (forall cmd,
      cmd ∈ commands (fst (run_install self m false package_names noconfirm))
      -> pacman_ok m cmd = true)
  /\ (forall q, q ∈ pre -> build_ok m q = true)
  /\ (forall d, followed self p d -> installed self d \/ d ∈ pre)
  /\ ~ installed self p
  /\ is_Some (aur self !! p).
Proof.
  destruct (run_install_form self m package_names noconfirm)
    as (Q & B & -> & HQb & HBc & _ & _ & Hend).
  rewrite built_app, commands_app, HQb, HBc, app_nil_r. cbn [app].
  intros Hbuilt.
  destruct Hend as [(-> & _)|(order & Hres & -> & _ & Hok)];
    [destruct pre; discriminate|].
  assert (Hknown : forall p, p ∈ order -> is_Some (aur self !! p)).
  { intros x Hx. now destruct (resolve_listed self _ _ _ Hres x Hx). }
  pose proof (resolve_spec self (enough_fuel self)
                (aur_pkgs_initial self package_names) (le_n _)) as Hspec.
  rewrite Hres in Hspec. destruct Hspec as (_ & Hmissing & Hdeps & _).
  destruct (build_all_spec self m order Hknown)
    as (_ & rest & Horder & Hrun).
  rewrite Hbuilt in Horder, Hrun.
  assert (Hp : p ∈ order).
  { rewrite Horder, <- app_assoc. apply elem_of_app. right.
    apply list_elem_of_here. }
  split; [exact Hok|]. split; [|split; [|split; [now apply Hmissing|
                                                  now apply Hknown]]].
  - intros q Hq.
    destruct Hrun as [(_ & _ & Hall)|(_ & done & p' & Hsplit & _ & Hdone)].
    + apply Hall. rewrite Horder, <- app_assoc. apply elem_of_app. now left.
    + apply Hdone. exact (prefix_of_snoc _ _ _ _ _ _ Hsplit Hq).
  - intros d Hd.
    apply (Hdeps pre p (post ++ rest) d); [|exact Hd].
    rewrite Horder, <- app_assoc. reflexivity.
Qed.

Lemma run_install_builds_after_dependencies_witness :
  (forall cmd,
      cmd ∈ commands (fst (run_install tool_chain fine_machine false
                             {["x"]} true))
      -> pacman_ok fine_machine cmd = true)
  /\ (forall q, q ∈ ["y"] -> build_ok fine_machine q = true)
  /\ (forall d, followed tool_chain "x" d
                -> installed tool_chain d \/ d ∈ ["y"])
  /\ ~ installed tool_chain "x"
  /\ is_Some (aur tool_chain !! "x").
Proof.
  apply (run_install_builds_after_dependencies tool_chain fine_machine
           {["x"]} true ["y"] [] "x").
  vm_compute. reflexivity.
Defined.

(** X11.  When a run of [run_install] that is not a dry run returns, every
    requested package was installed from the start, or is named in the
    pacman command that succeeded, or was built with success. *)
Theorem run_install_returns_after_all (self : PackageTool) (m : Machine)
    (package_names : gset string) (noconfirm : bool) :
  snd (run_install self m false package_names noconfirm) = Returned ->
  forall n, n ∈ package_names ->
    installed self n
    \/ (exists cmd,
          cmd ∈ commands
                  (fst (run_install self m false package_names noconfirm))
          /\ n ∈ cmd /\ pacman_ok m cmd = true)
    \/ (n ∈ built (fst (run_install self m false package_names noconfirm))
        /\ build_ok m n = true).
Proof.
  intros Hret n Hn.
  destruct (decide (n ∈ localdb self)) as [Hi|Hi]; [now left|]. right.
  change (~ installed self n) in Hi.
  assert (Hproc : n ∈ to_process self package_names)
    by now apply to_process_elem.
  revert Hret. unfold run_install.
  set (notices := map (fun name => Say (AlreadyInstalled name)) _).
  assert (Hnb : built notices = []) by apply built_says.
  assert (Hnc : commands notices = []) by apply commands_says.
  destruct (to_process self package_names) as [|n0 rest0] eqn:Hto;
    [inversion Hproc|]. clear Hproc.
  destruct (_resolve_aur_dependencies self (enough_fuel self)
              (aur_pkgs_initial self package_names))
    as [order|e|] eqn:Hres; try discriminate.
  rewrite (not_found_nil self package_names order Hres). cbn match.
  set (planned := notices ++ [Say (Plan _ order)]).
  assert (Hpb : built planned = [])
    by (unfold planned; now rewrite built_app, Hnb).
  assert (Hpc : commands planned = [])
    by (unfold planned; now rewrite commands_app, Hnc).
  assert (Hfin : forall P R : list action,
            match order with
            | [] => (P ++ R ++ [Say AllCompleted], Returned)
            | _ :: _ =>
                let '(builds, e) := build_all self m order in
                (P ++ R ++ builds, e)
            end
            = (P ++ R ++ fst (build_all self m order),
               snd (build_all self m order))).
  { intros P R. destruct order as [|p order']; [reflexivity|].
    now destruct (build_all self m (p :: order')). }
  assert (Hknown : forall p, p ∈ order -> is_Some (aur self !! p)).
  { intros p Hp. now destruct (resolve_listed self _ _ _ Hres p Hp). }
  pose proof (resolve_spec self (enough_fuel self)
                (aur_pkgs_initial self package_names) (le_n _)) as Hspec.
  rewrite Hres in Hspec. destruct Hspec as (_ & _ & _ & Hnames).
  destruct (build_all_spec self m order Hknown)
    as (Hbc & rest & Horder & Hrun).
  assert (Haur : snd (build_all self m order) = Returned ->
                 _is_in_repos self n = false ->
                 n ∈ built (fst (build_all self m order))
                 /\ build_ok m n = true).
  { intros Hret Hrepo.
    destruct Hrun as [(_ & -> & Hall)|(Hexit & _)]; [|congruence].
    rewrite app_nil_r in Horder.
    assert (Hin : n ∈ order).
    { destruct (Hnames n) as [?|?]; [|tauto|assumption].
      apply aur_pkgs_initial_elem. tauto. }
    split; [now rewrite <- Horder | now apply Hall]. }
  destruct (_is_in_repos self n) eqn:Hrepo.
  - assert (Hnr : n ∈ repo_pkgs self package_names)
      by (apply repo_pkgs_elem; tauto).
    destruct (repo_pkgs self package_names) as [|r repo] eqn:Hrp;
      [inversion Hnr|].
    cbn match.
    destruct (pacman_ok m (install_cmd noconfirm (r :: repo))) eqn:Hok;
      cbn match; [|discriminate].
    rewrite Hfin. cbn [fst snd]. intros _. left.
    exists (install_cmd noconfirm (r :: repo)).
    rewrite !commands_app, Hpc. cbn [app].
    split; [apply list_elem_of_here|]. split; [|exact Hok].
    unfold install_cmd. apply elem_of_app. now right.
  - right.
    destruct (repo_pkgs self package_names) as [|r repo] eqn:Hrp.
    + cbn match in *. rewrite Hfin in *. cbn [fst snd] in *.
      rewrite !built_app, Hpb. cbn [app built omap]. now apply Haur.
    + cbn match in *.
      destruct (pacman_ok m (install_cmd noconfirm (r :: repo))) eqn:Hok;
        cbn match in *; [|discriminate].
      rewrite Hfin in *. cbn [fst snd] in *.
      rewrite !built_app, Hpb. cbn [app built omap]. now apply Haur.
Qed.

Lemma run_install_returns_after_all_witness :
  installed tool_chain "x"
  \/ (exists cmd,
        cmd ∈ commands
                (fst (run_install tool_chain fine_machine false
                        {["x"; "z"]} true))
        /\ "x" ∈ cmd /\ pacman_ok fine_machine cmd = true)
  \/ ("x" ∈ built (fst (run_install tool_chain fine_machine false
                          {["x"; "z"]} true))
      /\ build_ok fine_machine "x" = true).
Proof.
  apply (run_install_returns_after_all tool_chain fine_machine
           {["x"; "z"]} true).
  - vm_compute. reflexivity.
  - apply elem_of_union_l, elem_of_singleton. reflexivity.
Defined.

(** X12.  [run_remove] hands pacman exactly the requested packages that
    are installed, sorted and without duplicates, in one [pacman -Rsc]
    command, and runs no command when none of them is installed.  A dry run
    runs no command.  The function returns in every case, also when pacman
    fails, and never builds a package. *)
Theorem run_remove_targets_installed (self : PackageTool) (m : Machine)
    (package_names : gset string) (noconfirm : bool) :
  exists targets,
    (forall n, n ∈ targets <-> n ∈ package_names /\ installed self n)
    /\ NoDup targets
    /\ Sorted str_le targets
    /\ commands (fst (run_remove self m false package_names noconfirm))
       = match targets with
         | [] => []
         | _ :: _ =>
             [ ["sudo"; "pacman"; "-Rsc"]
               ++ (if noconfirm then ["--noconfirm"] else []) ++ targets ]
         end
    /\ commands (fst (run_remove self m true package_names noconfirm)) = []
    /\ (forall dry_run,
          snd (run_remove self m dry_run package_names noconfirm) = Returned
          /\ built (fst (run_remove self m dry_run package_names noconfirm))
             = []).
Proof.
  exists (sorted (List.filter (fun name => bool_decide (name ∈ localdb self))
                              (elements package_names))).
  split; [|split; [|split]].
  - intros n. rewrite sorted_elem, filter_elem, elem_of_elements.
    unfold installed. now rewrite bool_decide_eq_true.
  - apply sorted_nodup, filter_nodup, NoDup_elements.
  - apply sorted_sorted.
  - unfold run_remove, remove_cmd.
    set (notices := map (fun name => Say (NotInstalled name)) _).
    assert (Hnb : built notices = []) by apply built_says.
    assert (Hnc : commands notices = []) by apply commands_says.
    destruct (List.filter (fun name => bool_decide (name ∈ localdb self))
                          (elements package_names)) as [|a l] eqn:Hf.
    + cbn [fst snd sorted fold_right]. rewrite commands_app, Hnc.
      split; [reflexivity|]. split; [reflexivity|].
      intros dry_run. split; [reflexivity|]. now rewrite built_app, Hnb.
    + destruct (sorted (a :: l)) as [|b l'] eqn:Hs.
      { exfalso. assert (Ha : a ∈ sorted (a :: l))
          by (apply sorted_elem, list_elem_of_here).
        rewrite Hs in Ha. inversion Ha. }
      cbn [fst snd]. rewrite !commands_app, !Hnc.
      split; [reflexivity|]. split; [reflexivity|].
      intros [|]; cbn [fst snd]; rewrite !built_app, Hnb; now split.
Qed.
(* ===================================================================== *)
(** * scan_package: every path through a scan *)
(* ===================================================================== *)

Lemma assess_critical_last (fs : list SecurityFinding) (f : SecurityFinding) :
  risk_level f = CRITICAL -> _assess_overall_security (fs ++ [f]) = false.
Proof.
  intros Hf. unfold _assess_overall_security.
  rewrite count_level_app. cbn [count_level]. rewrite Hf. cbn [RiskLevel_eqb].
  destruct (0 <? _) eqn:E; [reflexivity|].
  apply Nat.ltb_ge in E. lia.
Qed.

Lemma grows_refl (w : World) : grows w w.
Proof. split; [auto|]. exists []. now rewrite app_nil_r. Qed.

Lemma grows_same (w w' : World) :
  disk w' = disk w -> trace w' = trace w -> grows w w'.
Proof.
  intros Hd Ht. split; [now rewrite Hd|]. exists []. now rewrite app_nil_r.
Qed.

Lemma grows_trans (a b c : World) : grows a b -> grows b c -> grows a c.
Proof.
  intros [H1 [e1 T1]] [H2 [e2 T2]]. split; [auto|].
  exists (e1 ++ e2). now rewrite T2, T1, app_assoc.
Qed.

Lemma respects_ret {A} (a : A) : respects grows (ret a).
Proof. intros w r w' H. inversion H; subst. apply grows_refl. Qed.

Lemma respects_raise {A} (e : exn) : respects grows (@raise A e).
Proof. intros w r w' H. inversion H; subst. apply grows_refl. Qed.

Lemma respects_bind {A B} (m : M A) (f : A -> M B) :
  respects grows m -> (forall a, respects grows (f a)) ->
  respects grows (bind m f).
Proof.
  intros Hm Hf w r w' H. unfold bind in H.
  destruct (m w) as [[e|a] w1] eqn:Em.
  - inversion H; subst. exact (Hm _ _ _ Em).
  - exact (grows_trans _ _ _ (Hm _ _ _ Em) (Hf a _ _ _ H)).
Qed.

Lemma respects_try_except {A} (m : M A) (handler : exn -> M A) :
  respects grows m -> (forall e, respects grows (handler e)) ->
  respects grows (try_except m handler).
Proof.
  intros Hm Hh w r w' H. unfold try_except in H.
  destruct (m w) as [[e|a] w1] eqn:Em.
  - exact (grows_trans _ _ _ (Hm _ _ _ Em) (Hh e _ _ _ H)).
  - inversion H; subst. exact (Hm _ _ _ Em).
Qed.

Lemma respects_emit (e : event) : respects grows (emit e).
Proof.
  intros w r w' H. inversion H; subst. split; [auto|]. now exists [e].
Qed.

Lemma respects_log (level : log_level) (msg : string) :
  respects grows (log level msg).
Proof. apply respects_emit. Qed.

Lemma respects_get_disk : respects grows get_disk.
Proof. intros w r w' H. inversion H; subst. apply grows_refl. Qed.

Lemma respects_get_temp_dir : respects grows get_temp_dir.
Proof. intros w r w' H. inversion H; subst. apply grows_refl. Qed.

Lemma respects_get_findings : respects grows get_findings.
Proof. intros w r w' H. inversion H; subst. apply grows_refl. Qed.

Lemma respects_set_temp_dir (d : Path) : respects grows (set_temp_dir d).
Proof. intros w r w' H. inversion H; subst. now apply grows_same. Qed.

Lemma respects_extend (fs : list SecurityFinding) : respects grows (extend fs).
Proof. intros w r w' H. inversion H; subst. now apply grows_same. Qed.

(** Writing entries into the disk that was just read. *)
Lemma respects_write {A} (f : gmap string Entry -> gmap string Entry)
    (k : M A) :
  (forall d key, is_Some (d !! key) -> is_Some (f d !! key)) ->
  respects grows k ->
  respects grows (d <- get_disk ;; set_disk (f d) ;;; k).
Proof.
  intros Hf Hk w r w' H. cbv [bind get_disk set_disk] in H.
  apply Hk in H. destruct H as [Hd [evs Ht]]. cbn in Hd, Ht.
  split; [|now exists evs]. intros key Hkey. apply Hd. cbn. now apply Hf.
Qed.

Lemma insert_keeps_keys (d : gmap string Entry) (k key : string) (v : Entry) :
  is_Some (d !! key) -> is_Some (<[k := v]> d !! key).
Proof.
  intros H. destruct (decide (k = key)) as [->|Hne].
  - rewrite lookup_insert_eq. now eexists.
  - now rewrite lookup_insert_ne.
Qed.

Lemma fold_insert_keeps_keys (written : list (string * Entry))
    (d : gmap string Entry) (key : string) :
  is_Some (d !! key) ->
  is_Some (fold_left (fun d kv => <[fst kv := snd kv]> d) written d !! key).
Proof.
  revert d. induction written as [|kv written IH]; intros d H; [exact H|].
  cbn [fold_left]. apply IH. now apply insert_keeps_keys.
Qed.

Create HintDb grows.
#[local] Hint Resolve respects_ret respects_raise respects_log respects_emit
  respects_get_disk respects_get_temp_dir respects_get_findings
  respects_set_temp_dir respects_extend : grows.

Lemma respects_check_members (extract_to : Path) (members : list TarInfo) :
  respects grows (check_members extract_to members).
Proof.
  induction members as [|member rest IH]; cbn [check_members].
  - auto with grows.
  - destruct (negb _); [auto with grows|].
    apply respects_bind; [|intros _; exact IH].
    destruct (_ <? _)%Z; auto with grows.
Qed.

Lemma respects_read_archive (h : Host) (archive_path : Path) :
  respects grows (read_archive h archive_path).
Proof.
  unfold read_archive. apply respects_bind; [auto with grows|]. intros d.
  destruct (d !! _) as [[|content|]|]; auto with grows.
  destruct (tar_open h content); auto with grows.
Qed.

Lemma respects_extractall (h : Host) (members : list TarInfo)
    (extract_to : Path) :
  respects grows (extractall h members extract_to).
Proof.
  unfold extractall. apply respects_bind; [auto with grows|]. intros _.
  destruct (tar_extractall h members extract_to) as [written failure] eqn:E.
  intros w r w' H.
  refine (respects_write
            (fold_left (fun d kv => <[fst kv := snd kv]> d) written)
            (match failure with Some e => raise e | None => ret tt end)
            (fold_insert_keeps_keys written) _ w r w' H).
  destruct failure; auto with grows.
Qed.

Lemma respects_safe_extract_tar (h : Host) (archive_path extract_to : Path) :
  respects grows (_safe_extract_tar h archive_path extract_to).
Proof.
  unfold _safe_extract_tar. apply respects_try_except.
  - apply respects_bind; [apply respects_read_archive|]. intros members.
    apply respects_bind; [apply respects_check_members|]. intros _.
    apply respects_extractall.
  - intros [msg|msg|msg]; cbn [on_tar_error]; auto with grows.
Qed.

Lemma respects_download (h : Host) (package_name : string) :
  respects grows (_download_and_extract_package h package_name).
Proof.
  unfold _download_and_extract_package. apply respects_try_except.
  - apply respects_bind; [auto with grows|]. intros _.
    apply respects_bind; [auto with grows|]. intros _.
    destruct (fetch_url h _) as [msg|archive_data]; [auto with grows|].
    apply respects_bind; [auto with grows|]. intros [temp_dir|];
      [|auto with grows].
    apply respects_bind; [auto with grows|]. intros _.
    apply (respects_write
             (fun d => <[path_str (resolve
                           (path_join temp_dir (package_name +:+ ".tar.gz")))
                         := File archive_data]> d)).
    { intros d key. apply insert_keeps_keys. }
    apply respects_bind; [apply respects_safe_extract_tar|]. intros _.
    apply respects_bind; [auto with grows|]. intros d.
    destruct (negb _); auto with grows.
  - intros [msg|msg|msg]; auto with grows.
Qed.

(** [_download_and_extract_package] returns the directory of the package
    under the scratch directory, which then exists, or raises an
    [AURSecurityError]; it never returns [None] and never lets another
    exception through. *)
Lemma download_result (h : Host) (package_name : string) (w w' : World)
    (r : exn + option Path) :
  _download_and_extract_package h package_name w = (r, w') ->
  (exists msg, r = inl (AURSecurityError msg))
  \/ (exists td,
        temp_dir w = Some td
        /\ r = inr (Some (path_join td package_name))
        /\ path_exists (disk w') (path_join td package_name) = true).
Proof.
  unfold _download_and_extract_package.
  cbv beta iota delta [try_except bind log emit get_temp_dir get_disk
                       set_disk raise ret].
  cbn [findings temp_dir disk trace].
  destruct (fetch_url h _) as [msg|archive_data].
  { intros H. inversion H. left. now eexists. }
  destruct (temp_dir w) as [td|]; cbn [findings temp_dir disk trace].
  2:{ intros H. inversion H. left. now eexists. }
  match goal with
  | |- context [_safe_extract_tar h ?a ?b ?w0] =>
      destruct (_safe_extract_tar h a b w0) as [[e|[]] w1]
  end.
  { intros H. destruct e; inversion H; left; now eexists. }
  match goal with
  | |- context [path_exists (disk w1) ?p] =>
      destruct (path_exists (disk w1) p) eqn:E
  end; cbn [negb]; intros H; inversion H; subst.
  - right. exists td. split; [reflexivity|]. split; [reflexivity | exact E].
  - left. now eexists.
Qed.

Ltac grows_step :=
  repeat first
    [ solve [auto with grows]
    | apply respects_bind; [|intros ?] ].

Lemma respects_scan_in (h : Host) (package_name : string) (td : Path) :
  respects grows (scan_in h package_name td).
Proof.
  unfold scan_in. apply respects_bind; [auto with grows|]. intros _.
  apply respects_bind; [apply respects_download|]. intros [pd|];
    [|grows_step].
  apply respects_bind; [auto with grows|]. intros d.
  destruct (negb _); [unfold append; grows_step|].
  unfold _check_package_metadata, _analyze_additional_files.
  grows_step.
  destruct (files_findings h _ pd) as [fs [e|]]; grows_step.
Qed.

(** What the body of a scan returns: the findings of the scanner object and
    the verdict on them, and [true] only at the end of the three analysis
    steps. *)
Lemma scan_in_result (h : Host) (package_name : string) (td : Path)
    (w w' : World) (safe : bool) (fs : list SecurityFinding) :
  scan_in h package_name td w = (inr (safe, fs), w') ->
  fs = findings w'
  /\ safe = _assess_overall_security fs
  /\ (safe = true ->
      exists d files before msg,
        path_exists d (path_join (path_join td package_name) "PKGBUILD")
        = true
        /\ fs = findings w
                ++ analyze h d
                     (path_join (path_join td package_name) "PKGBUILD")
                ++ metadata_findings h package_name ++ files
        /\ trace w'
           = before
             ++ [ EvAnalyze
                    (path_join (path_join td package_name) "PKGBUILD");
                  EvMetadata package_name;
                  EvFiles (path_join td package_name);
                  EvLog INFO msg ]).
Proof.
  unfold scan_in. cbv beta iota delta [bind set_temp_dir].
  destruct (_download_and_extract_package h package_name _)
    as [[e|opd] w1] eqn:Hd; [discriminate|].
  destruct (download_result _ _ _ _ _ Hd)
    as [[msg Hr]|(td' & Htd & Hr & Hex)]; [discriminate|].
  cbn [temp_dir] in Htd. injection Htd as <-. injection Hr as ->.
  destruct (keeps_download h package_name _ _ _ Hd) as (Hfs & _).
  cbn [findings] in Hfs.
  cbv beta iota delta [get_disk]. clear Hex.
  destruct (path_exists (disk w1)
              (path_join (path_join td package_name) "PKGBUILD")) eqn:Hp;
    cbn [negb].
  - cbv beta iota delta [bind emit extend _check_package_metadata
                         _analyze_additional_files get_disk get_findings
                         log ret raise].
    cbn [findings temp_dir disk trace].
    destruct (files_findings h (disk w1) (path_join td package_name))
      as [files [e|]];
      cbn [findings temp_dir disk trace]; [discriminate|].
    intros H. inversion H; subst. cbn [findings trace].
    split; [reflexivity|]. split; [reflexivity|]. intros _.
    exists (disk w1), files, (trace w1). eexists.
    split; [exact Hp|]. split.
    + rewrite Hfs, <- !app_assoc. reflexivity.
    + rewrite <- !app_assoc. reflexivity.
  - cbv beta iota delta [bind append extend get_findings ret].
    cbn [findings temp_dir disk trace].
    intros H. inversion H; subst. cbn [findings].
    split; [reflexivity|].
    split; [symmetry; now apply assess_critical_last|]. discriminate.
Qed.

(** The context manager: the body runs in a world with the scratch
    directory, and whatever it does, the directory and everything under it
    are removed afterwards. *)
Lemma temp_directory_result {A} (h : Host) (prefix : string)
    (body : Path -> M A) (w w' : World) (r : exn + A) :
  respects grows (body (mkdtemp h prefix)) ->
  _temp_directory h prefix body w = (r, w') ->
  exists wb,
    body (mkdtemp h prefix)
      (mkWorld (findings w) (temp_dir w)
         (<[path_str (resolve (mkdtemp h prefix)) := Dir]> (disk w))
         (trace w ++ [EvMkdtemp (mkdtemp h prefix)]))
    = (r, wb)
    /\ w' = mkWorld (findings wb) (temp_dir wb)
              (filter (fun kv => under (mkdtemp h prefix) (fst kv) = false)
                      (disk wb))
              (trace wb ++ [EvRmtree (mkdtemp h prefix)]).
Proof.
  intros Hbody. unfold _temp_directory, try_finally.
  cbv beta iota delta [bind emit get_disk set_disk].
  cbn [findings temp_dir disk trace].
  destruct (body _ _) as [rb wb] eqn:Hb.
  destruct (Hbody _ _ _ Hb) as [Hkeys _]. cbn [disk] in Hkeys.
  assert (Hex : path_exists (disk wb) (mkdtemp h prefix) = true).
  { unfold path_exists. apply bool_decide_eq_true, Hkeys.
    rewrite lookup_insert_eq. now eexists. }
  rewrite Hex. cbv beta iota delta [rmtree bind emit get_disk set_disk].
  cbn [findings temp_dir disk trace].
  intros H. inversion H; subst. exists wb. split; reflexivity.
Qed.

(** A scan of a valid name, in one equation: the body runs in
    [scan_world]; what it returns is returned, and what it raises becomes a
    finding and the verdict [false]; the scratch directory is removed
    before either. *)
Lemma scan_package_run (h : Host) (package_name : string) (w : World) :
  _validate_package_name package_name = true ->
  exists rb wb,
    scan_in h package_name (scratch_of h package_name)
      (scan_world h package_name w) = (rb, wb)
    /\ scan_package h package_name w
       = match rb with
         | inr res => (inr res, after_scan h package_name wb [] [])
         | inl e =>
             (inr (false, findings wb ++ [fst (handled package_name e)]),
              after_scan h package_name wb [fst (handled package_name e)]
                [snd (handled package_name e)])
         end.
Proof.
  intros Hv. unfold scan_package. rewrite Hv. cbn [negb].
  cbv beta iota delta [bind set_findings log emit try_except].
  cbn [findings temp_dir disk trace].
  destruct (_temp_directory h _ (scan_in h package_name) _) as [r w'] eqn:Ht.
  apply temp_directory_result in Ht; [|apply respects_scan_in].
  destruct Ht as (wb & Hb & ->).
  cbn [findings temp_dir disk trace] in Hb. rewrite <- app_assoc in Hb.
  exists r, wb. split; [exact Hb|].
  unfold after_scan, scratch_of.
  destruct r as [e|res].
  - destruct e as [msg|msg|msg];
      cbv beta iota delta [bind log emit append extend get_findings ret
                           handled fst snd scanner_error_finding
                           unexpected_error_finding exn_str];
      cbn [findings temp_dir disk trace];
      rewrite <- app_assoc; reflexivity.
  - rewrite app_nil_r. reflexivity.
Qed.

Lemma assess_true (fs : list SecurityFinding) :
  _assess_overall_security fs = true ->
  count_level CRITICAL fs = 0
  /\ count_level HIGH fs <= 2
  /\ count_level MEDIUM fs <= 5.
Proof.
  unfold _assess_overall_security.
  destruct (0 <? _) eqn:E1; [discriminate|].
  destruct (2 <? _) eqn:E2; [discriminate|].
  destruct (5 <? _) eqn:E3; [discriminate|]. intros _.
  apply Nat.ltb_ge in E1, E2, E3. lia.
Qed.

Lemma scan_package_returns (h : Host) (package_name : string) (w : World) :
  exists safe fs w',
    scan_package h package_name w = (inr (safe, fs), w')
    /\ safe = _assess_overall_security fs.
Proof.
  destruct (_validate_package_name package_name) eqn:Hv.
  - destruct (scan_package_run h package_name w Hv) as (rb & wb & Hb & ->).
    destruct rb as [e|[safe fs]].
    + do 3 eexists. split; [reflexivity|]. symmetry.
      apply assess_critical_last. now destruct e.
    + exists safe, fs. eexists. split; [reflexivity|].
      now destruct (scan_in_result _ _ _ _ _ _ _ Hb) as (_ & ? & _).
  - rewrite (scan_invalid h package_name w Hv).
    do 3 eexists. split; reflexivity.
Qed.

(** X13.  [scan_package] returns on every input: no exception leaves it.
    The flag it returns is always the verdict of [_assess_overall_security]
    on the findings it returns, so a scan that stopped early or failed
    carries a CRITICAL finding that says why. *)
Theorem scan_package_verdict_consistent (h : Host) (package_name : string)
    (w : World) :
  exists safe fs w',
    scan_package h package_name w = (inr (safe, fs), w')
    /\ safe = _assess_overall_security fs.
Proof. apply scan_package_returns. Qed.



(** X15.  [scan_package] answers [true] only at the end of a complete
    scan: the name is valid, the manifest existed in the package directory
    under the scratch directory, the three analysis steps ran in order, and
    the findings returned are exactly theirs, with no CRITICAL, at most two
    HIGH and at most five MEDIUM findings among them. *)
Theorem scan_package_safe_means_analysed (h : Host) (package_name : string)
    (w w' : World) (fs : list SecurityFinding) :
  scan_package h package_name w = (inr (true, fs), w') ->
  _validate_package_name package_name = true
  /\ count_level CRITICAL fs = 0
  /\ count_level HIGH fs <= 2
  /\ count_level MEDIUM fs <= 5
  /\ exists d files before msg,
       path_exists d (pkgbuild_of h package_name) = true
       /\ fs = analyze h d (pkgbuild_of h package_name)
               ++ metadata_findings h package_name ++ files
       /\ trace w'
          = before
            ++ [ EvAnalyze (pkgbuild_of h package_name);
                 EvMetadata package_name;
                 EvFiles (path_join (scratch_of h package_name) package_name);
                 EvLog INFO msg;
                 EvRmtree (scratch_of h package_name) ].
Proof.
  intros Hrun.
  destruct (_validate_package_name package_name) eqn:Hv.
  2:{ rewrite (scan_invalid h package_name w Hv) in Hrun. discriminate. }
  split; [reflexivity|].
  destruct (scan_package_run h package_name w Hv) as (rb & wb & Hb & Heq).
  rewrite Heq in Hrun. destruct rb as [e|[safe fs']]; [discriminate|].
  injection Hrun as -> -> <-.
  destruct (scan_in_result _ _ _ _ _ _ _ Hb) as (_ & Hsafe & Hfull).
  destruct (assess_true fs (eq_sym Hsafe)) as (Hc & Hh & Hm).
  destruct (Hfull eq_refl) as (d & files & before & msg & Hp & Hfs & Htr).
  repeat (split; [assumption|]).
  exists d, files, before, msg. unfold pkgbuild_of.
  split; [exact Hp|]. split; [exact Hfs|].
  cbn [after_scan trace]. rewrite Htr, <- app_assoc. reflexivity.
Qed.

Lemma scan_package_safe_means_analysed_witness :
  _validate_package_name "pkg" = true
  /\ count_level CRITICAL good_findings = 0
  /\ count_level HIGH good_findings <= 2
  /\ count_level MEDIUM good_findings <= 5
  /\ exists d files before msg,
       path_exists d
         (pkgbuild_of (sample_host good_members good_written) "pkg") = true
       /\ good_findings
          = analyze (sample_host good_members good_written) d
              (pkgbuild_of (sample_host good_members good_written) "pkg")
            ++ metadata_findings (sample_host good_members good_written) "pkg"
            ++ files
       /\ trace (snd (scan_package (sample_host good_members good_written)
                        "pkg" empty_world))
          = before
            ++ [ EvAnalyze
                   (pkgbuild_of (sample_host good_members good_written) "pkg");
                 EvMetadata "pkg";
                 EvFiles
                   (path_join
                      (scratch_of (sample_host good_members good_written)
                         "pkg") "pkg");
                 EvLog INFO msg;
                 EvRmtree
                   (scratch_of (sample_host good_members good_written)
                      "pkg") ].
Proof.
  apply (scan_package_safe_means_analysed
           (sample_host good_members good_written) "pkg" empty_world).
  vm_compute. reflexivity.
Defined.

(** X16.  When the download of the snapshot fails, the scan ends with
    exactly one finding, the CRITICAL scanner error that carries the
    message of the failure, and the verdict [false]; nothing was written,
    extracted or analysed, and the scratch directory is removed. *)
Theorem scan_package_download_failure (h : Host) (package_name : string)
    (w : World) (msg : string) :
  _validate_package_name package_name = true ->
  fetch_url h (snapshot_url package_name) = inl msg ->
  scan_package h package_name w
  = (inr (false, [scanner_error_finding msg]),
     mkWorld [scanner_error_finding msg]
       (Some (scratch_of h package_name))
       (filter (fun kv => under (scratch_of h package_name) (fst kv) = false)
               (<[path_str (resolve (scratch_of h package_name)) := Dir]>
                  (disk w)))
       (trace w ++
        [ EvLog INFO ("Starting security scan for AUR package: "
                        +:+ package_name);
          EvMkdtemp (scratch_of h package_name);
          EvLog DEBUG ("Downloading from: " +:+ snapshot_url package_name);
          EvFetch (snapshot_url package_name);
          EvRmtree (scratch_of h package_name);
          EvLog ERROR ("AUR Security Error: " +:+ msg) ])).
Proof.
  intros Hv Hfetch.
  destruct (scan_package_run h package_name w Hv) as (rb & wb & Hb & ->).
  unfold scan_in, _download_and_extract_package in Hb.
  cbv beta iota delta [bind try_except set_temp_dir log emit raise] in Hb.
  cbn [findings temp_dir disk trace scan_world] in Hb.
  unfold snapshot_url in Hfetch. rewrite Hfetch in Hb.
  injection Hb as <- <-.
  unfold after_scan, handled, snapshot_url.
  cbn [fst snd findings temp_dir disk trace app].
  rewrite <- !app_assoc. reflexivity.
Qed.

Lemma scan_package_download_failure_witness :
  scan_package offline_host "pkg" empty_world
  = (inr (false, [scanner_error_finding "Network error: timed out"]),
     mkWorld [scanner_error_finding "Network error: timed out"]
       (Some (scratch_of offline_host "pkg"))
       (filter (fun kv => under (scratch_of offline_host "pkg") (fst kv)
                          = false)
               (<[path_str (resolve (scratch_of offline_host "pkg")) := Dir]>
                  (disk empty_world)))
       (trace empty_world ++
        [ EvLog INFO ("Starting security scan for AUR package: " +:+ "pkg");
          EvMkdtemp (scratch_of offline_host "pkg");
          EvLog DEBUG ("Downloading from: " +:+ snapshot_url "pkg");
          EvFetch (snapshot_url "pkg");
          EvRmtree (scratch_of offline_host "pkg");
          EvLog ERROR ("AUR Security Error: " +:+ "Network error: timed out")
        ])).
Proof.
  apply (scan_package_download_failure offline_host "pkg" empty_world
           "Network error: timed out").
  - vm_compute. reflexivity.
  - reflexivity.
Defined.


(* ===================================================================== *)
(** * _check_required_fields *)
(* ===================================================================== *)

Lemma fold_required (content : string) (table : list (string * string))
    (fs : list SecurityFinding) :
  fold_left
    (fun fs fd =>
       let '(field, description) := fd in
       if negb (has_field field content)
       then fs ++ [missing_required_finding field description]
       else fs)
    table fs
  = fs ++ map (fun fd => missing_required_finding (fst fd) (snd fd))
              (missing_fields content table).
Proof.
  revert fs. induction table as [|[field description] table IH]; intros fs.
  - cbn. now rewrite app_nil_r.
  - cbn [fold_left missing_fields List.filter fst snd]. rewrite IH.
    fold (missing_fields content table).
    destruct (negb (has_field field content)); [|reflexivity].
    cbn [map fst snd]. now rewrite <- app_assoc.
Qed.

Lemma fold_recommended (content : string) (table : list (string * string))
    (acc : list string) :
  fold_left
    (fun acc fd =>
       let '(field, description) := fd in
       if negb (has_field field content)
       then acc ++ [field +:+ " (" +:+ description +:+ ")"]
       else acc)
    table acc
  = acc ++ map (fun fd => fst fd +:+ " (" +:+ snd fd +:+ ")")
               (missing_fields content table).
Proof.
  revert acc. induction table as [|[field description] table IH]; intros acc.
  - cbn. now rewrite app_nil_r.
  - cbn [fold_left missing_fields List.filter fst snd]. rewrite IH.
    fold (missing_fields content table).
    destruct (negb (has_field field content)); [|reflexivity].
    cbn [map fst snd]. now rewrite <- app_assoc.
Qed.

Lemma count_missing_required (level : RiskLevel)
    (missing : list (string * string)) :
  count_level level
    (map (fun fd => missing_required_finding (fst fd) (snd fd)) missing)
  = if RiskLevel_eqb HIGH level then length missing else 0.
Proof.
  induction missing as [|fd missing IH]; [now destruct level|].
  cbn [map count_level risk_level missing_required_finding length].
  rewrite IH. now destruct level.
Qed.

Lemma check_required_fields_added (content : string)
    (fs : list SecurityFinding) :
  exists added,
    _check_required_fields content fs = fs ++ added
    /\ count_level HIGH added
       = length (missing_fields content REQUIRED_FIELDS)
    /\ count_level LOW added
       = match missing_fields content RECOMMENDED_FIELDS with
         | [] => 0
         | _ :: _ => 1
         end
    /\ count_level CRITICAL added = 0
    /\ count_level MEDIUM added = 0.
Proof.
  unfold _check_required_fields.
  rewrite fold_required, fold_recommended. cbn [app].
  destruct (missing_fields content RECOMMENDED_FIELDS) as [|fd l].
  - cbn [map]. eexists. split; [reflexivity|].
    rewrite !count_missing_required. auto.
  - cbn [map]. eexists. split; [now rewrite <- app_assoc|].
    rewrite !count_level_app, !count_missing_required. cbn. lia.
Qed.

(** X18.  [_check_required_fields] keeps the findings it is given and adds
    one HIGH finding for each required field the manifest does not
    declare, and one LOW finding in all when a recommended field is
    missing, however many are; it adds no CRITICAL and no MEDIUM finding. *)
Theorem check_required_fields_counts (content : string)
    (fs : list SecurityFinding) :
  exists added,
    _check_required_fields content fs = fs ++ added
    /\ count_level HIGH added
       = length (missing_fields content REQUIRED_FIELDS)
    /\ count_level LOW added
       = match missing_fields content RECOMMENDED_FIELDS with
         | [] => 0
         | _ :: _ => 1
         end
    /\ count_level CRITICAL added = 0
    /\ count_level MEDIUM added = 0.
Proof. apply check_required_fields_added. Qed.

(** X19.  A manifest that lacks three or more of the five required fields
    makes the verdict [false], whatever else the scan finds: the HIGH
    findings of [_check_required_fields] alone pass the threshold. *)
Theorem missing_required_fields_make_unsafe (content : string)
    (before rest : list SecurityFinding) :
  3 <= length (missing_fields content REQUIRED_FIELDS) ->
  _assess_overall_security (_check_required_fields content before ++ rest)
  = false.
Proof.
  intros Hmissing.
  destruct (check_required_fields_added content before)
    as (added & -> & Hhigh & _).
  unfold _assess_overall_security.
  destruct (0 <? _); [reflexivity|].
  destruct (2 <? _) eqn:E; [reflexivity|].
  apply Nat.ltb_ge in E. rewrite !count_level_app in E. lia.
Qed.

Lemma missing_required_fields_make_unsafe_witness :
  _assess_overall_security
    (_check_required_fields sparse_manifest [] ++ [sample_finding LOW])
  = false.
Proof.
  apply (missing_required_fields_make_unsafe sparse_manifest []
           [sample_finding LOW]).
  vm_compute. lia.
Defined.
(* ===================================================================== *)
(** * Reports *)
(* ===================================================================== *)

Lemma RiskLevel_eqb_refl (a : RiskLevel) : RiskLevel_eqb a a = true.
Proof. now destruct a. Qed.

Lemma RiskLevel_eqb_sym (a b : RiskLevel) :
  RiskLevel_eqb a b = RiskLevel_eqb b a.
Proof. now destruct a, b. Qed.

Lemma risk_value_inj (a b : RiskLevel) : risk_value a = risk_value b -> a = b.
Proof. destruct a, b; cbn; congruence. Qed.

Lemma increment_level (s : gmap string nat) (f : SecurityFinding) :
  (forall level, is_Some (s !! risk_value level)) ->
  exists s',
    increment s (risk_value (risk_level f)) = Some s'
    /\ (forall level,
           s' !! risk_value level
           = (fun n => n + count_level level [f]) <$> s !! risk_value level)
    /\ (forall key, (forall level, key <> risk_value level) ->
                    s' !! key = s !! key).
Proof.
  intros Hs. unfold increment.
  destruct (Hs (risk_level f)) as [n Hn]. rewrite Hn.
  eexists. split; [reflexivity|]. split.
  - intros level. cbn [count_level].
    destruct (RiskLevel_eqb (risk_level f) level) eqn:E.
    + apply RiskLevel_eqb_eq in E. subst level.
      rewrite lookup_insert_eq, Hn. cbn. f_equal; lia.
    + rewrite lookup_insert_ne.
      * destruct (s !! risk_value level); cbn; [f_equal; lia | reflexivity].
      * intros Heq. apply risk_value_inj in Heq.
        rewrite Heq, RiskLevel_eqb_refl in E. discriminate.
  - intros key Hkey. apply lookup_insert_ne. intros <-.
    now apply (Hkey (risk_level f)).
Qed.

Lemma fold_summary (fs : list SecurityFinding) (s : gmap string nat) :
  (forall level, is_Some (s !! risk_value level)) ->
  exists s',
    fold_left
      (fun summary finding =>
         match summary with
         | Some s => increment s (risk_value (risk_level finding))
         | None => None
         end)
      fs (Some s) = Some s'
    /\ (forall level,
           s' !! risk_value level
           = (fun n => n + count_level level fs) <$> s !! risk_value level)
    /\ (forall key, (forall level, key <> risk_value level) ->
                    s' !! key = s !! key).
Proof.
  revert s. induction fs as [|f fs IH]; intros s Hs.
  - exists s. split; [reflexivity|]. split; [|reflexivity].
    intros level. destruct (s !! risk_value level); cbn; [f_equal; lia|].
    reflexivity.
  - destruct (increment_level s f Hs) as (s1 & Hinc & Hlev & Hother).
    cbn [fold_left]. rewrite Hinc.
    destruct (IH s1) as (s' & Hfold & Hlev' & Hother').
    { intros level. rewrite Hlev. destruct (Hs level) as [n ->]. now eexists. }
    exists s'. split; [exact Hfold|]. split.
    + intros level. rewrite Hlev', Hlev.
      destruct (s !! risk_value level); cbn; [|reflexivity].
      f_equal. cbn [count_level]. lia.
    + intros key Hkey. now rewrite Hother', Hother.
Qed.

Lemma count_levels_total (fs : list SecurityFinding) :
  count_level LOW fs + count_level MEDIUM fs + count_level HIGH fs
  + count_level CRITICAL fs = length fs.
Proof.
  induction fs as [|f fs IH]; [reflexivity|].
  cbn [count_level length]. destruct (risk_level f); cbn; lia.
Qed.

(** X20.  [_get_risk_summary] never fails on a key: it returns a
    dictionary with exactly the four level names as keys, each with the
    number of findings of that level, and the four numbers add up to the
    number of findings. *)
Theorem get_risk_summary_counts (findings : list SecurityFinding) :
  exists summary,
    _get_risk_summary findings = Some summary
    /\ (forall level,
           summary !! risk_value level = Some (count_level level findings))
    /\ (forall key, (forall level, key <> risk_value level) ->
                    summary !! key = None)
    /\ count_level LOW findings + count_level MEDIUM findings
       + count_level HIGH findings + count_level CRITICAL findings
       = length findings.
Proof.
  unfold _get_risk_summary.
  set (s0 := list_to_map _ : gmap string nat).
  assert (H0 : forall level, s0 !! risk_value level = Some 0)
    by (intros []; reflexivity).
  destruct (fold_summary findings s0) as (s' & Hfold & Hlev & Hother).
  { intros level. rewrite H0. now eexists. }
  exists s'. split; [exact Hfold|]. split; [|split].
  - intros level. now rewrite Hlev, H0.
  - intros key Hkey. rewrite (Hother key Hkey). unfold s0. cbn.
    rewrite !lookup_insert_ne; [apply lookup_empty|..];
      intros <-.
    + now apply (Hkey CRITICAL).
    + now apply (Hkey HIGH).
    + now apply (Hkey MEDIUM).
    + now apply (Hkey LOW).
  - apply count_levels_total.
Qed.

(** ** print_report *)

(** The grouping loop: each level maps to its findings in their order, and
    a level without findings is no key. *)
Lemma group_fold (fs : list SecurityFinding) (acc : risk_dict)
    (level : RiskLevel) :
  (forall l, acc l <> Some []) ->
  fold_left group_step fs acc level
  = match (match acc level with Some l0 => l0 | None => [] end)
          ++ findings_of level fs with
    | [] => None
    | l => Some l
    end.
Proof.
  revert acc. induction fs as [|f fs IH]; intros acc Hacc.
  - cbn [fold_left findings_of List.filter]. rewrite app_nil_r.
    destruct (acc level) as [[|x l]|] eqn:E; cbn; try reflexivity.
    now destruct (Hacc level).
  - cbn [fold_left]. rewrite IH.
    + unfold group_step, dict_set, findings_of. cbn [List.filter].
      destruct (acc (risk_level f)) as [l0|] eqn:Ef.
      * rewrite Ef.
        destruct (RiskLevel_eqb level (risk_level f)) eqn:E.
        -- apply RiskLevel_eqb_eq in E. subst level.
           rewrite RiskLevel_eqb_refl, Ef.
           now rewrite <- app_assoc.
        -- rewrite (RiskLevel_eqb_sym (risk_level f) level), E.
           reflexivity.
      * rewrite RiskLevel_eqb_refl.
        destruct (RiskLevel_eqb level (risk_level f)) eqn:E.
        -- apply RiskLevel_eqb_eq in E. subst level.
           rewrite RiskLevel_eqb_refl, Ef. reflexivity.
        -- rewrite (RiskLevel_eqb_sym (risk_level f) level), E.
           reflexivity.
    + intros l. unfold group_step, dict_set.
      destruct (acc (risk_level f)) as [l0|] eqn:Ef.
      * rewrite Ef. destruct (RiskLevel_eqb l (risk_level f));
          [destruct l0; discriminate | apply Hacc].
      * rewrite RiskLevel_eqb_refl.
        destruct (RiskLevel_eqb l (risk_level f));
          [discriminate | apply Hacc].
Qed.

Lemma group_by_risk_level (fs : list SecurityFinding) (level : RiskLevel) :
  group_by_risk fs level
  = match findings_of level fs with
    | [] => None
    | l => Some l
    end.
Proof.
  unfold group_by_risk. rewrite group_fold; [reflexivity|]. discriminate.
Qed.

Lemma entries_app (a b : list report_line) :
  entries (a ++ b) = entries a ++ entries b.
Proof. apply omap_app. Qed.

Lemma found_texts_app (a b : list report_line) :
  found_texts (a ++ b) = found_texts a ++ found_texts b.
Proof. apply omap_app. Qed.

Lemma entries_finding_lines (i : nat) (f : SecurityFinding) :
  entries (finding_lines i f) = [(i, category f)].
Proof.
  unfold finding_lines.
  destruct (nonempty (location f)), (nonempty (matched_content f)),
    (nonempty (recommendation f)); reflexivity.
Qed.

Lemma entries_numbered_lines (i : nat) (l : list SecurityFinding) :
  entries (numbered_lines i l)
  = combine (seq i (length l)) (map category l).
Proof.
  revert i. induction l as [|f l IH]; intros i; [reflexivity|].
  cbn [numbered_lines length seq map combine].
  now rewrite entries_app, entries_finding_lines, IH.
Qed.

Lemma entries_level_counts (by_risk : risk_dict) (levels : list RiskLevel) :
  entries
    (flat_map
       (fun level =>
          match by_risk level with
          | Some l => [LevelCount level (length l) (negb (length l =? 1))]
          | None => []
          end) levels) = [].
Proof.
  induction levels as [|level levels IH]; [reflexivity|].
  cbn [flat_map]. rewrite entries_app, IH.
  now destruct (by_risk level).
Qed.

Lemma found_level_counts (by_risk : risk_dict) (levels : list RiskLevel) :
  found_texts
    (flat_map
       (fun level =>
          match by_risk level with
          | Some l => [LevelCount level (length l) (negb (length l =? 1))]
          | None => []
          end) levels) = [].
Proof.
  induction levels as [|level levels IH]; [reflexivity|].
  cbn [flat_map]. rewrite found_texts_app, IH.
  now destruct (by_risk level).
Qed.

Lemma map_snd_numbered (l : list SecurityFinding) :
  map snd (numbered l) = map category l.
Proof.
  unfold numbered. generalize 1. induction l as [|f l IH]; intros i;
    [reflexivity|].
  cbn [length seq map combine snd]. now rewrite IH.
Qed.

Lemma by_level_permutation (fs : list SecurityFinding) :
  findings_of CRITICAL fs ++ findings_of HIGH fs
  ++ findings_of MEDIUM fs ++ findings_of LOW fs ≡ₚ fs.
Proof.
  induction fs as [|f fs IH]; [reflexivity|].
  unfold findings_of in *. cbn [List.filter].
  destruct (risk_level f); cbn [RiskLevel_eqb app].
  - rewrite !app_assoc, <- Permutation_middle. constructor.
    now rewrite <- !app_assoc.
  - rewrite (app_assoc (List.filter _ fs)), <- Permutation_middle.
    constructor. now rewrite <- app_assoc.
  - rewrite <- Permutation_middle. now constructor.
  - now constructor.
Qed.

(** The detailed part of a report, level by level. *)
Lemma details_entries (fs : list SecurityFinding) :
  entries
    (flat_map
       (fun level =>
          match group_by_risk fs level with
          | Some l => LevelHeader level :: numbered_lines 1 l
          | None => []
          end) report_levels)
  = numbered (findings_of CRITICAL fs) ++ numbered (findings_of HIGH fs)
    ++ numbered (findings_of MEDIUM fs) ++ numbered (findings_of LOW fs).
Proof.
  assert (Hlevel : forall level,
             entries
               match group_by_risk fs level with
               | Some l => LevelHeader level :: numbered_lines 1 l
               | None => []
               end = numbered (findings_of level fs)).
  { intros level. rewrite group_by_risk_level.
    destruct (findings_of level fs) as [|f l]; [reflexivity|].
    change (entries (LevelHeader level :: numbered_lines 1 (f :: l)))
      with (entries (numbered_lines 1 (f :: l))).
    apply entries_numbered_lines. }
  unfold report_levels. cbn [flat_map].
  rewrite !entries_app, !Hlevel, app_nil_r. reflexivity.
Qed.

(** X21.  The detailed part of a report of [print_report] lists every
    finding exactly once: the CRITICAL findings first, then HIGH, MEDIUM and
    LOW, within a level in the order of the findings list, numbered from 1
    in each level. *)
Theorem print_report_lists_every_finding (package_name : string)
    (is_safe : bool) (findings : list SecurityFinding) :
  entries (print_report package_name is_safe findings)
  = numbered (findings_of CRITICAL findings)
    ++ numbered (findings_of HIGH findings)
    ++ numbered (findings_of MEDIUM findings)
    ++ numbered (findings_of LOW findings)
  /\ map snd (entries (print_report package_name is_safe findings))
     ≡ₚ map category findings.
Proof.
  assert (Heq : entries (print_report package_name is_safe findings)
                = numbered (findings_of CRITICAL findings)
                  ++ numbered (findings_of HIGH findings)
                  ++ numbered (findings_of MEDIUM findings)
                  ++ numbered (findings_of LOW findings)).
  { unfold print_report. rewrite entries_app.
    replace (entries [Rule; Title package_name; Rule;
                      if is_safe then AppearsSafe else HasConcerns;
                      SummaryLine (length findings)])
      with (@nil (nat * string)) by now destruct is_safe.
    cbn [app].
    destruct findings as [|f fs]; [reflexivity|]. cbv zeta.
    rewrite !entries_app, entries_level_counts.
    match goal with
    | |- _ ++ entries (DetailsHeader :: Dashes :: ?X ++ Rule :: ?Y) = _ =>
        change (entries (DetailsHeader :: Dashes :: X ++ Rule :: Y))
          with (entries (X ++ [Rule] ++ Y))
    end.
    rewrite !entries_app, details_entries.
    replace (entries (if negb is_safe then [Advisory] else [Passed]))
      with (@nil (nat * string)) by now destruct is_safe.
    change (entries [Rule]) with (@nil (nat * string)).
    change (entries [Blank]) with (@nil (nat * string)).
    cbn [app]. now rewrite !app_nil_r. }
  split; [exact Heq|].
  rewrite Heq, !map_app, !map_snd_numbered, <- !map_app.
  apply Permutation_map, by_level_permutation.
Qed.

Lemma length_append (a b : string) :
  String.length (a +:+ b) = String.length a + String.length b.
Proof.
  induction a as [|c a IH]; [reflexivity|].
  change (S (String.length (a +:+ b))
          = S (String.length a + String.length b)).
  now rewrite IH.
Qed.

Lemma length_substring0 (n : nat) (s : string) :
  n <= String.length s -> String.length (String.substring 0 n s) = n.
Proof.
  revert s. induction n as [|n IH]; intros s Hn.
  - now destruct s.
  - destruct s as [|c s]; cbn in Hn; [lia|]. cbn. rewrite IH; lia.
Qed.

Lemma shown_content_length (content : string) :
  String.length (shown_content content) <= 100.
Proof.
  unfold shown_content. destruct (100 <? String.length content) eqn:E.
  - apply Nat.ltb_lt in E.
    rewrite length_append, length_substring0 by lia. cbn. lia.
  - apply Nat.ltb_ge in E. exact E.
Qed.

Lemma nonempty_some (s : option string) (c : string) :
  nonempty s = Some c -> s = Some c /\ c <> EmptyString.
Proof.
  destruct s as [[|a s]|]; cbn; intros H; inversion H; subst.
  split; [reflexivity | discriminate].
Qed.

Lemma found_finding_lines (i : nat) (f : SecurityFinding) :
  found_texts (finding_lines i f)
  = match nonempty (matched_content f) with
    | Some c => [shown_content c]
    | None => []
    end.
Proof.
  unfold finding_lines.
  destruct (nonempty (location f)), (nonempty (matched_content f)),
    (nonempty (recommendation f)); reflexivity.
Qed.

Lemma found_numbered_lines (i : nat) (l : list SecurityFinding) (s : string) :
  s ∈ found_texts (numbered_lines i l) ->
  exists f c, f ∈ l /\ matched_content f = Some c /\ s = shown_content c.
Proof.
  revert i. induction l as [|f l IH]; intros i Hs; [inversion Hs|].
  cbn [numbered_lines] in Hs.
  rewrite found_texts_app, found_finding_lines in Hs.
  apply elem_of_app in Hs as [Hs|Hs].
  - destruct (nonempty (matched_content f)) as [c|] eqn:E; [|inversion Hs].
    apply list_elem_of_singleton in Hs as ->.
    apply nonempty_some in E as [E _].
    exists f, c. split; [apply list_elem_of_here | now split].
  - destruct (IH _ Hs) as (g & c & Hg & Hc & ->).
    exists g, c. split; [now apply list_elem_of_further | now split].
Qed.

Lemma found_details (fs : list SecurityFinding) (levels : list RiskLevel)
    (s : string) :
  s ∈ found_texts
        (flat_map
           (fun level =>
              match group_by_risk fs level with
              | Some l => LevelHeader level :: numbered_lines 1 l
              | None => []
              end) levels) ->
  exists f c, f ∈ fs /\ matched_content f = Some c /\ s = shown_content c.
Proof.
  induction levels as [|level levels IH]; intros Hs; [inversion Hs|].
  cbn [flat_map] in Hs. rewrite found_texts_app in Hs.
  apply elem_of_app in Hs as [Hs|Hs]; [|now apply IH].
  rewrite group_by_risk_level in Hs.
  destruct (findings_of level fs) as [|g l] eqn:E; [inversion Hs|].
  change (found_texts (LevelHeader level :: numbered_lines 1 (g :: l)))
    with (found_texts (numbered_lines 1 (g :: l))) in Hs.
  destruct (found_numbered_lines _ _ _ Hs) as (f & c & Hf & Hc & ->).
  exists f, c. split; [|now split].
  rewrite <- E in Hf. unfold findings_of in Hf.
  apply list_elem_of_In, filter_In in Hf as [Hf _].
  now apply list_elem_of_In.
Qed.

(** X22.  Every text that a report of [print_report] shows as found has at
    most 100 characters: it is the matched content of one of the findings,
    unchanged when that has at most 100 characters, and otherwise its first
    97 characters followed by three dots. *)
Theorem print_report_shortens_found_text (package_name : string)
    (is_safe : bool) (findings : list SecurityFinding) (s : string) :
  s ∈ found_texts (print_report package_name is_safe findings) ->
  String.length s <= 100
  /\ exists f content,
       f ∈ findings
       /\ matched_content f = Some content
       /\ (String.length content <= 100 -> s = content)
       /\ (100 < String.length content ->
           s = String.substring 0 97 content +:+ "...").
Proof.
  intros Hs.
  assert (Hfound : exists f c, f ∈ findings /\ matched_content f = Some c
                               /\ s = shown_content c).
  { revert Hs. unfold print_report. rewrite found_texts_app.
    replace (found_texts [Rule; Title package_name; Rule;
                          if is_safe then AppearsSafe else HasConcerns;
                          SummaryLine (length findings)])
      with (@nil string) by now destruct is_safe.
    cbn [app].
    destruct findings as [|f0 fs]; [intros Hs; inversion Hs|]. cbv zeta.
    rewrite found_texts_app, found_level_counts. cbn [app].
    match goal with
    | |- _ ∈ found_texts (DetailsHeader :: Dashes :: ?X ++ Rule :: ?Y) -> _ =>
        change (found_texts (DetailsHeader :: Dashes :: X ++ Rule :: Y))
          with (found_texts (X ++ [Rule] ++ Y))
    end.
    rewrite !found_texts_app.
    replace (found_texts (if negb is_safe then [Advisory] else [Passed]))
      with (@nil string) by now destruct is_safe.
    change (found_texts [Rule]) with (@nil string).
    change (found_texts [Blank]) with (@nil string).
    cbn [app]. rewrite app_nil_r. apply found_details. }
  destruct Hfound as (f & c & Hf & Hc & ->).
  split; [apply shown_content_length|].
  exists f, c. split; [exact Hf|]. split; [exact Hc|].
  unfold shown_content. split; intros Hlen.
  - apply Nat.ltb_ge in Hlen. now rewrite Hlen.
  - apply Nat.ltb_lt in Hlen. now rewrite Hlen.
Qed.

Lemma print_report_shortens_found_text_witness :
  String.length (text (repeat "x"%char 97) +:+ "...") <= 100
  /\ exists f content,
       f ∈ [sample_finding LOW; long_match_finding]
       /\ matched_content f = Some content
       /\ (String.length content <= 100 ->
           text (repeat "x"%char 97) +:+ "..." = content)
       /\ (100 < String.length content ->
           text (repeat "x"%char 97) +:+ "..."
           = String.substring 0 97 content +:+ "...").
Proof.
  apply (print_report_shortens_found_text "pkg" false
           [sample_finding LOW; long_match_finding]).
  vm_compute. apply list_elem_of_here.
Defined.
(* ===================================================================== *)
(** * main of the scanner *)
(* ===================================================================== *)

Lemma results_get_set (d : Cli.results) (key key' : string)
    (v : bool * list SecurityFinding) :
  Cli.results_get (Cli.results_set d key v) key'
  = if String.eqb key key' then Some v else Cli.results_get d key'.
Proof.
  induction d as [|[k old] d IH]; cbn [Cli.results_set Cli.results_get].
  - reflexivity.
  - destruct (String.eqb k key) eqn:E; cbn [Cli.results_get].
    + apply String.eqb_eq in E. subst k.
      destruct (String.eqb key key'); reflexivity.
    + rewrite IH. destruct (String.eqb k key') eqn:E'; [|reflexivity].
      destruct (String.eqb key key') eqn:E2; [|reflexivity].
      apply String.eqb_eq in E', E2. subst.
      rewrite String.eqb_refl in E. discriminate.
Qed.

Lemma results_set_forall (P : string * (bool * list SecurityFinding) -> Prop)
    (d : Cli.results) (key : string) (v : bool * list SecurityFinding) :
  Forall P d -> P (key, v) -> Forall P (Cli.results_set d key v).
Proof.
  intros Hd Hv. induction Hd as [|[k old] d Hk Hd IH];
    cbn [Cli.results_set]; [now repeat constructor|].
  destruct (String.eqb k key) eqn:E.
  - apply String.eqb_eq in E. subst k. now constructor.
  - now constructor.
Qed.

(** One round of the loop: the scan returns, so the handler for exceptions
    is never entered. *)
Lemma scan_loop_step (h : Host) (args : Cli.Args) (i : nat)
    (package_name : string) (rest : list string) (st : Cli.LoopState) :
  exists safe fs w',
    scan_package h package_name (Cli.world st) = (inr (safe, fs), w')
    /\ safe = _assess_overall_security fs
    /\ Cli.scan_loop h args i (package_name :: rest) st
       = let out1 :=
           if Cli.quiet args then Cli.out st
           else Cli.out st
                ++ [Cli.StderrScanning i (length (Cli.packages args))
                      package_name] in
         let results' :=
           Cli.results_set (Cli.all_results st) package_name (safe, fs) in
         if Cli.fail_fast args && negb safe then
           Cli.mkLoop results' (Cli.overall_safe st && safe)
             (if Cli.quiet args then out1
              else out1 ++ [Cli.StderrFailFast package_name])
             w'
         else Cli.scan_loop h args (S i) rest
                (Cli.mkLoop results' (Cli.overall_safe st && safe) out1 w').
Proof.
  destruct (scan_package_returns h package_name (Cli.world st))
    as (safe & fs & w' & Hrun & Hsafe).
  exists safe, fs, w'. split; [exact Hrun|]. split; [exact Hsafe|].
  cbn [Cli.scan_loop]. rewrite Hrun. reflexivity.
Qed.

(** The loop prints progress on the standard error only, and every record
    it keeps pairs the findings of a scan with the verdict on them. *)
Lemma scan_loop_keeps (h : Host) (args : Cli.Args) (pkgs : list string)
    (i : nat) (st : Cli.LoopState) :
  Forall (fun entry => fst (snd entry)
                       = _assess_overall_security (snd (snd entry)))
         (Cli.all_results st) ->
  (exists evs,
      Cli.out (Cli.scan_loop h args i pkgs st) = Cli.out st ++ evs
      /\ Forall (fun e => Cli.shows_report e = false) evs)
  /\ Forall (fun entry => fst (snd entry)
                          = _assess_overall_security (snd (snd entry)))
            (Cli.all_results (Cli.scan_loop h args i pkgs st)).
Proof.
  revert i st. induction pkgs as [|p rest IH]; intros i st Hres.
  - split; [|exact Hres]. exists []. split; [now rewrite app_nil_r|].
    constructor.
  - destruct (scan_loop_step h args i p rest st)
      as (safe & fs & w' & _ & Hsafe & ->). cbv zeta.
    assert (Hres' : Forall (fun entry =>
                              fst (snd entry)
                              = _assess_overall_security (snd (snd entry)))
                      (Cli.results_set (Cli.all_results st) p (safe, fs)))
      by now apply results_set_forall.
    destruct (Cli.fail_fast args && negb safe).
    + cbn [Cli.out Cli.all_results]. split; [|exact Hres'].
      destruct (Cli.quiet args).
      * exists []. split; [now rewrite app_nil_r | constructor].
      * eexists. rewrite <- app_assoc. split; [reflexivity|].
        repeat constructor.
    + match goal with
      | |- context [Cli.scan_loop h args (S i) rest ?st1] =>
          destruct (IH (S i) st1 Hres') as ((evs & Hout & Hevs) & Hall)
      end.
      split; [|exact Hall]. rewrite Hout. cbn [Cli.out].
      destruct (Cli.quiet args).
      * now exists evs.
      * eexists. rewrite <- app_assoc. split; [reflexivity|].
        constructor; [reflexivity | exact Hevs].
Qed.

(** When the loop ends with [overall_safe] still true, every package was
    scanned and every scan returned [True]. *)
Lemma scan_loop_safe (h : Host) (args : Cli.Args) (pkgs : list string)
    (i : nat) (st : Cli.LoopState) :
  Cli.overall_safe (Cli.scan_loop h args i pkgs st) = true ->
  Cli.overall_safe st = true
  /\ forall p, p ∈ pkgs ->
       exists w0 w1 fs,
         scan_package h p w0 = (inr (true, fs), w1)
         /\ _assess_overall_security fs = true.
Proof.
  revert i st. induction pkgs as [|p rest IH]; intros i st Hsafe.
  - split; [exact Hsafe|]. intros p Hp. inversion Hp.
  - destruct (scan_loop_step h args i p rest st)
      as (safe & fs & w' & Hrun & Hverdict & Heq).
    rewrite Heq in Hsafe. cbv zeta in Hsafe.
    assert (Hboth : Cli.overall_safe st && safe = true
                    /\ forall q, q ∈ rest ->
                         exists w0 w1 fs0,
                           scan_package h q w0 = (inr (true, fs0), w1)
                           /\ _assess_overall_security fs0 = true).
    { destruct (Cli.fail_fast args && negb safe) eqn:Hbreak.
      - cbn [Cli.overall_safe] in Hsafe. split; [exact Hsafe|].
        apply andb_true_iff in Hsafe as [_ ->].
        rewrite andb_false_r in Hbreak. discriminate.
      - destruct (IH _ _ Hsafe) as [H1 H2]. now split. }
    destruct Hboth as [Hand Hrest].
    apply andb_true_iff in Hand as [Hst ->].
    split; [exact Hst|]. intros q Hq.
    apply elem_of_cons in Hq as [->|Hq]; [|now apply Hrest].
    exists (Cli.world st), w', fs. split; [exact Hrun | now symmetry].
Qed.



(** X24.  With [--fail-fast], a run that ends unsafe stopped at the first
    package whose scan answered [False]: the packages before it were all
    scanned safe, the packages after it were not scanned at all, and its
    record in the results says unsafe. *)
Theorem scan_loop_fail_fast_stops (h : Host) (args : Cli.Args)
    (pkgs : list string) (i : nat) (st : Cli.LoopState) :
  Cli.fail_fast args = true ->
  Cli.overall_safe st = true ->
  Cli.overall_safe (Cli.scan_loop h args i pkgs st) = false ->
  exists pre p post fs,
    pkgs = pre ++ p :: post
    /\ Cli.overall_safe (Cli.scan_loop h args i pre st) = true
    /\ Cli.scan_loop h args i pkgs st
       = Cli.scan_loop h args i (pre ++ [p]) st
    /\ Cli.results_get
         (Cli.all_results (Cli.scan_loop h args i pkgs st)) p
       = Some (false, fs).
Proof.
  intros Hff. revert i st.
  induction pkgs as [|p rest IH]; intros i st Hst Hend.
  - cbn [Cli.scan_loop] in Hend. congruence.
  - destruct (scan_loop_step h args i p rest st)
      as (safe & fs & w' & Hrun & _ & Heq).
    destruct (scan_loop_step h args i p [] st)
      as (safe1 & fs1 & w1 & Hrun1 & _ & Heq1).
    rewrite Hrun in Hrun1. injection Hrun1 as <- <- <-.
    cbv zeta in Heq, Heq1. rewrite Hff, Hst in Heq, Heq1.
    cbn [andb] in Heq, Heq1.
    destruct safe; cbn [negb] in Heq, Heq1.
    + rewrite Heq in Hend.
      match type of Hend with
      | context [Cli.scan_loop h args (S i) rest ?st1] =>
          destruct (IH (S i) st1 eq_refl Hend)
            as (pre & q & post & fs' & -> & Hpre & Hsame & Hq)
      end.
      exists (p :: pre), q, post, fs'. split; [reflexivity|].
      destruct (scan_loop_step h args i p pre st)
        as (safe2 & fs2 & w2 & Hrun2 & _ & Heq2).
      destruct (scan_loop_step h args i p (pre ++ [q]) st)
        as (safe3 & fs3 & w3 & Hrun3 & _ & Heq3).
      rewrite Hrun in Hrun2, Hrun3.
      injection Hrun2 as <- <- <-. injection Hrun3 as <- <- <-.
      cbv zeta in Heq2, Heq3. rewrite Hff, Hst in Heq2, Heq3.
      cbn [andb negb] in Heq2, Heq3.
      split; [now rewrite Heq2|]. rewrite Heq. split.
      * change ((p :: pre) ++ [q]) with (p :: pre ++ [q]).
        now rewrite Heq3.
      * exact Hq.
    + exists [], p, rest, fs. split; [reflexivity|].
      split; [exact Hst|]. split.
      * change ([] ++ [p]) with [p]. now rewrite Heq, Heq1.
      * rewrite Heq. cbn [Cli.all_results].
        now rewrite results_get_set, String.eqb_refl.
Qed.

Lemma scan_loop_fail_fast_stops_witness :
  exists pre p post fs,
    Cli.packages sample_args = pre ++ p :: post
    /\ Cli.overall_safe
         (Cli.scan_loop (sample_host good_members good_written) sample_args 1
            pre (start_state empty_world)) = true
    /\ Cli.scan_loop (sample_host good_members good_written) sample_args 1
         (Cli.packages sample_args) (start_state empty_world)
       = Cli.scan_loop (sample_host good_members good_written) sample_args 1
           (pre ++ [p]) (start_state empty_world)
    /\ Cli.results_get
         (Cli.all_results
            (Cli.scan_loop (sample_host good_members good_written)
               sample_args 1 (Cli.packages sample_args)
               (start_state empty_world))) p
       = Some (false, fs).
Proof.
  apply (scan_loop_fail_fast_stops (sample_host good_members good_written)
           sample_args (Cli.packages sample_args) 1
           (start_state empty_world)).
  - reflexivity.
  - reflexivity.
  - vm_compute. reflexivity.
Defined.

(** X25.  In the default mode, without [--json], [--summary] and
    [--output], [main] shows no report at all: the reports of
    [print_report] are collected and dropped, and nothing is written to the
    standard output but the final scan summary. *)
Theorem main_default_mode_shows_no_report (h : Host)
    (can_write : string -> bool) (args : Cli.Args) (w : World) :
  Cli.json args = false ->
  Cli.summary args = false ->
  nonempty (Cli.output args) = None ->
  Forall (fun e => Cli.shows_report e = false)
         (fst (fst (Cli.main h can_write args w))).
Proof.
  intros Hjson Hsummary Houtput. unfold Cli.main, Cli.content_of.
  rewrite Hjson, Hsummary, Houtput. cbn [andb orb negb].
  assert (H0 : Forall (fun e => Cli.shows_report e = false)
                 (if Cli.quiet args then [Cli.SetLevel ERROR]
                  else if Cli.verbose args then [Cli.SetLevel DEBUG]
                  else [])).
  { destruct (Cli.quiet args); [repeat constructor|].
    destruct (Cli.verbose args); repeat constructor. }
  destruct (_ || _)%Z.
  { cbn [fst]. apply Forall_app. split; [exact H0 | repeat constructor]. }
  destruct (50 <? _).
  { cbn [fst]. apply Forall_app. split; [exact H0 | repeat constructor]. }
  cbv zeta. cbn [fst app].
  match goal with
  | |- context [Cli.scan_loop h args 1 ?pkgs ?st0] =>
      destruct (scan_loop_keeps h args pkgs 1 st0)
        as ((evs & -> & Hevs) & _); [constructor|]
  end.
  cbn [Cli.out]. rewrite !Forall_app. split; [now split|].
  destruct (_ && _); [|constructor].
  constructor; [reflexivity|].
  destruct (negb _); repeat constructor.
Qed.

Lemma main_default_mode_shows_no_report_witness :
  Forall (fun e => Cli.shows_report e = false)
         (fst (fst (Cli.main (sample_host good_members good_written)
                      (fun _ => true) good_args empty_world))).
Proof.
  apply (main_default_mode_shows_no_report
           (sample_host good_members good_written) (fun _ => true) good_args
           empty_world); reflexivity.
Defined.

(** X26.  With [--json], [main] can only put out a report without
    findings: as soon as one scanned package has a finding, the JSON
    encoding raises and [main] ends with this exception and without a
    report; a report that does come out lists safe packages with no
    finding only. *)
Theorem main_json_report_has_no_findings (h : Host)
    (can_write : string -> bool) (args : Cli.Args) (w w' : World)
    (events : list Cli.main_event) (finish : Cli.ending) :
  Cli.json args = true ->
  Cli.main h can_write args w = (events, w', finish) ->
  (forall e, e ∈ events -> Cli.shows_report e = true ->
     exists all_results,
       (e = Cli.Stdout (Cli.JsonReport all_results)
        \/ exists path, e = Cli.WriteFile path (Cli.JsonReport all_results))
       /\ Forall (fun entry => snd entry = (true, [])) all_results)
  /\ ((exists e, finish = Cli.Raises e) ->
      Forall (fun e => Cli.shows_report e = false) events)
  /\ ((1 <= Cli.timeout args <= 300)%Z ->
      length (Cli.packages args) <= 50 ->
      existsb (fun entry => negb (0 =? length (snd (snd entry))))
        (Cli.all_results
           (Cli.scan_loop h args 1 (Cli.packages args)
              (Cli.mkLoop [] true
                 (if Cli.quiet args then [Cli.SetLevel ERROR]
                  else if Cli.verbose args then [Cli.SetLevel DEBUG]
                  else [])
                 (mkWorld [] None (disk w) (trace w))))) = true ->
      finish
      = Cli.Raises
          (Exception "Object of type RiskLevel is not JSON serializable")).
Proof.
  intros Hjson. unfold Cli.main, Cli.content_of, Cli.generate_json_report.
  rewrite Hjson. cbn [andb orb negb].
  rewrite andb_false_r. cbn [andb].
  assert (H0 : Forall (fun e => Cli.shows_report e = false)
                 (if Cli.quiet args then [Cli.SetLevel ERROR]
                  else if Cli.verbose args then [Cli.SetLevel DEBUG]
                  else [])).
  { destruct (Cli.quiet args); [repeat constructor|].
    destruct (Cli.verbose args); repeat constructor. }
  assert (Hquiet : forall (l : list Cli.main_event) e (P : Prop),
             e ∈ l ->
             Forall (fun e => Cli.shows_report e = false) l ->
             Cli.shows_report e = true -> P).
  { intros l e P He Hall Hshow. rewrite Forall_forall in Hall.
    rewrite (Hall e He) in Hshow. discriminate. }
  destruct ((Cli.timeout args <? 1) || (300 <? Cli.timeout args))%Z eqn:Ht.
  { intros H. injection H as <- _ <-. split; [|split].
    - intros e He. apply (Hquiet _ e _ He).
      apply Forall_app. split; [exact H0 | repeat constructor].
    - intros _. apply Forall_app. split; [exact H0 | repeat constructor].
    - intros Hrange. exfalso.
      apply orb_true_iff in Ht as [Ht|Ht]; apply Z.ltb_lt in Ht; lia. }
  destruct (50 <? length (Cli.packages args)) eqn:Hn.
  { intros H. injection H as <- _ <-. split; [|split].
    - intros e He. apply (Hquiet _ e _ He).
      apply Forall_app. split; [exact H0 | repeat constructor].
    - intros _. apply Forall_app. split; [exact H0 | repeat constructor].
    - intros _ Hlen. exfalso. apply Nat.ltb_lt in Hn. lia. }
  cbv zeta.
  match goal with
  | |- context [Cli.scan_loop h args 1 ?pkgs ?st0] =>
      destruct (scan_loop_keeps h args pkgs 1 st0)
        as ((evs & Hout & Hevs) & Hres); [constructor|];
      set (st := Cli.scan_loop h args 1 pkgs st0) in *
  end.
  cbn [Cli.out] in Hout.
  assert (Hloop : Forall (fun e => Cli.shows_report e = false) (Cli.out st)).
  { rewrite Hout. apply Forall_app. now split. }
  destruct (existsb _ (Cli.all_results st)) eqn:Hany.
  { intros H. injection H as <- _ <-. split; [|split].
    - intros e He. exact (Hquiet _ e _ He Hloop).
    - intros _. exact Hloop.
    - reflexivity. }
  assert (Hclean : Forall (fun entry => snd entry = (true, []))
                     (Cli.all_results st)).
  { rewrite Forall_forall in Hres. apply Forall_forall.
    intros [k [safe fs]] Hin.
    pose proof (Hres _ Hin) as Hv. cbn [fst snd] in Hv |- *.
    assert (Hfs : negb (0 =? length fs) = false).
    { destruct (negb (0 =? length fs)) eqn:E; [|reflexivity].
      assert (existsb (fun entry => negb (0 =? length (snd (snd entry))))
                (Cli.all_results st) = true) as Hex
        by (apply existsb_exists; exists (k, (safe, fs));
            split; [now apply list_elem_of_In | exact E]).
      congruence. }
    destruct fs; [|discriminate]. now rewrite Hv. }
  destruct (nonempty (Cli.output args)) as [path|].
  - destruct (can_write path).
    + intros H. injection H as <- _ <-.
      split; [|split; [intros [e He]; discriminate | discriminate]].
      intros e He Hshow.
      rewrite app_nil_r in He.
      apply elem_of_app in He as [He|He];
        [exact (Hquiet _ e _ He Hloop Hshow)|].
      apply elem_of_cons in He as [->|He].
      * eexists. split; [right; now eexists | exact Hclean].
      * destruct (Cli.quiet args); [inversion He|].
        apply list_elem_of_singleton in He as ->. discriminate.
    + intros H. injection H as <- _ <-.
      split; [|split; [intros [e He]; discriminate | discriminate]].
      intros e He. apply (Hquiet _ e _ He).
      apply Forall_app. split; [exact Hloop | repeat constructor].
  - intros H. injection H as <- _ <-.
    split; [|split; [intros [e He]; discriminate | discriminate]].
    intros e He Hshow. cbn [app] in He.
    apply elem_of_app in He as [He|He];
      [exact (Hquiet _ e _ He Hloop Hshow)|].
    apply list_elem_of_singleton in He as ->.
    eexists. split; [now left | exact Hclean].
Qed.

Lemma main_json_report_has_no_findings_witness :
  (forall e,
      e ∈ fst (fst (Cli.main (sample_host good_members good_written)
                      (fun _ => true) json_args empty_world)) ->
      Cli.shows_report e = true ->
      exists all_results,
        (e = Cli.Stdout (Cli.JsonReport all_results)
         \/ exists path, e = Cli.WriteFile path (Cli.JsonReport all_results))
        /\ Forall (fun entry => snd entry = (true, [])) all_results)
  /\ ((exists e,
          snd (Cli.main (sample_host good_members good_written)
                 (fun _ => true) json_args empty_world) = Cli.Raises e) ->
      Forall (fun e => Cli.shows_report e = false)
             (fst (fst (Cli.main (sample_host good_members good_written)
                          (fun _ => true) json_args empty_world))))
  /\ ((1 <= Cli.timeout json_args <= 300)%Z ->
      length (Cli.packages json_args) <= 50 ->
      existsb (fun entry => negb (0 =? length (snd (snd entry))))
        (Cli.all_results
           (Cli.scan_loop (sample_host good_members good_written) json_args 1
              (Cli.packages json_args)
              (Cli.mkLoop [] true
                 (if Cli.quiet json_args then [Cli.SetLevel ERROR]
                  else if Cli.verbose json_args then [Cli.SetLevel DEBUG]
                  else [])
                 (mkWorld [] None (disk empty_world) (trace empty_world)))))
      = true ->
      snd (Cli.main (sample_host good_members good_written)
             (fun _ => true) json_args empty_world)
      = Cli.Raises
          (Exception "Object of type RiskLevel is not JSON serializable")).
Proof.
  apply (main_json_report_has_no_findings
           (sample_host good_members good_written) (fun _ => true) json_args
           empty_world
           (snd (fst (Cli.main (sample_host good_members good_written)
                        (fun _ => true) json_args empty_world)))).
  - reflexivity.
  - vm_compute. reflexivity.
Defined.
(* ===================================================================== *)
(** * The verdict, as findings accumulate *)
(* ===================================================================== *)

Lemma count_level_perm (level : RiskLevel) (a b : list SecurityFinding) :
  a ≡ₚ b -> count_level level a = count_level level b.
Proof.
  induction 1 as [|x a b _ IH|x y a|a b c _ IH1 _ IH2];
    cbn [count_level]; lia.
Qed.

Lemma count_level_weighty (level : RiskLevel) (fs : list SecurityFinding) :
  level <> LOW -> count_level level (weighty fs) = count_level level fs.
Proof.
  intros Hlevel. induction fs as [|f fs IH]; [reflexivity|].
  unfold weighty in *. cbn [List.filter count_level].
  destruct (risk_level f) eqn:E; cbn [RiskLevel_eqb negb count_level];
    rewrite ?E, IH; destruct level; try reflexivity; congruence.
Qed.

(** X27.  The verdict never improves as findings are added: when
    [_assess_overall_security] answers [True] for a list, it answers [True]
    for every part of it, so a package that is unsafe on some of its
    findings is unsafe on all of them. *)
Theorem assess_monotone (a b : list SecurityFinding) :
  _assess_overall_security (a ++ b) = true ->
  _assess_overall_security a = true /\ _assess_overall_security b = true.
Proof.
  unfold _assess_overall_security. rewrite !count_level_app.
  destruct (0 <? count_level CRITICAL a + count_level CRITICAL b) eqn:E1;
    [discriminate|].
  destruct (2 <? count_level HIGH a + count_level HIGH b) eqn:E2;
    [discriminate|].
  destruct (5 <? count_level MEDIUM a + count_level MEDIUM b) eqn:E3;
    [discriminate|].
  intros _. apply Nat.ltb_ge in E1, E2, E3.
  split.
  - replace (0 <? count_level CRITICAL a) with false
      by (symmetry; apply Nat.ltb_ge; lia).
    replace (2 <? count_level HIGH a) with false
      by (symmetry; apply Nat.ltb_ge; lia).
    replace (5 <? count_level MEDIUM a) with false
      by (symmetry; apply Nat.ltb_ge; lia).
    reflexivity.
  - replace (0 <? count_level CRITICAL b) with false
      by (symmetry; apply Nat.ltb_ge; lia).
    replace (2 <? count_level HIGH b) with false
      by (symmetry; apply Nat.ltb_ge; lia).
    replace (5 <? count_level MEDIUM b) with false
      by (symmetry; apply Nat.ltb_ge; lia).
    reflexivity.
Qed.

Lemma assess_monotone_witness :
  _assess_overall_security [sample_finding HIGH; sample_finding MEDIUM] = true
  /\ _assess_overall_security [sample_finding HIGH; sample_finding LOW] = true.
Proof.
  apply (assess_monotone [sample_finding HIGH; sample_finding MEDIUM]
           [sample_finding HIGH; sample_finding LOW]).
  reflexivity.
Defined.

(** X28.  The verdict depends on neither the order of the findings nor the
    LOW findings: two lists whose CRITICAL, HIGH and MEDIUM findings are
    the same up to order get the same verdict. *)
Theorem assess_ignores_order_and_low (fs fs' : list SecurityFinding) :
  weighty fs ≡ₚ weighty fs' ->
  _assess_overall_security fs = _assess_overall_security fs'.
Proof.
  intros Hperm. unfold _assess_overall_security.
  rewrite <- (count_level_weighty CRITICAL fs),
          <- (count_level_weighty CRITICAL fs'),
          <- (count_level_weighty HIGH fs),
          <- (count_level_weighty HIGH fs'),
          <- (count_level_weighty MEDIUM fs),
          <- (count_level_weighty MEDIUM fs') by discriminate.
  now rewrite !(count_level_perm _ _ _ Hperm).
Qed.

Lemma assess_ignores_order_and_low_witness :
  _assess_overall_security
    [sample_finding LOW; sample_finding HIGH; sample_finding MEDIUM]
  = _assess_overall_security [sample_finding MEDIUM; sample_finding HIGH].
Proof.
  apply (assess_ignores_order_and_low
           [sample_finding LOW; sample_finding HIGH; sample_finding MEDIUM]
           [sample_finding MEDIUM; sample_finding HIGH]).
  apply perm_swap.
Defined.
